(** * crdb-plan-gist-decoder: a shallow embedding of the plan gist decoder
      and of the plan formatter, with the properties of its specification.

    The Go package [gistdecoder] decodes a base64 string into a tree of
    [Node]s with a stack machine ([DecodePlanGist]) and prints that tree
    ([FormatPlan]).  The embedding follows the source function by function:

    - a byte is a [Byte.byte]; Go's [int], [int64] and [uint64] are [Z] with
      the 64-bit wrap-around written out where the code can overflow;
    - a [*Node] is an [option Node], [nil] being [None];
    - a method on [*planGistDecoder] is a computation in the monad [M], which
      threads the decoder and ends in [Ret], in [Panic] (a Go panic that
      unwinds through the caller) or in [Diverge] (a loop out of fuel, shown
      never to happen);
    - [map[string]interface{}] is a [gmap string value];
    - the run-time panics of Go that the code can raise are modelled (an
      index out of range, [make] on a length out of range); the resources
      of the machine are not: an allocation that the run-time accepts
      succeeds, and the recursion of the formatter finds the stack it
      needs. *)

From Stdlib Require Import ZArith List String Ascii Lia DecimalString.
From Stdlib.Strings Require Import Byte.
From stdpp Require Import base option list gmap strings.

Open Scope Z_scope.

(** ** Bytes and machine integers *)

Definition byteZ (b : byte) : Z := Z.of_N (Byte.to_N b).

Definition zByte (z : Z) : byte :=
  match Byte.of_N (Z.to_N (z mod 256)) with
  | Some b => b
  | None => x00
  end.

(** Truncation of a mathematical integer to Go's [uint64]. *)
Definition u64 (z : Z) : Z := z mod 2 ^ 64.

(** Reinterpretation of a [uint64] as Go's [int64] (two's complement). *)
Definition i64 (z : Z) : Z :=
  let u := u64 z in if u <? 2 ^ 63 then u else u - 2 ^ 64.

Definition minInt64 : Z := - 2 ^ 63.
Definition maxInt64 : Z := 2 ^ 63 - 1.

(** ** The result of running Go code *)

Inductive outcome (A : Type) : Type :=
| Ret (a : A)
| Panic (msg : string)
| Diverge.
Arguments Ret {A} a.
Arguments Panic {A} msg.
Arguments Diverge {A}.

(** ** Package [io] and [encoding/binary] of the Go standard library

    [bytes.Reader] is used through [Reset] and [ReadByte] only, so a reader
    is the list of the bytes that are still unread. *)

Inductive ioError : Type := EOF | ErrUnexpectedEOF | errOverflow.

Definition ioError_Error (e : ioError) : string :=
  match e with
  | EOF => "EOF"
  | ErrUnexpectedEOF => "unexpected EOF"
  | errOverflow => "binary: varint overflows a 64-bit integer"
  end.

Definition Reader_ReadByte (r : list byte) : (byte * option ioError) * list byte :=
  match r with
  | [] => ((x00, Some EOF), r)
  | b :: r' => ((b, None), r')
  end.

Definition MaxVarintLen64 : Z := 10.

(** The loop of [binary.ReadUvarint]: [todo] iterations are left, [i] is the
    index of the byte being read, [x] the value so far and [s] the shift. *)
Fixpoint ReadUvarint_loop (todo : nat) (i x s : Z) (r : list byte)
  : (Z * option ioError) * list byte :=
  match todo with
  | O => ((x, Some errOverflow), r)
  | S todo' =>
      match Reader_ReadByte r with
      | ((_, Some err), r') =>
          ((x, Some (if (0 <? i) then ErrUnexpectedEOF else err)), r')
      | ((b, None), r') =>
          let b := byteZ b in
          if b <? 128 then
            if (i =? MaxVarintLen64 - 1) && (1 <? b)
            then ((x, Some errOverflow), r')
            else ((Z.lor x (u64 (Z.shiftl b s)), None), r')
          else
            ReadUvarint_loop todo' (i + 1)
              (Z.lor x (u64 (Z.shiftl (Z.land b 127) s))) (s + 7) r'
      end
  end.

Definition ReadUvarint (r : list byte) : (Z * option ioError) * list byte :=
  ReadUvarint_loop (Z.to_nat MaxVarintLen64) 0 0 0 r.

(** [binary.ReadVarint]: the zig-zag decoding of the unsigned value; the
    complement [^x] of an [int64] is [Z.lnot]. *)
Definition ReadVarint (r : list byte) : (Z * option ioError) * list byte :=
  let '((ux, err), r') := ReadUvarint r in
  let x := i64 (Z.shiftr ux 1) in
  let x := if negb (Z.land ux 1 =? 0) then Z.lnot x else x in
  ((x, err), r').

(** The encoders [binary.PutUvarint] and [binary.PutVarint], which the
    decoder is the inverse of.  They are not part of the package; they are
    the encoding of the specification (base-128, little-endian, the high bit
    of a byte being the continuation flag; zig-zag for signed values). *)
Fixpoint PutUvarint_loop (todo : nat) (x : Z) : list byte :=
  match todo with
  | O => []
  | S todo' =>
      if 128 <=? x
      then zByte (Z.lor (x mod 256) 128) :: PutUvarint_loop todo' (Z.shiftr x 7)
      else [zByte x]
  end.

Definition PutUvarint (x : Z) : list byte :=
  PutUvarint_loop (Z.to_nat MaxVarintLen64) x.

Definition PutVarint (x : Z) : list byte :=
  let ux := u64 (Z.shiftl (u64 x) 1) in
  let ux := if x <? 0 then u64 (Z.lnot ux) else ux in
  PutUvarint ux.

(** ** Package [encoding/base64] of the Go standard library

    [base64.StdEncoding.DecodeString]: the standard alphabet with [=]
    padding, not strict (the unused bits of the last group are not
    checked); carriage returns and line feeds are skipped wherever they
    occur.  [base64_decode] follows [Encoding.decodeQuantum], which
    [Encoding.Decode] calls group after group until the source is used up
    (the fast paths of [Decode] for eight and for four valid digits decode
    what [decodeQuantum] decodes): [si] is the index in the source of the
    next byte and [dbuf] holds the digits of the group read so far.  An
    error is a [CorruptInputError], the offset in the source at which the
    library reports it. *)

Inductive base64Error : Type := CorruptInputError (offset : Z).

Definition base64_decodeMap (c : ascii) : option Z :=
  let n := Z.of_N (N_of_ascii c) in
  if (65 <=? n) && (n <=? 90) then Some (n - 65)
  else if (97 <=? n) && (n <=? 122) then Some (n - 97 + 26)
  else if (48 <=? n) && (n <=? 57) then Some (n - 48 + 52)
  else if n =? 43 then Some 62
  else if n =? 47 then Some 63
  else None.

Definition base64_isPad (c : ascii) : bool := Z.of_N (N_of_ascii c) =? 61.

Definition base64_isNewline (c : ascii) : bool :=
  let n := Z.of_N (N_of_ascii c) in (n =? 10) || (n =? 13).

(** The three bytes of a group of four 6-bit digits. *)
Definition base64_quantum (a b c d : Z) : list byte :=
  let val := Z.lor (Z.lor (Z.shiftl a 18) (Z.shiftl b 12))
                   (Z.lor (Z.shiftl c 6) d) in
  [zByte (Z.shiftr val 16); zByte (Z.shiftr val 8); zByte val].

(** The bytes of a group of [dlen] digits: [dlen - 1] of them. *)
Definition base64_group (dbuf : list Z) : list byte :=
  match dbuf with
  | [a; b; c; d] => base64_quantum a b c d
  | [a; b; c] => take 2 (base64_quantum a b c 0)
  | [a; b] => take 1 (base64_quantum a b 0 0)
  | _ => []
  end.

(** [for si < len(src) && (src[si] == '\n' || src[si] == '\r') { si++ }] *)
Fixpoint base64_skipNewlines (src : list ascii) (si : Z) : list ascii * Z :=
  match src with
  | c :: rest =>
      if base64_isNewline c then base64_skipNewlines rest (si + 1) else (src, si)
  | [] => (src, si)
  end.

Fixpoint base64_decode (src : list ascii) (si : Z) (dbuf : list Z)
  : list byte + base64Error :=
  match src with
  | [] =>
      (* the source ends: between two groups, or inside a group *)
      match dbuf with
      | [] => inl []
      | _ => inr (CorruptInputError (si - Z.of_nat (length dbuf)))
      end
  | c :: rest =>
      match base64_decodeMap c with
      | Some v =>
          if (length dbuf =? 3)%nat then
            match base64_decode rest (si + 1) [] with
            | inl bs => inl (base64_group (dbuf ++ [v]) ++ bs)
            | inr e => inr e
            end
          else base64_decode rest (si + 1) (dbuf ++ [v])
      | None =>
          if base64_isNewline c then base64_decode rest (si + 1) dbuf
          else if negb (base64_isPad c) then inr (CorruptInputError si)
          else
            (* padding *)
            match dbuf with
            | [] | [_] => inr (CorruptInputError si)
            | [_; _] =>
                (* a second [=] is expected *)
                match base64_skipNewlines rest (si + 1) with
                | ([], si') => inr (CorruptInputError si')
                | (c' :: rest', si') =>
                    if negb (base64_isPad c')
                    then inr (CorruptInputError (si' - 1))
                    else
                      match base64_skipNewlines rest' (si' + 1) with
                      | ([], _) => inl (base64_group dbuf)
                      | (_ :: _, si'') => inr (CorruptInputError si'')
                      end
                end
            | _ =>
                match base64_skipNewlines rest (si + 1) with
                | ([], _) => inl (base64_group dbuf)
                | (_ :: _, si') => inr (CorruptInputError si')
                end
            end
      end
  end.

Definition base64_DecodeString (s : string) : list byte + base64Error :=
  base64_decode (list_ascii_of_string s) 0 [].

(** ** The data model: operators, nodes, the decoder *)

Definition execOperator : Type := Z.

Definition unknownOp : execOperator := 0.
Definition scanOp : execOperator := 1.
Definition valuesOp : execOperator := 2.
Definition filterOp : execOperator := 3.
Definition invertedFilterOp : execOperator := 4.
Definition simpleProjectOp : execOperator := 5.
Definition serializingProjectOp : execOperator := 6.
Definition renderOp : execOperator := 7.
Definition applyJoinOp : execOperator := 8.
Definition hashJoinOp : execOperator := 9.
Definition mergeJoinOp : execOperator := 10.
Definition groupByOp : execOperator := 11.
Definition scalarGroupByOp : execOperator := 12.
Definition distinctOp : execOperator := 13.
Definition hashSetOpOp : execOperator := 14.
Definition streamingSetOpOp : execOperator := 15.
Definition unionAllOp : execOperator := 16.
Definition sortOp : execOperator := 17.
Definition ordinalityOp : execOperator := 18.
Definition indexJoinOp : execOperator := 19.
Definition lookupJoinOp : execOperator := 20.
Definition invertedJoinOp : execOperator := 21.
Definition zigzagJoinOp : execOperator := 22.
Definition limitOp : execOperator := 23.
Definition topKOp : execOperator := 24.
Definition max1RowOp : execOperator := 25.
Definition projectSetOp : execOperator := 26.
Definition windowOp : execOperator := 27.
Definition explainOptOp : execOperator := 28.
Definition explainOp : execOperator := 29.
Definition showTraceOp : execOperator := 30.
Definition insertOp : execOperator := 31.
Definition insertFastPathOp : execOperator := 32.
Definition updateOp : execOperator := 33.
Definition upsertOp : execOperator := 34.
Definition deleteOp : execOperator := 35.
Definition deleteRangeOp : execOperator := 36.
Definition createTableOp : execOperator := 37.
Definition createTableAsOp : execOperator := 38.
Definition createViewOp : execOperator := 39.
Definition sequenceSelectOp : execOperator := 40.
Definition saveTableOp : execOperator := 41.
Definition errorIfRowsOp : execOperator := 42.
Definition opaqueOp : execOperator := 43.
Definition alterTableSplitOp : execOperator := 44.
Definition alterTableUnsplitOp : execOperator := 45.
Definition alterTableUnsplitAllOp : execOperator := 46.
Definition alterTableRelocateOp : execOperator := 47.
Definition bufferOp : execOperator := 48.
Definition scanBufferOp : execOperator := 49.
Definition recursiveCTEOp : execOperator := 50.
Definition controlJobsOp : execOperator := 51.
Definition controlSchedulesOp : execOperator := 52.
Definition cancelQueriesOp : execOperator := 53.
Definition cancelSessionsOp : execOperator := 54.
Definition createStatisticsOp : execOperator := 55.
Definition exportOp : execOperator := 56.
Definition alterRangeRelocateOp : execOperator := 57.
Definition createFunctionOp : execOperator := 58.
Definition literalValuesOp : execOperator := 59.
Definition showCompletionsOp : execOperator := 60.
Definition callOp : execOperator := 61.
Definition createTriggerOp : execOperator := 62.
Definition vectorSearchOp : execOperator := 63.
Definition vectorMutationSearchOp : execOperator := 64.
Definition updateSwapOp : execOperator := 65.
Definition deleteSwapOp : execOperator := 66.

(** The values the decoder stores in [args] (Go's [interface{}]). *)
Inductive value : Type :=
| VInt (z : Z)
| VInt64 (z : Z)
| VString (s : string)
| VBool (b : bool).

(** A [*Node] is an [option Node]. *)
#[warnings="-register-all"]
Inductive Node : Type :=
  mkNode { op : execOperator;
           args : gmap string value;
           children : list (option Node) }.

Definition Node_setArg (k : string) (v : value) (n : Node) : Node :=
  mkNode (op n) (<[k := v]> (args n)) (children n).

Definition Node_appendChildren (cs : list (option Node)) (n : Node) : Node :=
  mkNode (op n) (args n) (children n ++ cs).

Definition gistVersion : Z := 1.

Definition TableLookupFunc : Type := Z -> string.
Definition IndexLookupFunc : Type := Z -> Z -> string.

(** [nodeStack] holds the nodes in the order of the Go slice: the top of the
    stack is the last element.  The only [append] to it (in [decodeOp])
    pushes a freshly allocated node, so the stack holds no [nil]. *)
Record planGistDecoder : Type :=
  { buf : list byte;
    nodeStack : list Node;
    TableLookupFn : option TableLookupFunc;
    IndexLookupFn : option IndexLookupFunc }.

Definition setBuf (r : list byte) (d : planGistDecoder) : planGistDecoder :=
  {| buf := r; nodeStack := nodeStack d;
     TableLookupFn := TableLookupFn d; IndexLookupFn := IndexLookupFn d |}.

Definition setNodeStack (s : list Node) (d : planGistDecoder) : planGistDecoder :=
  {| buf := buf d; nodeStack := s;
     TableLookupFn := TableLookupFn d; IndexLookupFn := IndexLookupFn d |}.

(** ** The decoder monad *)

Definition M (A : Type) : Type := planGistDecoder -> outcome (A * planGistDecoder).

#[global] Instance M_ret : MRet M := fun A a d => Ret (a, d).

#[global] Instance M_bind : MBind M := fun A B f c d =>
  match c d with
  | Ret (a, d') => f a d'
  | Panic msg => Panic msg
  | Diverge => Diverge
  end.

Definition panic {A : Type} (msg : string) : M A := fun _ => Panic msg.
Definition diverge {A : Type} : M A := fun _ => Diverge.
Definition getDecoder : M planGistDecoder := fun d => Ret (d, d).

(** ** The byte cursor

    A read that fails panics with [fmt.Sprintf("decode error: %v", err)].
    In [decodeInt] the conversion [int(val)] is the identity, [int] being
    64 bits wide. *)

Definition decodeInt : M Z := fun d =>
  match ReadVarint (buf d) with
  | ((val, Some err), r) =>
      Panic ("decode error: " +:+ ioError_Error err)
  | ((val, None), r) => Ret (val, setBuf r d)
  end.

Definition decodeByte : M byte := fun d =>
  match Reader_ReadByte (buf d) with
  | ((val, Some err), r) =>
      Panic ("decode error: " +:+ ioError_Error err)
  | ((val, None), r) => Ret (val, setBuf r d)
  end.

Definition decodeBool : M bool :=
  b ← decodeByte; mret (negb (byteZ b =? 0)).

Definition decodeID : M Z := decodeInt.

Definition decodeUvarint : M Z := fun d =>
  match ReadUvarint (buf d) with
  | ((val, Some err), r) =>
      Panic ("decode error: " +:+ ioError_Error err)
  | ((val, None), r) => Ret (val, setBuf r d)
  end.

(** ** Primitive field decoders *)

(** [fmt.Sprintf] with the verb [%d]. *)
Definition Sprint_int (z : Z) : string := NilZero.string_of_int (Z.to_int z).

Definition decodeTable : M (Z * string) :=
  id ← decodeID;
  d ← getDecoder;
  let name := "?"%string in
  let name :=
    match TableLookupFn d with
    | Some lookup =>
        let n := lookup id in if negb (String.eqb n "") then n else name
    | None => name
    end in
  mret (id, name).

Definition decodeIndex (tableID : Z) : M (Z * string) :=
  id ← decodeID;
  d ← getDecoder;
  let name := "?"%string in
  let name :=
    match IndexLookupFn d with
    | Some lookup =>
        let n := lookup tableID id in if negb (String.eqb n "") then n else name
    | None => name
    end in
  mret (id, name).

(** The loop of [decodeIntSet] over the [length] pairs.  Every iteration
    reads two varints, so it ends (with a value or a panic) before the fuel,
    which [decodeIntSet] takes from the number of unread bytes, is used up:
    see [decodeIntSet_converges]. *)
Fixpoint decodeIntSet_loop (fuel : nat) (i length : Z) : M unit :=
  match fuel with
  | O => diverge
  | S fuel' =>
      if i <? length then
        _ ← decodeUvarint;
        _ ← decodeUvarint;
        decodeIntSet_loop fuel' (u64 (i + 1)) length
      else mret tt
  end.

Definition decodeIntSet : M unit :=
  length ← decodeUvarint;
  if length =? 0 then
    _ ← decodeUvarint; mret tt
  else
    d ← getDecoder;
    decodeIntSet_loop (S (List.length (buf d))) 0 length.

Definition decodeScanParams : M (gmap string value) :=
  _ ← decodeIntSet;
  numSpans ← decodeInt;
  numInvertedSpans ← decodeInt;
  hardLimit ← decodeInt;
  let params : gmap string value := ∅ in
  let params :=
    if 0 <? numSpans then
      if numSpans =? 1 then <["spans" := VString "1 span"]> params
      else <["spans" := VString (Sprint_int numSpans +:+ " spans")]> params
    else params in
  let params :=
    if 0 <? numInvertedSpans
    then <["inverted_constraint" := VBool true]> params else params in
  let params :=
    if negb (hardLimit =? 0)
    then <["limit" := VString "limited"]> params else params in
  mret params.

(** A [[]int] that is only ever measured: [nil], or the slice of [l]
    zeroes that [make([]int, l)] allocates. *)
Inductive intSlice : Type := nilSlice | makeSlice (l : Z).

Definition len_intSlice (s : intSlice) : Z :=
  match s with nilSlice => 0 | makeSlice l => l end.

(** The most that the run-time allocates at once ([runtime.maxAlloc]): 2^48
    bytes on the 64-bit platforms (amd64, arm64). *)
Definition maxAlloc : Z := 2 ^ 48.

(** [make([]int, l)] ([runtime.makeslice]): a run-time panic when [l] is
    negative or when [l] elements of 8 bytes are more than [maxAlloc].  An
    allocation within this limit is taken to succeed: the memory of the
    machine is not modelled. *)
Definition make_intSlice (l : Z) : M intSlice :=
  if (l <? 0) || (maxAlloc <? 8 * l)
  then panic "runtime error: makeslice: len out of range"
  else mret (makeSlice l).

Definition decodeNodeColumnOrdinals : M intSlice :=
  l ← decodeInt;
  if l <? 0 then mret nilSlice else make_intSlice l.

Definition decodeResultColumns : M Z := decodeInt.

Definition joinTypes : list string :=
  ["inner"; "left outer"; "right outer"; "full outer";
   "semi"; "anti"; "intersect all"; "except all"]%string.

Definition decodeJoinType : M string :=
  jt ← decodeByte;
  if byteZ jt <? Z.of_nat (List.length joinTypes)
  then mret (nth (Z.to_nat (byteZ jt)) joinTypes ""%string)
  else mret ("join type " +:+ Sprint_int (byteZ jt)).

Definition decodeRows : M Z := decodeInt.

Definition popChild : M (option Node) := fun d =>
  let l := List.length (nodeStack d) in
  if (l =? 0)%nat then Ret (None, d)
  else
    let n := nodeStack d !! (l - 1)%nat in
    Ret (n, setNodeStack (take (l - 1)%nat (nodeStack d)) d).

(** ** The operator body decoder *)

(** The errors [DecodePlanGist] builds with [fmt.Errorf]. *)
Inductive error : Type :=
| Base64DecodeError (e : base64Error)
| UnsupportedVersion (ver : Z).

Definition error_Error (e : error) : string :=
  match e with
  | Base64DecodeError (CorruptInputError offset) =>
      "base64 decode error: illegal base64 data at input byte "
      +:+ Sprint_int offset
  | UnsupportedVersion ver =>
      "unsupported gist version " +:+ Sprint_int ver +:+
      " (expected " +:+ Sprint_int gistVersion +:+ ")"
  end.

(** [n.children = append(n.children, d.popChild())] *)
Definition appendPopChild (n : Node) : M Node :=
  c ← popChild; mret (Node_appendChildren [c] n).

(** [right := d.popChild(); left := d.popChild();
     n.children = append(n.children, left, right)] *)
Definition appendLeftRight (n : Node) : M Node :=
  right ← popChild;
  left ← popChild;
  mret (Node_appendChildren [left; right] n).

Definition decodeOperatorBody (o : execOperator) : M (Node * option error) :=
  let n := mkNode o ∅ [] in
  if o =? scanOp then
    '(tableID, tableName) ← decodeTable;
    '(indexID, indexName) ← decodeIndex tableID;
    params ← decodeScanParams;
    let n := Node_setArg "table" (VString tableName) n in
    let n := Node_setArg "index" (VString indexName) n in
    let n := Node_setArg "table_id" (VInt64 tableID) n in
    let n := Node_setArg "index_id" (VInt64 indexID) n in
    let n := mkNode (op n) (params ∪ args n) (children n) in
    mret (n, None)
  else if o =? valuesOp then
    numRows ← decodeRows;
    numCols ← decodeResultColumns;
    let n := Node_setArg "rows" (VInt numRows) n in
    let n := Node_setArg "columns" (VInt numCols) n in
    mret (n, None)
  else if o =? filterOp then
    n ← appendPopChild n; mret (n, None)
  else if o =? invertedFilterOp then
    n ← appendPopChild n; mret (n, None)
  else if (o =? simpleProjectOp) || (o =? serializingProjectOp) then
    _ ← decodeNodeColumnOrdinals;
    n ← appendPopChild n; mret (n, None)
  else if o =? renderOp then
    numCols ← decodeResultColumns;
    let n := Node_setArg "columns" (VInt numCols) n in
    n ← appendPopChild n; mret (n, None)
  else if o =? hashJoinOp then
    joinType ← decodeJoinType;
    leftEqCols ← decodeNodeColumnOrdinals;
    rightEqCols ← decodeNodeColumnOrdinals;
    leftKey ← decodeBool;
    rightKey ← decodeBool;
    let n := Node_setArg "type" (VString joinType) n in
    let n := Node_setArg "left_eq_cols" (VInt (len_intSlice leftEqCols)) n in
    let n := Node_setArg "right_eq_cols" (VInt (len_intSlice rightEqCols)) n in
    let n := if (leftKey : bool) then Node_setArg "left_key" (VBool true) n else n in
    let n := if (rightKey : bool) then Node_setArg "right_key" (VBool true) n else n in
    n ← appendLeftRight n; mret (n, None)
  else if o =? mergeJoinOp then
    joinType ← decodeJoinType;
    _ ← decodeBool;
    _ ← decodeBool;
    let n := Node_setArg "type" (VString joinType) n in
    n ← appendLeftRight n; mret (n, None)
  else if o =? groupByOp then
    _ ← decodeNodeColumnOrdinals;
    n ← appendPopChild n; mret (n, None)
  else if o =? scalarGroupByOp then
    n ← appendPopChild n; mret (n, None)
  else if o =? distinctOp then
    n ← appendPopChild n; mret (n, None)
  else if o =? sortOp then
    n ← appendPopChild n; mret (n, None)
  else if o =? limitOp then
    n ← appendPopChild n; mret (n, None)
  else if o =? topKOp then
    k ← decodeInt;
    let n := Node_setArg "k" (VInt k) n in
    n ← appendPopChild n; mret (n, None)
  else if o =? indexJoinOp then
    '(tableID, tableName) ← decodeTable;
    _ ← decodeNodeColumnOrdinals;
    let n := Node_setArg "table" (VString tableName) n in
    let n := Node_setArg "table_id" (VInt64 tableID) n in
    n ← appendPopChild n; mret (n, None)
  else if o =? lookupJoinOp then
    joinType ← decodeJoinType;
    '(tableID, tableName) ← decodeTable;
    '(_, indexName) ← decodeIndex tableID;
    _ ← decodeNodeColumnOrdinals;
    _ ← decodeBool;
    let n := Node_setArg "type" (VString joinType) n in
    let n := Node_setArg "table" (VString tableName) n in
    let n := Node_setArg "index" (VString indexName) n in
    n ← appendPopChild n; mret (n, None)
  else if o =? invertedJoinOp then
    joinType ← decodeJoinType;
    '(tableID, tableName) ← decodeTable;
    '(_, indexName) ← decodeIndex tableID;
    _ ← decodeNodeColumnOrdinals;
    let n := Node_setArg "type" (VString joinType) n in
    let n := Node_setArg "table" (VString tableName) n in
    let n := Node_setArg "index" (VString indexName) n in
    n ← appendPopChild n; mret (n, None)
  else if (o =? unionAllOp) || (o =? hashSetOpOp) || (o =? streamingSetOpOp) then
    n ← appendLeftRight n; mret (n, None)
  else if o =? insertOp then
    '(tableID, tableName) ← decodeTable;
    _ ← decodeIntSet;
    _ ← decodeIntSet;
    _ ← decodeIntSet;
    _ ← decodeBool;
    let n := Node_setArg "table" (VString tableName) n in
    let n := Node_setArg "table_id" (VInt64 tableID) n in
    n ← appendPopChild n; mret (n, None)
  else if o =? updateOp then
    '(tableID, tableName) ← decodeTable;
    let n := Node_setArg "table" (VString tableName) n in
    let n := Node_setArg "table_id" (VInt64 tableID) n in
    n ← appendPopChild n; mret (n, None)
  else if o =? deleteOp then
    '(tableID, tableName) ← decodeTable;
    _ ← decodeIntSet;
    _ ← decodeIntSet;
    _ ← decodeBool;
    let n := Node_setArg "table" (VString tableName) n in
    let n := Node_setArg "table_id" (VInt64 tableID) n in
    n ← appendPopChild n; mret (n, None)
  else if o =? upsertOp then
    '(tableID, tableName) ← decodeTable;
    _ ← decodeIntSet;
    _ ← decodeIntSet;
    _ ← decodeIntSet;
    _ ← decodeIntSet;
    _ ← decodeIntSet;
    _ ← decodeBool;
    let n := Node_setArg "table" (VString tableName) n in
    let n := Node_setArg "table_id" (VInt64 tableID) n in
    n ← appendPopChild n; mret (n, None)
  else if o =? errorIfRowsOp then
    n ← appendPopChild n; mret (n, None)
  else
    d ← getDecoder;
    if (0 <? List.length (nodeStack d))%nat then
      n ← appendPopChild n; mret (n, None)
    else mret (n, None).

(** ** The plan stack machine *)

Definition decodeOp : M execOperator := fun d =>
  match Reader_ReadByte (buf d) with
  | ((val, err), r) =>
      if bool_decide (err <> None) || (byteZ val =? 0)
      then Ret (unknownOp, setBuf r d)
      else
        (r ← decodeOperatorBody (byteZ val);
         match r with
         | (n, Some err) => panic (error_Error err)
         | (n, None) =>
             fun d' => Ret (op n, setNodeStack (nodeStack d' ++ [n]) d')
         end) (setBuf r d)
  end.

(** The [for] loop of [DecodePlanGist].  Every iteration reads an operator
    byte or stops, so it ends before the fuel, which [decodeBuffer] takes
    from the number of unread bytes, is used up: see
    [DecodePlanGist_converges]. *)
Fixpoint DecodePlanGist_loop (fuel : nat) (checks : list (option Node))
  : M (list (option Node)) :=
  match fuel with
  | O => diverge
  | S fuel' =>
      op ← decodeOp;
      if op =? unknownOp then mret checks
      else if op =? errorIfRowsOp then
        c ← popChild;
        DecodePlanGist_loop fuel' (checks ++ [c])
      else DecodePlanGist_loop fuel' checks
  end.

(** [DecodePlanGist] from the version on, as a computation on the decoder
    [d] that [DecodePlanGist] has set up. *)
Definition decodeBuffer : M (option Node * option error) :=
  ver ← decodeInt;
  if negb (ver =? gistVersion) then mret (None, Some (UnsupportedVersion ver))
  else
    d ← getDecoder;
    checks ← DecodePlanGist_loop (S (List.length (buf d))) [];
    root ← popChild;
    if (0 <? List.length checks)%nat then
      let wrapper :=
        mkNode unknownOp
          {[ "checks"%string := VInt (Z.of_nat (List.length checks)) ]}
          ([root] ++ checks) in
      mret (Some wrapper, None)
    else mret (root, None).

Definition newDecoder (b : list byte) (tableLookup : option TableLookupFunc)
    (indexLookup : option IndexLookupFunc) : planGistDecoder :=
  {| buf := b; nodeStack := [];
     TableLookupFn := tableLookup; IndexLookupFn := indexLookup |}.

Definition DecodePlanGist (gist : string) (tableLookup : option TableLookupFunc)
    (indexLookup : option IndexLookupFunc) : outcome (option Node * option error) :=
  match base64_DecodeString gist with
  | inr err => Ret (None, Some (Base64DecodeError err))
  | inl b =>
      match decodeBuffer (newDecoder b tableLookup indexLookup) with
      | Ret (r, _) => Ret r
      | Panic msg => Panic msg
      | Diverge => Diverge
      end
  end.

(** ** Packages [strings] and [fmt] of the Go standard library, as far as
    the formatter uses them *)

#[global] Instance outcome_ret : MRet outcome := fun A a => Ret a.

#[global] Instance outcome_bind : MBind outcome := fun A B f c =>
  match c with
  | Ret a => f a
  | Panic msg => Panic msg
  | Diverge => Diverge
  end.

Definition newline : ascii := ascii_of_nat 10.
Definition nl : string := String newline EmptyString.

Fixpoint strings_Contains (s substr : string) : bool :=
  String.prefix substr s ||
  match s with
  | EmptyString => false
  | String _ s' => strings_Contains s' substr
  end.

(** [unicode.IsSpace] on the ASCII range; [strings_Fields] below is
    [strings.Fields] for a string of ASCII bytes, which is what the formatter
    applies it to. *)
Definition isSpace (c : ascii) : bool :=
  let n := Z.of_N (N_of_ascii c) in ((9 <=? n) && (n <=? 13)) || (n =? 32).

Fixpoint strings_Fields_aux (s : string) : string * list string :=
  match s with
  | EmptyString => (EmptyString, [])
  | String c s' =>
      let '(tok, toks) := strings_Fields_aux s' in
      if isSpace c
      then (EmptyString, if String.eqb tok "" then toks else tok :: toks)
      else (String c tok, toks)
  end.

Definition strings_Fields (s : string) : list string :=
  let '(tok, toks) := strings_Fields_aux s in
  if String.eqb tok "" then toks else tok :: toks.

(** [strings.Split] with a separator of one byte. *)
Fixpoint strings_Split (s : string) (sep : ascii) : list string :=
  match s with
  | EmptyString => [EmptyString]
  | String c s' =>
      if Ascii.eqb c sep then EmptyString :: strings_Split s' sep
      else
        match strings_Split s' sep with
        | h :: t => String c h :: t
        | [] => [String c EmptyString]
        end
  end.

(** [strings.TrimSuffix] with a suffix of one byte. *)
Fixpoint strings_TrimSuffix (s : string) (suffix : ascii) : string :=
  match s with
  | EmptyString => EmptyString
  | String c s' =>
      if String.eqb s' "" && Ascii.eqb c suffix then EmptyString
      else String c (strings_TrimSuffix s' suffix)
  end.

(** [strings.TrimRight] with a cutset of one byte. *)
Fixpoint strings_TrimRight (s : string) (cutset : ascii) : string :=
  match s with
  | EmptyString => EmptyString
  | String c s' =>
      let t := strings_TrimRight s' cutset in
      if String.eqb t "" && Ascii.eqb c cutset then EmptyString else String c t
  end.

Definition Sprint_bool (b : bool) : string := if b then "true" else "false".

(** [fmt.Sprint(v)] and the verb [%v]; [None] is the [nil] interface that
    reading a missing key of [args] yields. *)
Definition Sprint (v : option value) : string :=
  match v with
  | None => "<nil>"
  | Some (VInt z) => Sprint_int z
  | Some (VInt64 z) => Sprint_int z
  | Some (VString s) => s
  | Some (VBool b) => Sprint_bool b
  end.

(** The verb [%s]: a value that is not a string is printed as a bad verb. *)
Definition Sprint_s (v : option value) : string :=
  match v with
  | None => "%!s(<nil>)"
  | Some (VInt z) => "%!s(int=" +:+ Sprint_int z +:+ ")"
  | Some (VInt64 z) => "%!s(int64=" +:+ Sprint_int z +:+ ")"
  | Some (VString s) => s
  | Some (VBool b) => "%!s(bool=" +:+ Sprint_bool b +:+ ")"
  end.

(** [parts[0]] *)
Definition index0 (parts : list string) : outcome string :=
  match parts with
  | p :: _ => Ret p
  | [] => Panic "runtime error: index out of range [0] with length 0"
  end.

(** ** The tree formatter *)

Definition opNames : gmap Z string :=
  list_to_map
    [(scanOp, "scan"); (valuesOp, "values"); (filterOp, "filter");
     (invertedFilterOp, "inverted filter"); (simpleProjectOp, "simple project");
     (serializingProjectOp, "serializing project"); (renderOp, "render");
     (applyJoinOp, "apply join"); (hashJoinOp, "hash join");
     (mergeJoinOp, "merge join"); (groupByOp, "group by");
     (scalarGroupByOp, "scalar group by"); (distinctOp, "distinct");
     (hashSetOpOp, "hash set op"); (streamingSetOpOp, "streaming set op");
     (unionAllOp, "union all"); (sortOp, "sort"); (ordinalityOp, "ordinality");
     (indexJoinOp, "index join"); (lookupJoinOp, "lookup join");
     (invertedJoinOp, "inverted join"); (zigzagJoinOp, "zigzag join");
     (limitOp, "limit"); (topKOp, "top-k"); (max1RowOp, "max1row");
     (projectSetOp, "project set"); (windowOp, "window"); (insertOp, "insert");
     (updateOp, "update"); (upsertOp, "upsert"); (deleteOp, "delete");
     (deleteRangeOp, "delete range"); (errorIfRowsOp, "error if rows");
     (bufferOp, "buffer"); (scanBufferOp, "scan buffer");
     (recursiveCTEOp, "recursive cte")]%string.

(** The attribute lines of a node: the chain of [if n.op == ...] of
    [formatNode]. *)
Definition formatAttrs (n : Node) (attrPrefix : string) : outcome string :=
  let hasChildren := (0 <? List.length (children n))%nat in
  if op n =? scanOp then
    let table := args n !! "table"%string in
    let index := args n !! "index"%string in
    let sb := attrPrefix +:+ "table: " +:+ Sprint_s table +:+ "@" +:+ Sprint_s index +:+ nl in
    sb ← match args n !! "spans"%string with
         | Some spans =>
             if strings_Contains (Sprint (Some spans)) " " then
               let parts := strings_Fields (Sprint (Some spans)) in
               p ← index0 parts;
               mret (sb +:+ attrPrefix +:+ "spans: " +:+ p +:+ "+ spans" +:+ nl)
             else
               mret (sb +:+ attrPrefix +:+ "spans: " +:+ Sprint (Some spans) +:+ nl)
         | None => mret (sb +:+ attrPrefix +:+ "spans: FULL SCAN" +:+ nl)
         end;
    match args n !! "limit"%string with
    | Some limit => mret (sb +:+ attrPrefix +:+ "limit: " +:+ Sprint (Some limit) +:+ nl)
    | None => mret sb
    end
  else if (op n =? hashJoinOp) || (op n =? mergeJoinOp) || (op n =? lookupJoinOp) then
    let sb := ""%string in
    let sb := match args n !! "type"%string with
              | Some jt => sb +:+ attrPrefix +:+ "type: " +:+ Sprint (Some jt) +:+ nl
              | None => sb
              end in
    let sb := match args n !! "table"%string with
              | Some table =>
                  let index := args n !! "index"%string in
                  sb +:+ attrPrefix +:+ "table: " +:+ Sprint_s (Some table) +:+ "@"
                     +:+ Sprint_s index +:+ nl
              | None => sb
              end in
    let sb := match args n !! "left_eq_cols"%string with
              | Some leftCols =>
                  sb +:+ attrPrefix +:+ "equality cols: " +:+ Sprint (Some leftCols) +:+ nl
              | None => sb
              end in
    mret sb
  else if op n =? indexJoinOp then
    match args n !! "table"%string with
    | Some table => mret (attrPrefix +:+ "table: " +:+ Sprint_s (Some table) +:+ nl)
    | None => mret ""%string
    end
  else if op n =? valuesOp then
    match args n !! "rows"%string with
    | Some rows =>
        mret (attrPrefix +:+ "size: " +:+ Sprint (args n !! "columns"%string)
              +:+ " columns, " +:+ Sprint (Some rows) +:+ " rows" +:+ nl)
    | None => mret ""%string
    end
  else if op n =? topKOp then
    match args n !! "k"%string with
    | Some k => mret (attrPrefix +:+ "k: " +:+ Sprint (Some k) +:+ nl)
    | None => mret ""%string
    end
  else if (op n =? insertOp) || (op n =? updateOp) || (op n =? deleteOp)
          || (op n =? upsertOp) then
    let sb := ""%string in
    let sb := match args n !! "table"%string with
              | Some table => sb +:+ attrPrefix +:+ "table: " +:+ Sprint_s (Some table) +:+ nl
              | None => sb
              end in
    let sb := if op n =? updateOp then sb +:+ attrPrefix +:+ "set" +:+ nl else sb in
    let sb := if hasChildren
              then sb +:+ strings_TrimRight attrPrefix " " +:+ nl else sb in
    mret sb
  else if op n =? renderOp then
    if hasChildren then mret (strings_TrimRight attrPrefix " " +:+ nl)
    else mret ""%string
  else mret ""%string.

(** The inner loop of [formatNode] over the lines of a child's output. *)
Fixpoint formatChildLines (lines : list string) (j : nat) (childPrefix : string)
  : string :=
  match lines with
  | [] => ""
  | line :: lines' =>
      (if (j =? 0)%nat then line +:+ nl else childPrefix +:+ line +:+ nl)
      +:+ formatChildLines lines' (S j) childPrefix
  end.

(** [formatNode] on a node that is not [nil]. *)
Fixpoint formatNode_node (n : Node) (prefix : string) (isLast : bool)
  {struct n} : outcome string :=
  match n with
  | mkNode o a cs =>
      if (o =? simpleProjectOp) || (o =? serializingProjectOp) then
        match cs with
        | Some c :: _ => formatNode_node c prefix isLast
        | None :: _ => mret ""%string
        | [] => mret ""%string
        end
      else
        let opName := default ""%string (opNames !! o) in
        let opName := if String.eqb opName "" then "op_" +:+ Sprint_int o else opName in
        let sb := "• " +:+ opName +:+ nl in
        let attrPrefix := if (0 <? List.length cs)%nat then "│ "%string else "  "%string in
        attrs ← formatAttrs n attrPrefix;
        let sb := sb +:+ attrs in
        (fix formatChildren (rest : list (option Node)) (i : nat) (sb : string)
           {struct rest} : outcome string :=
           match rest with
           | [] => mret sb
           | child :: rest' =>
               let childIsLast := (i =? List.length cs - 1)%nat in
               let connector := if childIsLast then "└── "%string else "├── "%string in
               let childPrefix := if childIsLast then "    "%string else "│   "%string in
               let sb := sb +:+ connector in
               childStr ← match child with
                          | Some c => formatNode_node c childPrefix childIsLast
                          | None => mret ""%string
                          end;
               let lines := strings_Split (strings_TrimSuffix childStr newline) newline in
               formatChildren rest' (S i) (sb +:+ formatChildLines lines 0 childPrefix)
           end) cs 0%nat sb
  end.

Definition formatNode (n : option Node) (prefix : string) (isLast : bool)
  : outcome string :=
  match n with
  | None => mret ""%string
  | Some n => formatNode_node n prefix isLast
  end.

Fixpoint FormatPlan_lines (lines : list string) : string :=
  match lines with
  | [] => ""
  | line :: lines' => "  " +:+ line +:+ nl +:+ FormatPlan_lines lines'
  end.

Definition FormatPlan (n : option Node) : outcome string :=
  match n with
  | None => mret ""%string
  | Some _ =>
      output ← formatNode n "" true;
      let lines := strings_Split (strings_TrimSuffix output newline) newline in
      mret (FormatPlan_lines lines)
  end.

(** ** Definitions used to state the properties *)

(** The zig-zag map from the unsigned value of a varint to the signed one. *)
Definition zigzag (u : Z) : Z :=
  if Z.even u then u / 2 else - ((u + 1) / 2).

(** The message of a panic raised by a failed read of the byte cursor. *)
Definition decodeError (msg : string) : Prop :=
  exists err : ioError, msg = ("decode error: " +:+ ioError_Error err)%string.

(** [safe c]: [c] does not run out of fuel, and it panics only with a
    decode error. *)
Definition safe {A : Type} (c : M A) : Prop :=
  forall d,
    match c d with
    | Ret _ => True
    | Panic msg => decodeError msg
    | Diverge => False
    end.

(** The message of the panic of [make] on a length that is out of range. *)
Definition makesliceError (msg : string) : Prop :=
  msg = "runtime error: makeslice: len out of range"%string.

(** [checked c]: [c] does not run out of fuel, and it panics only with a
    decode error or with the run-time error of [make]. *)
Definition checked {A : Type} (c : M A) : Prop :=
  forall d,
    match c d with
    | Ret _ => True
    | Panic msg => decodeError msg \/ makesliceError msg
    | Diverge => False
    end.

(** [reader c]: when [c] returns it has changed nothing but the cursor, which
    has not moved backwards. *)
Definition reader {A : Type} (c : M A) : Prop :=
  forall d a d',
    c d = Ret (a, d') ->
    d' = setBuf (buf d') d /\ (length (buf d') <= length (buf d))%nat.

(** [consumes c]: when [c] returns it has read at least one byte. *)
Definition consumes {A : Type} (c : M A) : Prop :=
  forall d a d', c d = Ret (a, d') -> (length (buf d') < length (buf d))%nat.

(** The number of children the body decode of an operator declares: the
    number of [popChild] calls in its case of [decodeOperatorBody]; [None]
    for an operator that has no case of its own. *)
Definition declaredChildren (o : execOperator) : option nat :=
  if (o =? scanOp) || (o =? valuesOp) then Some 0%nat
  else if (o =? hashJoinOp) || (o =? mergeJoinOp) || (o =? unionAllOp)
          || (o =? hashSetOpOp) || (o =? streamingSetOpOp) then Some 2%nat
  else if (o =? filterOp) || (o =? invertedFilterOp) || (o =? simpleProjectOp)
          || (o =? serializingProjectOp) || (o =? renderOp) || (o =? groupByOp)
          || (o =? scalarGroupByOp) || (o =? distinctOp) || (o =? sortOp)
          || (o =? limitOp) || (o =? topKOp) || (o =? indexJoinOp)
          || (o =? lookupJoinOp) || (o =? invertedJoinOp) || (o =? insertOp)
          || (o =? updateOp) || (o =? deleteOp) || (o =? upsertOp)
          || (o =? errorIfRowsOp) then Some 1%nat
  else None.

(** The number of [popChild] calls of the body decode of [o] on the stack
    [s]: an operator without a case pops one child if there is one. *)
Definition childrenPopped (o : execOperator) (s : list Node) : nat :=
  match declaredChildren o with
  | Some k => k
  | None => if (0 <? length s)%nat then 1%nat else 0%nat
  end.

(** The children that [k] calls of [popChild] attach, in the order of
    [n.children], and the stack they leave. *)
Definition popChildren (k : nat) (s : list Node) : list (option Node) * list Node :=
  match k with
  | O => ([], s)
  | S O => ([last s], removelast s)
  | _ => ([last (removelast s); last s], removelast (removelast s))
  end.

(** [containsCheck n]: the tree [n] holds a node of the error-if-rows
    operator. *)
Fixpoint containsCheck (n : Node) : bool :=
  match n with
  | mkNode o _ cs =>
      (o =? errorIfRowsOp) ||
      (fix inChildren (cs : list (option Node)) : bool :=
         match cs with
         | [] => false
         | Some c :: cs' => containsCheck c || inChildren cs'
         | None :: cs' => inChildren cs'
         end) cs
  end.

(** No child in [cs] holds a node of the error-if-rows operator. *)
Definition childrenCheckFree (cs : list (option Node)) : Prop :=
  forall c, In (Some c) cs -> containsCheck c = false.

(** [c] is a check: a node of the error-if-rows operator, none below it. *)
Definition isCheck (c : option Node) : Prop :=
  exists n, c = Some n /\ op n = errorIfRowsOp /\ childrenCheckFree (children n).

(** The value [DecodePlanGist] returns for the checks collected and the
    stack left by the loop. *)
Definition assembleResult (checks : list (option Node)) (stack : list Node)
  : option Node :=
  if (0 <? length checks)%nat then
    Some (mkNode unknownOp
            {[ "checks"%string := VInt (Z.of_nat (length checks)) ]}
            ([last stack] ++ checks))
  else last stack.

(** The root of the plan in the value [DecodePlanGist] returns: the value
    itself, or the first child of the wrapper when checks were collected. *)
Definition returnedRoot (checks : list (option Node)) (res : option Node)
  : option Node :=
  if (0 <? length checks)%nat then
    match res with
    | Some wrapper => match children wrapper with c :: _ => c | [] => None end
    | None => None
    end
  else res.

(** The operators whose body decode pops two children. *)
Definition binaryOperators : list execOperator :=
  [hashJoinOp; mergeJoinOp; unionAllOp; hashSetOpOp; streamingSetOpOp].

(** The body decode of a mutation operator as the specification words it: a
    table id, [k] integer-sets, an auto-commit boolean, and one child. *)
Fixpoint decodeIntSets (k : nat) : M unit :=
  match k with
  | O => mret tt
  | S k' => _ ← decodeIntSet; decodeIntSets k'
  end.

Definition mutationBody_spec (k : nat) (o : execOperator) : M (Node * option error) :=
  let n := mkNode o ∅ [] in
  '(tableID, tableName) ← decodeTable;
  _ ← decodeIntSets k;
  _ ← decodeBool;
  let n := Node_setArg "table" (VString tableName) n in
  let n := Node_setArg "table_id" (VInt64 tableID) n in
  n ← appendPopChild n; mret (n, None).

(** The body decode of the update operator as the code has it: a table id
    and one child. *)
Definition updateBody : M (Node * option error) :=
  let n := mkNode updateOp ∅ [] in
  '(tableID, tableName) ← decodeTable;
  let n := Node_setArg "table" (VString tableName) n in
  let n := Node_setArg "table_id" (VInt64 tableID) n in
  n ← appendPopChild n; mret (n, None).

(** The attributes that [decodeScanParams] builds from the three integers
    it reads after the needed columns. *)
Definition scanParams (numSpans numInvertedSpans hardLimit : Z) : gmap string value :=
  let params : gmap string value := ∅ in
  let params :=
    if 0 <? numSpans then
      if numSpans =? 1 then <["spans" := VString "1 span"]> params
      else <["spans" := VString (Sprint_int numSpans +:+ " spans")]> params
    else params in
  let params :=
    if 0 <? numInvertedSpans
    then <["inverted_constraint" := VBool true]> params else params in
  let params :=
    if negb (hardLimit =? 0)
    then <["limit" := VString "limited"]> params else params in
  params.

(** The representation of the number of spans in the attribute [spans]. *)
Definition spansAttr (numSpans : Z) : string :=
  if numSpans =? 1 then "1 span" else Sprint_int numSpans +:+ " spans".

(** No byte of [s] is white space. *)
Fixpoint noSpace (s : string) : Prop :=
  match s with
  | EmptyString => True
  | String c s' => isSpace c = false /\ noSpace s'
  end.

(** The decoder [d] with the bytes [ext] added at the end of its buffer. *)
Definition extend (ext : list byte) (d : planGistDecoder) : planGistDecoder :=
  setBuf (buf d ++ ext) d.

(** [stable c]: when [c] returns, bytes added at the end of the buffer do not
    change what it returns and are left unread. *)
Definition stable {A : Type} (c : M A) : Prop :=
  forall d a d' ext,
    c d = Ret (a, d') -> c (extend ext d) = Ret (a, extend ext d').

(** [stackBlind c]: [c] neither looks at the stack nor changes it. *)
Definition stackBlind {A : Type} (c : M A) : Prop :=
  forall d s,
    c (setNodeStack s d)
    = match c d with
      | Ret (a, d') => Ret (a, setNodeStack s d')
      | Panic msg => Panic msg
      | Diverge => Diverge
      end.

(** [pops k c]: [c] builds a node without looking at the stack, and then
    gives it the children that [k] calls of [popChild] attach. *)
Definition pops (k : nat) (c : M (Node * option error)) : Prop :=
  forall d s,
    c (setNodeStack s d)
    = match c d with
      | Ret ((n, e), d') =>
          Ret ((mkNode (op n) (args n) (fst (popChildren k s)), e),
               setNodeStack (snd (popChildren k s)) d')
      | Panic msg => Panic msg
      | Diverge => Diverge
      end.

(** The message of the panic of a read that finds the buffer exhausted:
    before the first byte of a field, or inside a varint. *)
Definition eofError (msg : string) : Prop :=
  msg = ("decode error: " +:+ ioError_Error EOF)%string \/
  msg = ("decode error: " +:+ ioError_Error ErrUnexpectedEOF)%string.

(** [truncates c]: a run of [c] that returns on a buffer followed by the
    bytes [q] never gives bytes back; either it has read bytes of the
    buffer only, and then [c] returns the same on the buffer without [q],
    or it has read into [q], and then on the buffer without [q] the read
    that crosses the end of the buffer panics. *)
Definition truncates {A : Type} (c : M A) : Prop :=
  forall d q a d',
    c (extend q d) = Ret (a, d') ->
    (length (buf d') <= length (buf d ++ q))%nat /\
    ((exists d'', d' = extend q d'' /\ c d = Ret (a, d'')) \/
     ((length (buf d') < length q)%nat /\
      exists msg, eofError msg /\ c d = Panic msg)).

(** [loopReaches checks d checks' d']: the loop of [DecodePlanGist], entered
    with the checks [checks] and the decoder [d], comes to the head of an
    iteration with [checks'] and [d'], after the operators decoded by the
    iterations before. *)
Inductive loopReaches
  : list (option Node) -> planGistDecoder ->
    list (option Node) -> planGistDecoder -> Prop :=
| loopReaches_here checks d : loopReaches checks d checks d
| loopReaches_op checks d o d1 checks' d' :
    decodeOp d = Ret (o, d1) -> o <> unknownOp -> o <> errorIfRowsOp ->
    loopReaches checks d1 checks' d' ->
    loopReaches checks d checks' d'
| loopReaches_check checks d d1 c d2 checks' d' :
    decodeOp d = Ret (errorIfRowsOp, d1) -> popChild d1 = Ret (c, d2) ->
    loopReaches (checks ++ [c]) d2 checks' d' ->
    loopReaches checks d checks' d'.

(** ** Definitions used to state further properties of the code *)

(** [allNodes P n]: [P] holds of [n] and of every node below it. *)
Fixpoint allNodes (P : Node -> Prop) (n : Node) : Prop :=
  match n with
  | mkNode o a cs =>
      P (mkNode o a cs) /\
      (fix below (cs : list (option Node)) : Prop :=
         match cs with
         | [] => True
         | Some c :: cs' => allNodes P c /\ below cs'
         | None :: cs' => below cs'
         end) cs
  end.

(** The loop of [formatNode] over the children [rest] of a node of [total]
    children, [i] being the index of the first of them and [sb] the text
    built so far; [fmt] is [formatNode] on a node that is not nil. *)
Fixpoint formatChildren (fmt : Node -> string -> bool -> outcome string)
    (total : nat) (rest : list (option Node)) (i : nat) (sb : string)
  {struct rest} : outcome string :=
  match rest with
  | [] => mret sb
  | child :: rest' =>
      let childIsLast := (i =? total - 1)%nat in
      let connector := if childIsLast then "└── "%string else "├── "%string in
      let childPrefix := if childIsLast then "    "%string else "│   "%string in
      let sb := sb +:+ connector in
      childStr ← match child with
                 | Some c => fmt c childPrefix childIsLast
                 | None => mret ""%string
                 end;
      let lines := strings_Split (strings_TrimSuffix childStr newline) newline in
      formatChildren fmt total rest' (S i) (sb +:+ formatChildLines lines 0 childPrefix)
  end.

(** The condition under which [formatNode] can print the attribute [spans]
    of a scan node: when its text holds a space, it holds a token. *)
Definition spansPrintable (n : Node) : Prop :=
  op n = scanOp ->
  forall v, args n !! "spans"%string = Some v ->
            strings_Contains (Sprint (Some v)) " " = true ->
            strings_Fields (Sprint (Some v)) <> [].

(** The display name of a table and of an index under the lookup functions
    of the caller: the name that [decodeTable] and [decodeIndex] compute. *)
Definition tableName (lookup : option TableLookupFunc) (id : Z) : string :=
  match lookup with
  | Some f => if negb (String.eqb (f id) "") then f id else "?"%string
  | None => "?"%string
  end.

Definition indexName (lookup : option IndexLookupFunc) (tableID id : Z) : string :=
  match lookup with
  | Some f => if negb (String.eqb (f tableID id) "") then f tableID id else "?"%string
  | None => "?"%string
  end.

(** Two decoders on the same bytes and the same stack whose lookup functions
    give the same display names. *)
Definition sameNames (d1 d2 : planGistDecoder) : Prop :=
  buf d1 = buf d2 /\ nodeStack d1 = nodeStack d2 /\
  (forall id, tableName (TableLookupFn d1) id = tableName (TableLookupFn d2) id) /\
  (forall t id, indexName (IndexLookupFn d1) t id = indexName (IndexLookupFn d2) t id).

(** [related c1 c2]: on such decoders [c1] and [c2] end the same way, with
    the same value, and leave such decoders. *)
Definition related {A : Type} (c1 c2 : M A) : Prop :=
  forall d1 d2,
    sameNames d1 d2 ->
    match c1 d1, c2 d2 with
    | Ret (a1, d1'), Ret (a2, d2') => a1 = a2 /\ sameNames d1' d2'
    | Panic m1, Panic m2 => m1 = m2
    | Diverge, Diverge => True
    | _, _ => False
    end.

(** The attributes that the body decode of an operator always sets, and
    those it sets on a condition, read off [decodeOperatorBody] and
    [decodeScanParams]. *)
Definition requiredAttrs (o : execOperator) : list string :=
  if o =? scanOp then ["table"; "index"; "table_id"; "index_id"]%string
  else if o =? valuesOp then ["rows"; "columns"]%string
  else if o =? renderOp then ["columns"]%string
  else if o =? hashJoinOp then ["type"; "left_eq_cols"; "right_eq_cols"]%string
  else if o =? mergeJoinOp then ["type"]%string
  else if o =? topKOp then ["k"]%string
  else if o =? indexJoinOp then ["table"; "table_id"]%string
  else if (o =? lookupJoinOp) || (o =? invertedJoinOp)
  then ["type"; "table"; "index"]%string
  else if (o =? insertOp) || (o =? updateOp) || (o =? deleteOp) || (o =? upsertOp)
  then ["table"; "table_id"]%string
  else [].

Definition optionalAttrs (o : execOperator) : list string :=
  if o =? scanOp then ["spans"; "inverted_constraint"; "limit"]%string
  else if o =? hashJoinOp then ["left_key"; "right_key"]%string
  else [].

(** * Properties *)

(** ** Bytes and bit arithmetic *)

Lemma byteZ_range (b : byte) : 0 <= byteZ b < 256.
Proof.
  unfold byteZ. pose proof (Byte.to_N_bounded b). lia.
Qed.

Lemma byteZ_zByte (z : Z) : byteZ (zByte z) = z mod 256.
Proof.
  unfold byteZ, zByte.
  pose proof (Z.mod_pos_bound z 256 ltac:(lia)) as Hz.
  destruct (Byte.of_N (Z.to_N (z mod 256))) as [b|] eqn:E.
  - apply Byte.to_of_N in E. rewrite E. lia.
  - apply Byte.of_N_None_iff in E. lia.
Qed.

Lemma testbit_above (a n k : Z) :
  0 <= a < 2 ^ n -> n <= k -> Z.testbit a k = false.
Proof.
  intros Ha Hk.
  destruct (Z.eq_dec a 0) as [->|Hne]; [apply Z.bits_0|].
  apply Z.bits_above_log2; [lia|].
  assert (Z.log2 a < n); [|lia].
  apply Z.log2_lt_pow2; lia.
Qed.

Lemma land_shiftl_low (a b n : Z) :
  0 <= n -> 0 <= a < 2 ^ n -> Z.land a (Z.shiftl b n) = 0.
Proof.
  intros Hn Ha. apply Z.bits_inj'. intros k Hk.
  rewrite Z.land_spec, Z.bits_0.
  destruct (Z.lt_ge_cases k n).
  - rewrite (Z.shiftl_spec_low b n k) by lia. apply andb_false_r.
  - rewrite (testbit_above a n k) by lia. reflexivity.
Qed.

Lemma lor_shiftl_add (a b n : Z) :
  0 <= n -> 0 <= a < 2 ^ n -> Z.lor a (Z.shiftl b n) = a + b * 2 ^ n.
Proof.
  intros Hn Ha.
  pose proof (Z.add_lor_land a (Z.shiftl b n)) as H.
  rewrite land_shiftl_low in H by lia.
  rewrite Z.shiftl_mul_pow2 in * by lia. lia.
Qed.

Lemma lor_mul_pow2_add (a b n : Z) :
  0 <= n -> 0 <= a < 2 ^ n -> Z.lor a (b * 2 ^ n) = a + b * 2 ^ n.
Proof.
  intros Hn Ha. rewrite <- (lor_shiftl_add a b n) by lia.
  rewrite Z.shiftl_mul_pow2 by lia. reflexivity.
Qed.

Lemma u64_small (z : Z) : 0 <= z < 2 ^ 64 -> u64 z = z.
Proof. intros. unfold u64. apply Z.mod_small. lia. Qed.

Lemma u64_range (z : Z) : 0 <= u64 z < 2 ^ 64.
Proof. unfold u64. apply Z.mod_pos_bound. lia. Qed.

Lemma lor_range (a b n : Z) :
  0 <= n -> 0 <= a < 2 ^ n -> 0 <= b < 2 ^ n -> 0 <= Z.lor a b < 2 ^ n.
Proof.
  intros Hn Ha Hb.
  destruct (Z.eq_dec a 0) as [->|Ha0]; [rewrite Z.lor_0_l; lia|].
  destruct (Z.eq_dec b 0) as [->|Hb0]; [rewrite Z.lor_0_r; lia|].
  assert (0 <= Z.lor a b) by (apply Z.lor_nonneg; lia).
  split; [lia|].
  assert (Z.log2 a < n) by (apply Z.log2_lt_pow2; lia).
  assert (Z.log2 b < n) by (apply Z.log2_lt_pow2; lia).
  assert (Z.lor a b <> 0).
  { intros E. apply Z.lor_eq_0_iff in E. lia. }
  apply Z.log2_lt_pow2; [lia|].
  rewrite Z.log2_lor by lia. lia.
Qed.

(** ** The varint codec *)

Lemma byte_continuation (v : Z) :
  0 <= v < 256 ->
  128 <= Z.lor v 128 < 256 /\ Z.land (Z.lor v 128) 127 = v mod 128.
Proof.
  intros Hv.
  assert (forallb (fun v => (128 <=? Z.lor v 128) && (Z.lor v 128 <? 256)
                            && (Z.land (Z.lor v 128) 127 =? v mod 128))
            (map Z.of_nat (seq 0 256)) = true) as H
    by (vm_compute; reflexivity).
  rewrite forallb_forall in H.
  specialize (H v). rewrite !andb_true_iff in H.
  destruct H as [[H1 H2] H3]; [|lia].
  apply in_map_iff. exists (Z.to_nat v). split; [lia|].
  apply in_seq. lia.
Qed.

Lemma ReadUvarint_loop_range (todo : nat) (i x s : Z) (r : list byte) :
  0 <= x < 2 ^ 64 ->
  0 <= fst (fst (ReadUvarint_loop todo i x s r)) < 2 ^ 64.
Proof.
  revert i x s r. induction todo as [|todo IH]; intros i x s r Hx; simpl; [lia|].
  destruct r as [|b r]; simpl; [lia|].
  destruct (byteZ b <? 128).
  - destruct ((i =? MaxVarintLen64 - 1) && (1 <? byteZ b)); simpl; [lia|].
    apply lor_range; [lia|lia|apply u64_range].
  - apply IH. apply lor_range; [lia|lia|apply u64_range].
Qed.

Lemma ReadUvarint_range (r : list byte) :
  0 <= fst (fst (ReadUvarint r)) < 2 ^ 64.
Proof. apply ReadUvarint_loop_range. lia. Qed.

(** A read never gives bytes back, and a read without error has consumed at
    least one byte. *)
Lemma ReadUvarint_loop_length (todo : nat) (i x s : Z) (r : list byte) :
  (length (snd (ReadUvarint_loop todo i x s r)) <= length r)%nat /\
  (snd (fst (ReadUvarint_loop todo i x s r)) = None ->
   (length (snd (ReadUvarint_loop todo i x s r)) < length r)%nat).
Proof.
  revert i x s r. induction todo as [|todo IH]; intros i x s r; simpl.
  - split; [lia|discriminate].
  - destruct r as [|b r]; simpl.
    + split; [lia|]. destruct (0 <? i); discriminate.
    + destruct (byteZ b <? 128).
      * destruct ((i =? MaxVarintLen64 - 1) && (1 <? byteZ b)); simpl;
          split; (lia || discriminate).
      * specialize (IH (i + 1) (Z.lor x (u64 (Z.shiftl (Z.land (byteZ b) 127) s)))
                      (s + 7) r).
        destruct IH as [IH1 IH2]. split; [lia|]. intros E. specialize (IH2 E). lia.
Qed.

Lemma ReadUvarint_loop_Put (todo : nat) (i acc x : Z) (rest : list byte) :
  Z.of_nat todo = 10 - i -> 0 <= i ->
  0 <= acc < 2 ^ (7 * i) -> 0 <= x < 2 ^ (64 - 7 * i) ->
  ReadUvarint_loop todo i acc (7 * i) (PutUvarint_loop todo x ++ rest)
  = ((acc + x * 2 ^ (7 * i), None), rest).
Proof.
  revert i acc x. induction todo as [|todo IH]; intros i acc x Htodo Hi Hacc Hx.
  - replace i with 10 in * by lia. simpl in Hx. lia.
  - assert (i = 0 \/ i = 1 \/ i = 2 \/ i = 3 \/ i = 4 \/ i = 5 \/ i = 6 \/
            i = 7 \/ i = 8 \/ i = 9) as Hcases by lia.
    simpl. destruct (Z.leb_spec 128 x) as [Hge|Hlt]; simpl.
    + pose proof (byte_continuation (x mod 256)
                    (Z.mod_pos_bound x 256 ltac:(lia))) as [Hb1 Hb2].
      rewrite byteZ_zByte.
      rewrite (Z.mod_small (Z.lor (x mod 256) 128) 256) by lia.
      destruct (Z.ltb_spec (Z.lor (x mod 256) 128) 128) as [?|_]; [lia|].
      rewrite Hb2.
      replace ((x mod 256) mod 128) with (x mod 128)
        by (pose proof (Z.mod_pos_bound x 128 ltac:(lia));
            rewrite (Z.mod_eq x 256), (Z.mod_eq _ 128) by lia;
            pose proof (Z.div_mod x 128 ltac:(lia)); 
            pose proof (Z.div_mod x 256 ltac:(lia));
            pose proof (Z.mod_pos_bound x 256 ltac:(lia));
            pose proof (Z.div_mod (x - 256 * (x / 256)) 128 ltac:(lia));
            pose proof (Z.mod_pos_bound (x - 256 * (x / 256)) 128 ltac:(lia));
            lia).
      pose proof (Z.mod_pos_bound x 128 ltac:(lia)) as Hm.
      pose proof (Z.div_mod x 128 ltac:(lia)) as Hdm.
      assert (i <> 9) as Hi9 by (intros ->; simpl in Hx; lia).
      rewrite Z.shiftl_mul_pow2 by lia.
      rewrite Z.shiftr_div_pow2 by lia.
      change (2 ^ 7) with 128.
      assert (0 <= x mod 128 * 2 ^ (7 * i) < 2 ^ 64 /\
              acc + x mod 128 * 2 ^ (7 * i) < 2 ^ (7 * (i + 1)) /\
              x / 128 < 2 ^ (64 - 7 * (i + 1)) /\
              2 ^ (7 * (i + 1)) = 128 * 2 ^ (7 * i)) as (Hr1 & Hr2 & Hr3 & Hr4).
      { destruct Hcases as [->|[->|[->|[->|[->|[->|[->|[->|[->| ->]]]]]]]]];
          simpl in *; try lia;
          (split; [lia|]); (split; [lia|]); (split; [|lia]);
          apply Z.div_lt_upper_bound; lia. }
      rewrite u64_small by lia.
      rewrite lor_mul_pow2_add by lia.
      replace (7 * i + 7) with (7 * (i + 1)) by lia.
      rewrite IH by lia.
      f_equal. f_equal. rewrite Hr4. nia.
    + rewrite byteZ_zByte. rewrite (Z.mod_small x 256) by lia.
      destruct (Z.ltb_spec x 128) as [_|?]; [|lia].
      assert ((i =? MaxVarintLen64 - 1) && (1 <? x) = false) as ->.
      { destruct (Z.eqb_spec i (MaxVarintLen64 - 1)) as [->|]; [|reflexivity].
        change (2 ^ (64 - 7 * (MaxVarintLen64 - 1))) with 2 in Hx.
        simpl. apply Z.ltb_ge. lia. }
      rewrite Z.shiftl_mul_pow2 by lia.
      assert (0 <= x * 2 ^ (7 * i) < 2 ^ 64) as Hr.
      { destruct Hcases as [->|[->|[->|[->|[->|[->|[->|[->|[->| ->]]]]]]]]];
          simpl in *; lia. }
      rewrite u64_small by lia.
      rewrite lor_mul_pow2_add by lia. reflexivity.
Qed.

Lemma ReadUvarint_PutUvarint (x : Z) (rest : list byte) :
  0 <= x < 2 ^ 64 -> ReadUvarint (PutUvarint x ++ rest) = ((x, None), rest).
Proof.
  intros Hx. unfold ReadUvarint, PutUvarint.
  pose proof (ReadUvarint_loop_Put (Z.to_nat MaxVarintLen64) 0 0 x rest) as H.
  change (7 * 0) with 0 in H.
  rewrite H; [do 2 f_equal; lia|reflexivity|lia|simpl; lia|simpl; lia].
Qed.

Lemma ReadVarint_zigzag (r : list byte) :
  ReadVarint r =
  ((zigzag (fst (fst (ReadUvarint r))), snd (fst (ReadUvarint r))),
   snd (ReadUvarint r)).
Proof.
  unfold ReadVarint. pose proof (ReadUvarint_range r) as Hu.
  destruct (ReadUvarint r) as [[u err] r']. simpl in *.
  do 2 f_equal. unfold zigzag, i64.
  rewrite Z.shiftr_div_pow2 by lia. change (2 ^ 1) with 2.
  assert (0 <= u / 2 < 2 ^ 63) as Hh.
  { split; [apply Z.div_pos; lia|apply Z.div_lt_upper_bound; lia]. }
  rewrite u64_small by lia.
  destruct (Z.ltb_spec (u / 2) (2 ^ 63)) as [_|?]; [|lia].
  replace (Z.land u 1) with (u mod 2)
    by (symmetry; apply (Z.land_ones u 1); lia).
  rewrite Zeven_mod.
  destruct (Z.eqb_spec (u mod 2) 0) as [E|E]; simpl; [reflexivity|].
  rewrite Z.lnot_eq_pred_opp.
  pose proof (Z.mod_pos_bound u 2 ltac:(lia)).
  pose proof (Z.div_mod u 2 ltac:(lia)).
  assert ((u + 1) / 2 = u / 2 + 1); [|lia].
  symmetry. apply Z.div_unique with (r := 0); lia.
Qed.

(** The unsigned value that [PutVarint] writes for [x]. *)
Lemma PutVarint_zigzag (x : Z) :
  minInt64 <= x <= maxInt64 ->
  (if x <? 0 then u64 (Z.lnot (u64 (Z.shiftl (u64 x) 1)))
   else u64 (Z.shiftl (u64 x) 1)) = (if x <? 0 then - 2 * x - 1 else 2 * x).
Proof.
  unfold minInt64, maxInt64, u64. intros Hx.
  rewrite !Z.shiftl_mul_pow2 by lia. change (2 ^ 1) with 2.
  destruct (Z.ltb_spec x 0) as [Hneg|Hpos].
  - assert (x mod 2 ^ 64 = x + 2 ^ 64) as ->
      by (symmetry; apply Z.mod_unique with (q := -1); lia).
    assert (((x + 2 ^ 64) * 2) mod 2 ^ 64 = 2 * x + 2 ^ 64) as ->
      by (symmetry; apply Z.mod_unique with (q := 1); lia).
    rewrite Z.lnot_eq_pred_opp.
    symmetry; apply Z.mod_unique with (q := -1); lia.
  - rewrite (Z.mod_small x) by lia. rewrite Z.mod_small by lia. lia.
Qed.

Lemma zigzag_inverse (x : Z) :
  zigzag (if x <? 0 then - 2 * x - 1 else 2 * x) = x.
Proof.
  unfold zigzag. rewrite Zeven_mod.
  destruct (Z.ltb_spec x 0) as [Hneg|Hpos].
  - assert ((- 2 * x - 1) mod 2 = 1) as ->
      by (symmetry; apply Z.mod_unique with (q := - x - 1); lia).
    simpl. assert ((- 2 * x - 1 + 1) / 2 = - x); [|lia].
    symmetry. apply Z.div_unique with (r := 0); lia.
  - assert ((2 * x) mod 2 = 0) as ->
      by (symmetry; apply Z.mod_unique with (q := x); lia).
    simpl. symmetry. apply Z.div_unique with (r := 0); lia.
Qed.

Lemma ReadVarint_PutVarint (x : Z) (rest : list byte) :
  minInt64 <= x <= maxInt64 ->
  ReadVarint (PutVarint x ++ rest) = ((x, None), rest).
Proof.
  intros Hx. rewrite ReadVarint_zigzag. unfold PutVarint.
  rewrite PutVarint_zigzag by assumption.
  rewrite ReadUvarint_PutUvarint.
  - simpl. rewrite zigzag_inverse. reflexivity.
  - unfold minInt64, maxInt64 in Hx. destruct (x <? 0) eqn:E; lia.
Qed.

(** *** [base64.StdEncoding] *)

(** The decoder on corrupt inputs of the kind the library is tested on: the
    offset that [CorruptInputError] carries ([-1] when the input is
    accepted), and the message of the error that [DecodePlanGist] returns. *)
Example base64_DecodeString_offsets :
  map (fun s => match base64_DecodeString s with
                | inl _ => -1
                | inr (CorruptInputError offset) => offset
                end)
      ["!!!!"; "===="; "x==="; "=AAA"; "A=AA"; "AA=A"; "AA==A"; "AAA=AAAA";
       "AAAAA"; "AAAAAA"; "A="; "A=="; "AA="; "AA=="; "AAA="; "AAAA";
       "AAAAAA="; "YWJjZA====="]%string
  = [0; 0; 1; 0; 1; 2; 4; 4; 4; 4; 1; 1; 3; -1; -1; -1; 7; 8] /\
  error_Error (Base64DecodeError (CorruptInputError 4))
  = "base64 decode error: illegal base64 data at input byte 4"%string.
Proof. split; reflexivity. Qed.


(** ** The decoder monad *)

Lemma bind_Ret_inv {A B : Type} (c : M A) (f : A -> M B) d r :
  (c ≫= f) d = Ret r -> exists a d1, c d = Ret (a, d1) /\ f a d1 = Ret r.
Proof.
  unfold mbind, M_bind. destruct (c d) as [[a d1]| |]; try discriminate.
  intros H. exists a, d1. split; [reflexivity|exact H].
Qed.

Lemma bind_Ret {A B : Type} (c : M A) (f : A -> M B) d a d1 :
  c d = Ret (a, d1) -> (c ≫= f) d = f a d1.
Proof. unfold mbind, M_bind. intros ->. reflexivity. Qed.

Lemma bind_Panic {A B : Type} (c : M A) (f : A -> M B) d msg :
  c d = Panic msg -> (c ≫= f) d = Panic msg.
Proof. unfold mbind, M_bind. intros ->. reflexivity. Qed.

Lemma setBuf_buf d : setBuf (buf d) d = d.
Proof. destruct d; reflexivity. Qed.

Lemma setNodeStack_nodeStack d : setNodeStack (nodeStack d) d = d.
Proof. destruct d; reflexivity. Qed.


Lemma safe_ret {A : Type} (a : A) : safe (mret a).
Proof. intros d. exact I. Qed.

Lemma safe_bind {A B : Type} (c : M A) (f : A -> M B) :
  safe c -> (forall a, safe (f a)) -> safe (c ≫= f).
Proof.
  intros Hc Hf d. specialize (Hc d). unfold mbind, M_bind.
  destruct (c d) as [[a d1]| |]; [apply Hf|exact Hc|exact Hc].
Qed.

Lemma reader_ret {A : Type} (a : A) : reader (mret a).
Proof.
  intros d a' d' H. injection H as <- <-. rewrite setBuf_buf. split; [reflexivity|lia].
Qed.

Lemma reader_bind {A B : Type} (c : M A) (f : A -> M B) :
  reader c -> (forall a, reader (f a)) -> reader (c ≫= f).
Proof.
  intros Hc Hf d b d' H.
  apply bind_Ret_inv in H as (a & d1 & H1 & H2).
  apply Hc in H1 as [E1 L1]. apply Hf in H2 as [E2 L2].
  split; [|lia]. rewrite E2, E1. reflexivity.
Qed.

Lemma consumes_bind_l {A B : Type} (c : M A) (f : A -> M B) :
  consumes c -> (forall a, reader (f a)) -> consumes (c ≫= f).
Proof.
  intros Hc Hf d b d' H.
  apply bind_Ret_inv in H as (a & d1 & H1 & H2).
  apply Hc in H1. apply Hf in H2 as [_ L2]. lia.
Qed.

Lemma reader_getDecoder : reader getDecoder.
Proof.
  intros d a d' H. injection H as <- <-. rewrite setBuf_buf. split; [reflexivity|lia].
Qed.

Lemma safe_getDecoder : safe getDecoder.
Proof. intros d. exact I. Qed.

(** *** The byte cursor *)

Lemma ReadVarint_length (r : list byte) :
  (length (snd (ReadVarint r)) <= length r)%nat /\
  (snd (fst (ReadVarint r)) = None -> (length (snd (ReadVarint r)) < length r)%nat).
Proof.
  rewrite ReadVarint_zigzag. simpl. apply ReadUvarint_loop_length.
Qed.

Lemma decodeInt_Ret d val d' :
  decodeInt d = Ret (val, d') ->
  exists r, ReadVarint (buf d) = ((val, None), r) /\ d' = setBuf r d.
Proof.
  unfold decodeInt. destruct (ReadVarint (buf d)) as [[v [e|]] r]; [discriminate|].
  intros H. injection H as <- <-. exists r. split; reflexivity.
Qed.

Lemma safe_decodeInt : safe decodeInt.
Proof.
  intros d. unfold decodeInt.
  destruct (ReadVarint (buf d)) as [[v [e|]] r]; [exists e; reflexivity|exact I].
Qed.

Lemma reader_decodeInt : reader decodeInt.
Proof.
  intros d a d' H. apply decodeInt_Ret in H as (r & E & ->).
  split; [reflexivity|]. pose proof (ReadVarint_length (buf d)) as [L _].
  rewrite E in L. simpl in *. exact L.
Qed.

Lemma consumes_decodeInt : consumes decodeInt.
Proof.
  intros d a d' H. apply decodeInt_Ret in H as (r & E & ->).
  pose proof (ReadVarint_length (buf d)) as [_ L].
  rewrite E in L. simpl in *. apply L. reflexivity.
Qed.

Lemma safe_decodeUvarint : safe decodeUvarint.
Proof.
  intros d. unfold decodeUvarint.
  destruct (ReadUvarint (buf d)) as [[v [e|]] r]; [exists e; reflexivity|exact I].
Qed.

Lemma decodeUvarint_Ret d val d' :
  decodeUvarint d = Ret (val, d') ->
  exists r, ReadUvarint (buf d) = ((val, None), r) /\ d' = setBuf r d.
Proof.
  unfold decodeUvarint. destruct (ReadUvarint (buf d)) as [[v [e|]] r]; [discriminate|].
  intros H. injection H as <- <-. exists r. split; reflexivity.
Qed.

Lemma reader_decodeUvarint : reader decodeUvarint.
Proof.
  intros d a d' H. apply decodeUvarint_Ret in H as (r & E & ->).
  split; [reflexivity|].
  pose proof (ReadUvarint_loop_length (Z.to_nat MaxVarintLen64) 0 0 0 (buf d)) as [L _].
  fold (ReadUvarint (buf d)) in L. rewrite E in L. exact L.
Qed.

Lemma consumes_decodeUvarint : consumes decodeUvarint.
Proof.
  intros d a d' H. apply decodeUvarint_Ret in H as (r & E & ->).
  pose proof (ReadUvarint_loop_length (Z.to_nat MaxVarintLen64) 0 0 0 (buf d)) as [_ L].
  fold (ReadUvarint (buf d)) in L. rewrite E in L. apply L. reflexivity.
Qed.

Lemma decodeByte_Ret d b d' :
  decodeByte d = Ret (b, d') -> buf d = b :: buf d' /\ d' = setBuf (buf d') d.
Proof.
  unfold decodeByte. destruct (buf d) as [|b0 r] eqn:E; simpl; [discriminate|].
  intros H. injection H as <- <-. split; reflexivity.
Qed.

Lemma safe_decodeByte : safe decodeByte.
Proof.
  intros d. unfold decodeByte.
  destruct (buf d); simpl; [exists EOF; reflexivity|exact I].
Qed.

Lemma reader_decodeByte : reader decodeByte.
Proof.
  intros d a d' H. apply decodeByte_Ret in H as [E ->].
  split; [reflexivity|]. rewrite E. simpl. lia.
Qed.

Lemma consumes_decodeByte : consumes decodeByte.
Proof.
  intros d a d' H. apply decodeByte_Ret in H as [E ->]. rewrite E. simpl. lia.
Qed.

Create HintDb safe.
Create HintDb reader.

#[local] Hint Resolve safe_ret safe_getDecoder safe_decodeInt safe_decodeUvarint
  safe_decodeByte : safe.
#[local] Hint Resolve reader_ret reader_getDecoder reader_decodeInt
  reader_decodeUvarint reader_decodeByte : reader.

(** Solve [safe c] and [reader c] for a straight-line [c]. *)
Ltac split_branches :=
  match goal with
  | |- context [match ?x with (_, _) => _ end] => destruct x
  | |- context [if ?b then _ else _] => destruct b
  | |- context [match ?x with Some _ => _ | None => _ end] => destruct x
  end.

Ltac straight_safe :=
  repeat first
    [ solve [eauto with safe] | progress intros | progress cbv zeta
    | apply safe_bind | split_branches ].

Ltac straight_reader :=
  repeat first
    [ solve [eauto with reader] | progress intros | progress cbv zeta
    | apply reader_bind | split_branches ].

Lemma safe_decodeBool : safe decodeBool.
Proof. unfold decodeBool. straight_safe. Qed.

Lemma reader_decodeBool : reader decodeBool.
Proof. unfold decodeBool. straight_reader. Qed.

Lemma safe_decodeTable : safe decodeTable.
Proof. unfold decodeTable, decodeID. straight_safe. Qed.

Lemma reader_decodeTable : reader decodeTable.
Proof. unfold decodeTable, decodeID. straight_reader. Qed.

Lemma safe_decodeIndex t : safe (decodeIndex t).
Proof. unfold decodeIndex, decodeID. straight_safe. Qed.

Lemma reader_decodeIndex t : reader (decodeIndex t).
Proof. unfold decodeIndex, decodeID. straight_reader. Qed.

Lemma reader_panic {A : Type} (msg : string) : reader (@panic A msg).
Proof. intros d a d' H. discriminate H. Qed.

#[local] Hint Resolve reader_panic : reader.

Lemma reader_decodeNodeColumnOrdinals : reader decodeNodeColumnOrdinals.
Proof. unfold decodeNodeColumnOrdinals, make_intSlice. straight_reader. Qed.

Lemma safe_decodeJoinType : safe decodeJoinType.
Proof. unfold decodeJoinType. straight_safe. Qed.

Lemma reader_decodeJoinType : reader decodeJoinType.
Proof. unfold decodeJoinType. straight_reader. Qed.

(** *** [decodeIntSet]: the loop ends before its fuel does *)

Lemma decodeIntSet_loop_spec (fuel : nat) (i len : Z) d :
  (length (buf d) < fuel)%nat ->
  match decodeIntSet_loop fuel i len d with
  | Ret (_, d') => d' = setBuf (buf d') d /\ (length (buf d') <= length (buf d))%nat
  | Panic msg => decodeError msg
  | Diverge => False
  end.
Proof.
  revert i d. induction fuel as [|fuel IH]; intros i d Hfuel; [lia|].
  simpl. destruct (i <? len).
  - unfold mbind at 1, M_bind at 1.
    pose proof (safe_decodeUvarint d) as S1.
    destruct (decodeUvarint d) as [[a d1]|msg|] eqn:E1; [|exact S1|exact S1].
    pose proof (reader_decodeUvarint _ _ _ E1) as [R1 _].
    pose proof (consumes_decodeUvarint _ _ _ E1) as C1.
    unfold mbind at 1, M_bind at 1.
    pose proof (safe_decodeUvarint d1) as S2.
    destruct (decodeUvarint d1) as [[b d2]|msg|] eqn:E2; [|exact S2|exact S2].
    pose proof (reader_decodeUvarint _ _ _ E2) as [R2 L2].
    specialize (IH (u64 (i + 1)) d2 ltac:(lia)).
    destruct (decodeIntSet_loop fuel (u64 (i + 1)) len d2) as [[u d3]|msg|];
      [|exact IH|exact IH].
    destruct IH as [R3 L3]. split; [|lia]. rewrite R3, R2, R1. reflexivity.
  - simpl. rewrite setBuf_buf. split; [reflexivity|lia].
Qed.

Lemma safe_decodeIntSet : safe decodeIntSet.
Proof.
  unfold decodeIntSet. apply safe_bind; [apply safe_decodeUvarint|].
  intros len. destruct (len =? 0); [straight_safe|].
  intros d. unfold mbind, M_bind, getDecoder.
  pose proof (decodeIntSet_loop_spec (S (length (buf d))) 0 len d ltac:(lia)) as H.
  destruct (decodeIntSet_loop (S (length (buf d))) 0 len d) as [[u d']|msg|];
    [exact I|exact H|exact H].
Qed.

Lemma reader_decodeIntSet : reader decodeIntSet.
Proof.
  unfold decodeIntSet. apply reader_bind; [apply reader_decodeUvarint|].
  intros len. destruct (len =? 0); [straight_reader|].
  intros d u d' H. unfold mbind, M_bind, getDecoder in H.
  pose proof (decodeIntSet_loop_spec (S (length (buf d))) 0 len d ltac:(lia)) as H'.
  rewrite H in H'. exact H'.
Qed.

(** [decodeIntSet] is total: its loop never runs out of fuel. *)
Lemma decodeIntSet_converges d : decodeIntSet d <> Diverge.
Proof.
  pose proof (safe_decodeIntSet d) as H. intros E. rewrite E in H. exact H.
Qed.

#[local] Hint Resolve safe_decodeBool safe_decodeTable safe_decodeIndex
  safe_decodeJoinType safe_decodeIntSet : safe.
#[local] Hint Resolve reader_decodeBool reader_decodeTable reader_decodeIndex
  reader_decodeNodeColumnOrdinals reader_decodeJoinType reader_decodeIntSet : reader.

Lemma safe_decodeScanParams : safe decodeScanParams.
Proof. unfold decodeScanParams. straight_safe. Qed.

Lemma reader_decodeScanParams : reader decodeScanParams.
Proof. unfold decodeScanParams. straight_reader. Qed.

#[local] Hint Resolve safe_decodeScanParams : safe.
#[local] Hint Resolve reader_decodeScanParams : reader.

(** *** Panics of the run-time *)

Lemma checked_safe {A : Type} (c : M A) : safe c -> checked c.
Proof.
  intros H d. specialize (H d).
  destruct (c d) as [?|msg|]; [exact I|left; exact H|exact H].
Qed.

Lemma checked_bind {A B : Type} (c : M A) (f : A -> M B) :
  checked c -> (forall a, checked (f a)) -> checked (c ≫= f).
Proof.
  intros Hc Hf d. specialize (Hc d). unfold mbind, M_bind.
  destruct (c d) as [[a d1]| |]; [apply Hf|exact Hc|exact Hc].
Qed.

Lemma checked_make_intSlice l : checked (make_intSlice l).
Proof.
  intros d. unfold make_intSlice.
  destruct ((l <? 0) || (maxAlloc <? 8 * l)); [right; reflexivity|exact I].
Qed.

Lemma checked_decodeNodeColumnOrdinals : checked decodeNodeColumnOrdinals.
Proof.
  unfold decodeNodeColumnOrdinals.
  apply checked_bind; [apply checked_safe, safe_decodeInt|].
  intros l. destruct (l <? 0); [apply checked_safe, safe_ret|].
  apply checked_make_intSlice.
Qed.

Create HintDb checked.

#[local] Hint Resolve checked_decodeNodeColumnOrdinals : checked.
#[local] Hint Extern 2 (checked _) =>
  apply checked_safe; solve [eauto with safe] : checked.

Ltac straight_checked :=
  repeat first
    [ solve [eauto with checked] | progress intros | progress cbv zeta
    | apply checked_bind | split_branches ].

(** ** The decode stack and the operator body decoder *)

Lemma popChild_eq d :
  popChild d = Ret (last (nodeStack d), setNodeStack (removelast (nodeStack d)) d).
Proof.
  unfold popChild. destruct (nodeStack d) as [|x s] eqn:E.
  - simpl. rewrite <- E, setNodeStack_nodeStack. reflexivity.
  - rewrite <- E. destruct (Nat.eqb_spec (length (nodeStack d)) 0) as [H|_].
    + rewrite E in H. discriminate.
    + rewrite last_lookup, removelast_firstn_len, !Nat.sub_1_r. reflexivity.
Qed.

Lemma popChild_empty d : nodeStack d = [] -> popChild d = Ret (None, d).
Proof.
  intros E. rewrite popChild_eq, E. simpl.
  rewrite <- E, setNodeStack_nodeStack. reflexivity.
Qed.

Lemma popChild_snoc d s n :
  nodeStack d = s ++ [n] -> popChild d = Ret (Some n, setNodeStack s d).
Proof.
  intros E. rewrite popChild_eq, E, last_snoc, removelast_last. reflexivity.
Qed.

Lemma safe_popChild : safe popChild.
Proof. intros d. rewrite popChild_eq. exact I. Qed.

Lemma appendPopChild_eq n d :
  appendPopChild n d =
  Ret (Node_appendChildren [last (nodeStack d)] n,
       setNodeStack (removelast (nodeStack d)) d).
Proof.
  unfold appendPopChild. rewrite (bind_Ret _ _ _ _ _ (popChild_eq d)). reflexivity.
Qed.

Lemma appendLeftRight_eq n d :
  appendLeftRight n d =
  Ret (Node_appendChildren [last (removelast (nodeStack d)); last (nodeStack d)] n,
       setNodeStack (removelast (removelast (nodeStack d))) d).
Proof.
  unfold appendLeftRight.
  rewrite (bind_Ret _ _ _ _ _ (popChild_eq d)).
  rewrite (bind_Ret _ _ _ _ _ (popChild_eq _)). reflexivity.
Qed.

Lemma safe_appendPopChild n : safe (appendPopChild n).
Proof. intros d. rewrite appendPopChild_eq. exact I. Qed.

Lemma safe_appendLeftRight n : safe (appendLeftRight n).
Proof. intros d. rewrite appendLeftRight_eq. exact I. Qed.

#[local] Hint Resolve safe_popChild safe_appendPopChild safe_appendLeftRight : safe.

Lemma reader_frame {A : Type} (c : M A) d a d' :
  reader c -> c d = Ret (a, d') ->
  nodeStack d' = nodeStack d /\ (length (buf d') <= length (buf d))%nat.
Proof.
  intros R H. apply R in H as [E L]. split; [|exact L]. rewrite E. reflexivity.
Qed.

(** [decodeOperatorBody] never runs out of fuel, and panics only with a
    decode error or with the run-time error of [make]. *)
Lemma checked_decodeOperatorBody o : checked (decodeOperatorBody o).
Proof.
  unfold decodeOperatorBody, decodeRows, decodeResultColumns. straight_checked.
Qed.

(** Take a hypothesis [H : c d = Ret r] of a straight-line [c] apart. *)
Ltac body_step H :=
  lazymatch type of H with
  | appendPopChild _ _ = Ret _ => rewrite appendPopChild_eq in H
  | appendLeftRight _ _ = Ret _ => rewrite appendLeftRight_eq in H
  | (_ ≫= _) _ = Ret _ =>
      let Hc := fresh "Hc" in
      apply bind_Ret_inv in H as (? & ? & Hc & H);
      lazymatch type of Hc with
      | appendPopChild _ _ = Ret _ =>
          rewrite appendPopChild_eq in Hc; injection Hc as <- <-
      | appendLeftRight _ _ = Ret _ =>
          rewrite appendLeftRight_eq in Hc; injection Hc as <- <-
      | getDecoder _ = Ret _ => injection Hc as <- <-
      | ?c _ = Ret _ =>
          let R := fresh "R" in
          assert (reader c) as R by eauto with reader;
          apply (reader_frame _ _ _ _ R) in Hc as [? ?]; clear R
      end
  | (let '(_, _) := ?x in _) _ = Ret _ => destruct x
  | (if ?b then _ else _) _ = Ret _ => destruct b
  | mret _ _ = Ret _ => injection H as <- <- <-
  | Ret _ = Ret _ => injection H as <- <- <-
  end.

Lemma decodeOperatorBody_Ret o d n e d' :
  decodeOperatorBody o d = Ret ((n, e), d') ->
  e = None /\ op n = o /\
  (children n, nodeStack d')
  = popChildren (childrenPopped o (nodeStack d)) (nodeStack d) /\
  (length (buf d') <= length (buf d))%nat.
Proof.
  unfold decodeOperatorBody, decodeRows, decodeResultColumns, childrenPopped,
    declaredChildren.
  intros H.
  repeat match type of H with
         | context [o =? ?k] =>
             destruct (Z.eqb_spec o k); cbn [orb] in H
         end.
  all: try subst o.
  all: repeat match goal with E : _ <> _ |- _ => clear E end.
  all: repeat body_step H.
  all: repeat match goal with
         | |- context [if ?b then _ else _] => is_var b; destruct b
         end.
  all: simpl.
  all: repeat match goal with
         | E : nodeStack _ = nodeStack _ |- _ => rewrite E; clear E
         end.
  all: refine (conj eq_refl (conj eq_refl (conj eq_refl _))); lia.
Qed.

(** ** The plan stack machine *)

Lemma byteZ_0 (b : byte) : byteZ b = 0 <-> b = x00.
Proof.
  split; [|intros ->; reflexivity].
  unfold byteZ. intros H.
  assert (Byte.to_N b = Byte.to_N x00) as E by (simpl; lia).
  apply (f_equal Byte.of_N) in E. rewrite !Byte.of_to_N in E. congruence.
Qed.

Lemma decodeOp_eof d : buf d = [] -> decodeOp d = Ret (unknownOp, d).
Proof.
  intros E. unfold decodeOp. rewrite E. simpl.
  rewrite <- E, setBuf_buf. reflexivity.
Qed.

Lemma decodeOp_terminator d r :
  buf d = x00 :: r -> decodeOp d = Ret (unknownOp, setBuf r d).
Proof. intros E. unfold decodeOp. rewrite E. reflexivity. Qed.

Lemma decodeOp_operator d b r :
  buf d = b :: r -> byteZ b <> 0 ->
  decodeOp d =
  match decodeOperatorBody (byteZ b) (setBuf r d) with
  | Ret ((n, _), d') => Ret (op n, setNodeStack (nodeStack d' ++ [n]) d')
  | Panic msg => Panic msg
  | Diverge => Diverge
  end.
Proof.
  intros E Hb. unfold decodeOp. rewrite E. simpl.
  destruct (Z.eqb_spec (byteZ b) 0) as [?|_]; [contradiction|].
  unfold mbind, M_bind.
  destruct (decodeOperatorBody (byteZ b) (setBuf r d)) as [[[n e] d']|msg|] eqn:B;
    try reflexivity.
  apply decodeOperatorBody_Ret in B as (-> & _). reflexivity.
Qed.

(** The three ways [decodeOp] returns: at the end of the buffer, on the
    terminator, and after the body of an operator. *)
Lemma decodeOp_Ret d o d' :
  decodeOp d = Ret (o, d') ->
  (o = unknownOp /\ buf d = [] /\ d' = d) \/
  (o = unknownOp /\ exists r, buf d = x00 :: r /\ d' = setBuf r d) \/
  (exists b r n d1,
      buf d = b :: r /\ o = byteZ b /\ o <> unknownOp /\ op n = o /\
      decodeOperatorBody o (setBuf r d) = Ret ((n, None), d1) /\
      d' = setNodeStack (nodeStack d1 ++ [n]) d1).
Proof.
  destruct (buf d) as [|b r] eqn:E.
  - rewrite (decodeOp_eof d E). intros H. injection H as <- <-. left. auto.
  - destruct (Z.eq_dec (byteZ b) 0) as [Hz|Hnz].
    + apply byteZ_0 in Hz. subst b. rewrite (decodeOp_terminator d r E).
      intros H. injection H as <- <-. right. left. split; [reflexivity|].
      exists r. auto.
    + rewrite (decodeOp_operator d b r E Hnz).
      destruct (decodeOperatorBody (byteZ b) (setBuf r d)) as [[[n e] d1]|msg|] eqn:B;
        try discriminate.
      intros H. injection H as <- <-.
      pose proof (decodeOperatorBody_Ret _ _ _ _ _ B) as (-> & Hop & _).
      right. right. exists b, r, n, d1. rewrite Hop.
      split; [reflexivity|]. split; [reflexivity|]. split; [exact Hnz|].
      split; [reflexivity|]. split; [exact B|reflexivity].
Qed.

Lemma checked_decodeOp : checked decodeOp.
Proof.
  intros d. destruct (buf d) as [|b r] eqn:E.
  - rewrite (decodeOp_eof d E). exact I.
  - destruct (Z.eq_dec (byteZ b) 0) as [Hz|Hnz].
    + apply byteZ_0 in Hz. subst b. rewrite (decodeOp_terminator d r E). exact I.
    + rewrite (decodeOp_operator d b r E Hnz).
      pose proof (checked_decodeOperatorBody (byteZ b) (setBuf r d)) as S.
      destruct (decodeOperatorBody (byteZ b) (setBuf r d)) as [[[n e] d1]|msg|];
        [exact I|exact S|exact S].
Qed.

(** *** Check nodes never stay on the stack *)

Lemma containsCheck_eq n :
  containsCheck n = false <->
  op n <> errorIfRowsOp /\ childrenCheckFree (children n).
Proof.
  destruct n as [o a cs]. simpl. rewrite orb_false_iff.
  assert ((fix inChildren (cs : list (option Node)) : bool :=
             match cs with
             | [] => false
             | Some c :: cs' => containsCheck c || inChildren cs'
             | None :: cs' => inChildren cs'
             end) cs = false <-> childrenCheckFree cs) as ->.
  { unfold childrenCheckFree. induction cs as [|[c|] cs IH]; simpl.
    - split; [intros _ c []|reflexivity].
    - rewrite orb_false_iff, IH. split.
      + intros [H1 H2] c' [E|Hin]; [congruence|auto].
      + intros H. split; [apply H; left; reflexivity|intros c' Hin; apply H; right; exact Hin].
    - rewrite IH. split.
      + intros H c' [E|Hin]; [discriminate|auto].
      + intros H c' Hin. apply H. right. exact Hin. }
  rewrite Z.eqb_neq. reflexivity.
Qed.

Lemma removelast_In {A : Type} (x : A) (s : list A) :
  In x (removelast s) -> In x s.
Proof.
  induction s as [|y s IH]; simpl; [tauto|].
  destruct s as [|z s]; [intros []|].
  intros [E|Hin]; [left; exact E|right; apply IH; exact Hin].
Qed.

Lemma last_In {A : Type} (x : A) (s : list A) : last s = Some x -> In x s.
Proof.
  intros H. apply last_Some in H as [s' ->]. apply in_or_app. right. left. reflexivity.
Qed.

(** What is popped was on the stack, and what stays was there too. *)
Lemma popChildren_In (k : nat) (s : list Node) :
  (forall c, In (Some c) (fst (popChildren k s)) -> In c s) /\
  (forall n, In n (snd (popChildren k s)) -> In n s).
Proof.
  destruct k as [|[|k]]; simpl.
  - split; [intros c []|auto].
  - split.
    + intros c [E|[]]. apply last_In. exact E.
    + intros n. apply removelast_In.
  - split.
    + intros c [E|[E|[]]].
      * apply removelast_In, last_In. exact E.
      * apply last_In. exact E.
    + intros n Hin. apply removelast_In, removelast_In. exact Hin.
Qed.

(** The invariant of the loop of [DecodePlanGist]: no node on the stack
    holds a check, and [checks] holds checks only. *)
Lemma DecodePlanGist_loop_spec (fuel : nat) (checks : list (option Node)) d :
  (length (buf d) < fuel)%nat ->
  Forall (fun n => containsCheck n = false) (nodeStack d) ->
  Forall isCheck checks ->
  match DecodePlanGist_loop fuel checks d with
  | Ret (checks', d') =>
      Forall (fun n => containsCheck n = false) (nodeStack d') /\
      Forall isCheck checks' /\
      (length (buf d') <= length (buf d))%nat
  | Panic msg => decodeError msg \/ makesliceError msg
  | Diverge => False
  end.
Proof.
  revert checks d. induction fuel as [|fuel IH]; intros checks d Hfuel Hs Hc; [lia|].
  simpl. unfold mbind at 1, M_bind at 1.
  pose proof (checked_decodeOp d) as Sop.
  destruct (decodeOp d) as [[o d1]|msg|] eqn:Eop; [|exact Sop|exact Sop].
  apply decodeOp_Ret in Eop
    as [(-> & E & ->)|[(-> & r & E & ->)|(b & r & n & d2 & E & Eo & Hnz & Hop & B & ->)]].
  - simpl. auto.
  - simpl. rewrite E. simpl. auto.
  - destruct (Z.eqb_spec o unknownOp) as [?|_]; [contradiction|].
    apply decodeOperatorBody_Ret in B as (_ & _ & Hpop & Hlen).
    pose proof (popChildren_In (childrenPopped o (nodeStack (setBuf r d)))
                  (nodeStack (setBuf r d))) as [Hin1 Hin2].
    rewrite <- Hpop in Hin1, Hin2. simpl in Hin1, Hin2, Hlen.
    rewrite Forall_forall in Hs.
    assert (childrenCheckFree (children n)) as Hfree.
    { intros c Hin. apply Hs. apply list_elem_of_In. apply Hin1. exact Hin. }
    assert (Forall (fun n => containsCheck n = false) (nodeStack d2)) as Hs2.
    { apply Forall_forall. intros m Hin. apply Hs.
      apply list_elem_of_In. apply Hin2. apply list_elem_of_In. exact Hin. }
    destruct (Z.eqb_spec o errorIfRowsOp) as [Hchk|Hnchk].
    + rewrite (bind_Ret _ _ _ _ _
                 (popChild_snoc (setNodeStack (nodeStack d2 ++ [n]) d2)
                    (nodeStack d2) n eq_refl)).
      change (setNodeStack (nodeStack d2) (setNodeStack (nodeStack d2 ++ [n]) d2))
        with (setNodeStack (nodeStack d2) d2).
      assert (Forall isCheck (checks ++ [Some n])) as Hc2.
      { apply Forall_app. split; [exact Hc|].
        apply Forall_cons. split; [|apply Forall_nil; exact I].
        exists n. rewrite Hop. auto. }
      specialize (IH (checks ++ [Some n]) (setNodeStack (nodeStack d2) d2)).
      simpl in IH. rewrite E in Hfuel. simpl in Hfuel.
      specialize (IH ltac:(lia) Hs2 Hc2).
      destruct (DecodePlanGist_loop fuel (checks ++ [Some n])
                  (setNodeStack (nodeStack d2) d2)) as [[checks' d']|msg|];
        [|exact IH|exact IH].
      destruct IH as (H1 & H2 & H3). rewrite E. simpl. repeat split; auto; lia.
    + specialize (IH checks (setNodeStack (nodeStack d2 ++ [n]) d2)).
      simpl in IH. rewrite E in Hfuel. simpl in Hfuel.
      assert (Forall (fun n => containsCheck n = false) (nodeStack d2 ++ [n])) as Hs3.
      { apply Forall_app. split; [exact Hs2|].
        apply Forall_cons. split; [|apply Forall_nil; exact I].
        apply containsCheck_eq. rewrite Hop. auto. }
      specialize (IH ltac:(lia) Hs3 Hc).
      destruct (DecodePlanGist_loop fuel checks
                  (setNodeStack (nodeStack d2 ++ [n]) d2)) as [[checks' d']|msg|];
        [|exact IH|exact IH].
      destruct IH as (H1 & H2 & H3). rewrite E. simpl. repeat split; auto; lia.
Qed.

(** ** [DecodePlanGist] *)

Lemma decodeBuffer_eq d :
  decodeBuffer d =
  match ReadVarint (buf d) with
  | ((ver, Some err), _) => Panic ("decode error: " +:+ ioError_Error err)
  | ((ver, None), r) =>
      if negb (ver =? gistVersion)
      then Ret ((None, Some (UnsupportedVersion ver)), setBuf r d)
      else
        match DecodePlanGist_loop (S (length r)) [] (setBuf r d) with
        | Ret (checks, d') =>
            Ret ((assembleResult checks (nodeStack d'), None),
                 setNodeStack (removelast (nodeStack d')) d')
        | Panic msg => Panic msg
        | Diverge => Diverge
        end
  end.
Proof.
  unfold decodeBuffer.
  destruct (ReadVarint (buf d)) as [[ver [err|]] r] eqn:EV.
  - apply bind_Panic. unfold decodeInt. rewrite EV. reflexivity.
  - assert (decodeInt d = Ret (ver, setBuf r d)) as EI
      by (unfold decodeInt; rewrite EV; reflexivity).
    rewrite (bind_Ret _ _ _ _ _ EI).
    destruct (negb (ver =? gistVersion)); [reflexivity|].
    rewrite (bind_Ret _ _ _ (setBuf r d) (setBuf r d) eq_refl).
    change (buf (setBuf r d)) with r.
    destruct (DecodePlanGist_loop (S (length r)) [] (setBuf r d))
      as [[checks d']|msg|] eqn:EL.
    + rewrite (bind_Ret _ _ _ _ _ EL).
      rewrite (bind_Ret _ _ _ _ _ (popChild_eq d')).
      unfold assembleResult. destruct (0 <? length checks)%nat; reflexivity.
    + apply bind_Panic. exact EL.
    + unfold mbind, M_bind. rewrite EL. reflexivity.
Qed.

(** The loop started by [DecodePlanGist] ends, with the checks collected or
    with the panic of a failed read or of [make]. *)
Lemma DecodePlanGist_loop_start (r : list byte) tl il :
  match DecodePlanGist_loop (S (length r)) [] (newDecoder r tl il) with
  | Ret (checks', d') =>
      Forall (fun n => containsCheck n = false) (nodeStack d') /\
      Forall isCheck checks'
  | Panic msg => decodeError msg \/ makesliceError msg
  | Diverge => False
  end.
Proof.
  pose proof (DecodePlanGist_loop_spec (S (length r)) [] (newDecoder r tl il)
                ltac:(simpl; lia) (List.Forall_nil _) (List.Forall_nil _)) as H.
  destruct (DecodePlanGist_loop (S (length r)) [] (newDecoder r tl il))
    as [[checks d']|msg|]; [|exact H|exact H].
  destruct H as (H1 & H2 & _). auto.
Qed.

Lemma checked_decodeBuffer b tl il :
  match decodeBuffer (newDecoder b tl il) with
  | Ret _ => True
  | Panic msg => decodeError msg \/ makesliceError msg
  | Diverge => False
  end.
Proof.
  rewrite decodeBuffer_eq. change (buf (newDecoder b tl il)) with b.
  destruct (ReadVarint b) as [[ver [err|]] r]; [left; exists err; reflexivity|].
  destruct (negb (ver =? gistVersion)); [exact I|].
  pose proof (DecodePlanGist_loop_start r tl il) as H.
  change (setBuf r (newDecoder b tl il)) with (newDecoder r tl il).
  destruct (DecodePlanGist_loop (S (length r)) [] (newDecoder r tl il))
    as [[checks d']|msg|]; [exact I|exact H|exact H].
Qed.

(** [DecodePlanGist] is total: its loops never run out of fuel. *)
Theorem DecodePlanGist_converges gist tl il : DecodePlanGist gist tl il <> Diverge.
Proof.
  unfold DecodePlanGist. destruct (base64_DecodeString gist) as [b|err]; [|discriminate].
  pose proof (checked_decodeBuffer b tl il) as H.
  destruct (decodeBuffer (newDecoder b tl il)) as [[r d']|msg|];
    [discriminate|discriminate|exact (fun _ => H)].
Qed.

(** ** The properties of the specification *)

(** *** The zig-zag varint codec *)

(** C9.  The signed-varint decoder is the zig-zag codec: from the unsigned
    base-128 little-endian varint [u] it yields [u/2] when [u] is even and
    [-(u+1)/2] when [u] is odd; and decoding the encoding of any [x] in the
    range of [int64] yields [x] and leaves the bytes that follow it. *)
Theorem decodeInt_zigzag_roundtrip :
  (forall d u r,
      ReadUvarint (buf d) = ((u, None), r) ->
      decodeInt d
      = Ret (if Z.even u then u / 2 else - ((u + 1) / 2), setBuf r d)) /\
  (forall x rest d,
      minInt64 <= x <= maxInt64 ->
      decodeInt (setBuf (PutVarint x ++ rest) d) = Ret (x, setBuf rest d)).
Proof.
  split.
  - intros d u r H. unfold decodeInt. rewrite ReadVarint_zigzag, H. reflexivity.
  - intros x rest d Hx. unfold decodeInt.
    change (buf (setBuf (PutVarint x ++ rest) d)) with (PutVarint x ++ rest).
    rewrite ReadVarint_PutVarint by exact Hx. reflexivity.
Qed.

Lemma decodeInt_zigzag_roundtrip_witness :
  decodeInt (newDecoder [xe0; x01; x07] None None)
  = Ret (112, newDecoder [x07] None None) /\
  decodeInt (setBuf (PutVarint (-3) ++ [x07]) (newDecoder [] None None))
  = Ret (-3, newDecoder [x07] None None).
Proof.
  split.
  - exact (proj1 decodeInt_zigzag_roundtrip
             (newDecoder [xe0; x01; x07] None None) 224 [x07] eq_refl).
  - apply (proj2 decodeInt_zigzag_roundtrip (-3) [x07] (newDecoder [] None None)).
    unfold minInt64, maxInt64. lia.
Defined.

(** *** The format version *)

(** C5.  When the version decoded from the buffer is not 1, [DecodePlanGist]
    returns the version error; the cursor then stands right after the
    version and the stack is empty: no operator byte was read and no
    operator decoded. *)
Theorem DecodePlanGist_version_mismatch gist tl il b ver r :
  base64_DecodeString gist = inl b ->
  ReadVarint b = ((ver, None), r) ->
  ver <> gistVersion ->
  DecodePlanGist gist tl il = Ret (None, Some (UnsupportedVersion ver)) /\
  decodeBuffer (newDecoder b tl il)
  = Ret ((None, Some (UnsupportedVersion ver)), newDecoder r tl il).
Proof.
  intros Hb Hv Hne.
  assert (decodeBuffer (newDecoder b tl il)
          = Ret ((None, Some (UnsupportedVersion ver)), newDecoder r tl il)) as E.
  { rewrite decodeBuffer_eq. change (buf (newDecoder b tl il)) with b. rewrite Hv.
    destruct (Z.eqb_spec ver gistVersion) as [?|_]; [contradiction|]. reflexivity. }
  split; [|exact E]. unfold DecodePlanGist. rewrite Hb, E. reflexivity.
Qed.

Lemma DecodePlanGist_version_mismatch_witness :
  DecodePlanGist "BAEC" None None = Ret (None, Some (UnsupportedVersion 2)) /\
  decodeBuffer (newDecoder [x04; x01; x02] None None)
  = Ret ((None, Some (UnsupportedVersion 2)), newDecoder [x01; x02] None None).
Proof.
  apply (DecodePlanGist_version_mismatch "BAEC" None None [x04; x01; x02] 2 [x01; x02]).
  - reflexivity.
  - reflexivity.
  - unfold gistVersion. lia.
Defined.

(** *** Check nodes *)

(** C6.  Every node of the error-if-rows operator is taken off the stack as
    soon as it is built and is added to [checks]: the loop goes on with the
    stack that the body decode left.  So when the loop ends, [checks] holds
    nodes of that operator only, and no node on the stack nor any node below
    a check holds one: none was consumed as a child.  With checks,
    [DecodePlanGist] returns a wrapper of the unknown operator whose one
    attribute is the number of checks and whose children are the root and
    the checks in order; without, it returns the root. *)
Theorem DecodePlanGist_checks :
  (forall d r n d1 fuel cs,
      buf d = x2a :: r ->
      decodeOperatorBody errorIfRowsOp (setBuf r d) = Ret ((n, None), d1) ->
      DecodePlanGist_loop (S fuel) cs d
      = DecodePlanGist_loop fuel (cs ++ [Some n]) d1) /\
  (forall gist tl il b rest checks d',
      base64_DecodeString gist = inl b ->
      ReadVarint b = ((gistVersion, None), rest) ->
      DecodePlanGist_loop (S (length rest)) [] (newDecoder rest tl il)
      = Ret (checks, d') ->
      Forall isCheck checks /\
      Forall (fun n => containsCheck n = false) (nodeStack d') /\
      DecodePlanGist gist tl il
      = Ret (match checks with
             | [] => last (nodeStack d')
             | _ :: _ =>
                 Some (mkNode unknownOp
                         {[ "checks"%string := VInt (Z.of_nat (length checks)) ]}
                         (last (nodeStack d') :: checks))
             end, None)).
Proof.
  split.
  - intros d r n d1 fuel cs E B. simpl DecodePlanGist_loop.
    assert (decodeOp d = Ret (errorIfRowsOp, setNodeStack (nodeStack d1 ++ [n]) d1))
      as Eop.
    { rewrite (decodeOp_operator d x2a r E) by discriminate.
      change (byteZ x2a) with errorIfRowsOp. rewrite B.
      apply decodeOperatorBody_Ret in B as (_ & -> & _). reflexivity. }
    rewrite (bind_Ret _ _ _ _ _ Eop).
    change (errorIfRowsOp =? unknownOp) with false.
    change (errorIfRowsOp =? errorIfRowsOp) with true. cbv iota.
    rewrite (bind_Ret _ _ _ _ _
               (popChild_snoc (setNodeStack (nodeStack d1 ++ [n]) d1)
                  (nodeStack d1) n eq_refl)).
    change (setNodeStack (nodeStack d1) (setNodeStack (nodeStack d1 ++ [n]) d1))
      with (setNodeStack (nodeStack d1) d1).
    rewrite setNodeStack_nodeStack. reflexivity.
  - intros gist tl il b rest checks d' Hb Hv Hl.
    pose proof (DecodePlanGist_loop_start rest tl il) as H.
    rewrite Hl in H. destruct H as [H1 H2].
    split; [exact H2|]. split; [exact H1|].
    unfold DecodePlanGist. rewrite Hb, decodeBuffer_eq.
    change (buf (newDecoder b tl il)) with b. rewrite Hv.
    change (setBuf rest (newDecoder b tl il)) with (newDecoder rest tl il).
    rewrite Hl. unfold assembleResult.
    destruct checks; reflexivity.
Qed.

Lemma DecodePlanGist_checks_witness :
  exists root check,
    op root = valuesOp /\ op check = errorIfRowsOp /\
    DecodePlanGist "AgIAACoCAAAA" None None
    = Ret (Some (mkNode unknownOp {[ "checks"%string := VInt 1 ]}
                   [Some root; Some check]), None).
Proof.
  pose (rest := [x02; x00; x00; x2a; x02; x00; x00; x00]).
  destruct (DecodePlanGist_loop (S (length rest)) [] (newDecoder rest None None))
    as [[checks d']|msg|] eqn:E; [|vm_compute in E; discriminate..].
  pose proof (proj2 DecodePlanGist_checks "AgIAACoCAAAA" None None (x02 :: rest)
                rest checks d' eq_refl eq_refl E) as (_ & _ & H).
  vm_compute in E. injection E as <- <-.
  eexists. eexists. split; [|split; [|exact H]]; reflexivity.
Defined.

(** *** The stack after a decode *)

(** C4, as the code has it.  After a successful decode the root returned is
    the node on top of the stack when the loop ended, or nil when the stack
    was empty; the nodes below it stay on the stack; and no node of the
    error-if-rows operator is on the stack when the root is popped. *)
Theorem DecodePlanGist_stack b tl il rest checks d' :
  ReadVarint b = ((gistVersion, None), rest) ->
  DecodePlanGist_loop (S (length rest)) [] (newDecoder rest tl il)
  = Ret (checks, d') ->
  exists res,
    decodeBuffer (newDecoder b tl il)
    = Ret ((res, None), setNodeStack (removelast (nodeStack d')) d') /\
    returnedRoot checks res = last (nodeStack d') /\
    Forall (fun n => op n <> errorIfRowsOp) (nodeStack d').
Proof.
  intros Hv Hl.
  pose proof (DecodePlanGist_loop_start rest tl il) as H.
  rewrite Hl in H. destruct H as [H1 _].
  exists (assembleResult checks (nodeStack d')). split; [|split].
  - rewrite decodeBuffer_eq. change (buf (newDecoder b tl il)) with b. rewrite Hv.
    change (setBuf rest (newDecoder b tl il)) with (newDecoder rest tl il).
    rewrite Hl. reflexivity.
  - unfold returnedRoot, assembleResult.
    destruct (0 <? length checks)%nat; reflexivity.
  - eapply Forall_impl; [exact H1|]. intros n Hn.
    apply containsCheck_eq in Hn. tauto.
Qed.

Lemma DecodePlanGist_stack_witness :
  exists res d',
    decodeBuffer (newDecoder [x02; x02; x00; x00; x02; x02; x02; x00] None None)
    = Ret ((res, None), setNodeStack (removelast (nodeStack d')) d') /\
    length (nodeStack d') = 2%nat.
Proof.
  pose (rest := [x02; x00; x00; x02; x02; x02; x00]).
  destruct (DecodePlanGist_loop (S (length rest)) [] (newDecoder rest None None))
    as [[checks d']|msg|] eqn:E; [|vm_compute in E; discriminate..].
  destruct (DecodePlanGist_stack (x02 :: rest) None None rest checks d' eq_refl E)
    as (res & H1 & _ & _).
  exists res, d'. split; [exact H1|].
  vm_compute in E. injection E as <- <-. reflexivity.
Defined.

(** The claim C4 as the specification states it fails: the decode of a
    buffer that holds the version and nothing else succeeds on an empty
    stack, with a nil root; and the decode of two [values] operators
    succeeds and leaves the first of the two nodes on the stack. *)
Lemma DecodePlanGist_stack_counterexample :
  DecodePlanGist "Ag==" None None = Ret (None, None) /\
  (exists checks d',
      DecodePlanGist_loop 1 [] (newDecoder [] None None) = Ret (checks, d') /\
      nodeStack d' = []) /\
  (exists first second d'',
      decodeBuffer (newDecoder [x02; x02; x00; x00; x02; x02; x02; x00] None None)
      = Ret ((Some second, None), d'') /\
      nodeStack d'' = [first] /\
      DecodePlanGist "AgIAAAICAgA=" None None = Ret (Some second, None)).
Proof.
  split; [reflexivity|]. split.
  - eexists. eexists. split; reflexivity.
  - eexists. eexists. eexists. split; [|split]; reflexivity.
Qed.

(** *** The children that an operator declares *)

Lemma declaredChildren_le o k : declaredChildren o = Some k -> (k <= 2)%nat.
Proof.
  unfold declaredChildren.
  repeat match goal with |- context [if ?b then _ else _] => destruct b end;
    intros H; inversion H; lia.
Qed.

(** *** Binary operators *)

(** C7.  The body decode of a binary operator on a stack that ends with
    [l] and then [r] pops [r], the top, first and [l] second, and attaches
    them as [[l, r]], the node pushed earlier on the left. *)
Theorem decodeOperatorBody_binary o d s l r n e d' :
  In o binaryOperators ->
  nodeStack d = s ++ [l; r] ->
  decodeOperatorBody o d = Ret ((n, e), d') ->
  children n = [Some l; Some r] /\ nodeStack d' = s /\
  popChild d = Ret (Some r, setNodeStack (s ++ [l]) d) /\
  popChild (setNodeStack (s ++ [l]) d) = Ret (Some l, setNodeStack s d).
Proof.
  intros Ho Hs H.
  apply decodeOperatorBody_Ret in H as (_ & _ & Hpop & _).
  assert (childrenPopped o (nodeStack d) = 2%nat) as Hk.
  { unfold binaryOperators in Ho. simpl in Ho.
    destruct Ho as [<-|[<-|[<-|[<-|[<-|[]]]]]]; reflexivity. }
  rewrite Hk, Hs in Hpop. simpl in Hpop.
  replace (s ++ [l; r]) with ((s ++ [l]) ++ [r]) in Hpop, Hs
    by (rewrite <- app_assoc; reflexivity).
  rewrite !removelast_last, !last_snoc in Hpop.
  injection Hpop as -> ->.
  split; [reflexivity|]. split; [reflexivity|].
  split.
  - apply popChild_snoc. exact Hs.
  - rewrite (popChild_snoc (setNodeStack (s ++ [l]) d) s l eq_refl). reflexivity.
Qed.

Lemma decodeOperatorBody_binary_witness :
  exists l r n d',
    op l = valuesOp /\ op r = scanOp /\
    decodeOperatorBody hashJoinOp
      (setNodeStack [l; r] (newDecoder [x01; x02; x04; x00; x01] None None))
    = Ret ((n, None), d') /\
    children n = [Some l; Some r] /\ nodeStack d' = [].
Proof.
  pose (l := mkNode valuesOp ∅ []). pose (r := mkNode scanOp ∅ []).
  pose (d := setNodeStack [l; r] (newDecoder [x01; x02; x04; x00; x01] None None)).
  destruct (decodeOperatorBody hashJoinOp d) as [[[n e] d']|msg|] eqn:E;
    [|vm_compute in E; discriminate..].
  pose proof (decodeOperatorBody_binary hashJoinOp d [] l r n e d'
                ltac:(left; reflexivity) eq_refl E) as (Hc & Hs & _ & _).
  exists l, r, n, d'.
  assert (e = None) as -> by (vm_compute in E; congruence).
  split; [reflexivity|]. split; [reflexivity|]. split; [exact E|].
  split; [exact Hc|exact Hs].
Defined.

(** *** Mutation operators *)

(** Two straight-line bodies that make the same calls are equal; the case
    of the operator is selected by computing the comparisons. *)
Ltac same_body :=
  unfold decodeOperatorBody, mutationBody_spec, updateBody, decodeIntSets;
  repeat match goal with
         | |- context [?a =? ?b] =>
             let v := eval vm_compute in (a =? b) in change (a =? b) with v
         end;
  cbn [orb];
  unfold mbind, M_bind;
  repeat (match goal with
          | |- context [match ?c ?d with Ret _ => _ | Panic _ => _ | Diverge => _ end] =>
              destruct (c d) as [[[? ?] ?]|?|] || destruct (c d) as [[? ?]|?|]
          end; try reflexivity).

(** C3, as the code has it.  The body decode of insert, delete and upsert
    reads a table id, then three, two and five integer-sets, then the
    auto-commit boolean; the body decode of update reads the table id only.
    Each of the four pops one child, the top of a stack that is not
    empty. *)
Theorem decodeOperatorBody_mutation :
  (forall d, decodeOperatorBody insertOp d = mutationBody_spec 3 insertOp d) /\
  (forall d, decodeOperatorBody deleteOp d = mutationBody_spec 2 deleteOp d) /\
  (forall d, decodeOperatorBody upsertOp d = mutationBody_spec 5 upsertOp d) /\
  (forall d, decodeOperatorBody updateOp d = updateBody d) /\
  (forall o d s c n e d',
      In o [insertOp; updateOp; deleteOp; upsertOp] ->
      nodeStack d = s ++ [c] ->
      decodeOperatorBody o d = Ret ((n, e), d') ->
      children n = [Some c] /\ nodeStack d' = s).
Proof.
  split; [intros d; same_body|]. split; [intros d; same_body|].
  split; [intros d; same_body|]. split; [intros d; same_body|].
  intros o d s c n e d' Ho Hs H.
  apply decodeOperatorBody_Ret in H as (_ & _ & Hpop & _).
  assert (childrenPopped o (nodeStack d) = 1%nat) as Hk.
  { simpl in Ho. destruct Ho as [<-|[<-|[<-|[<-|[]]]]]; reflexivity. }
  rewrite Hk, Hs in Hpop. simpl in Hpop.
  rewrite removelast_last, last_snoc in Hpop.
  injection Hpop as -> ->. split; reflexivity.
Qed.

Lemma decodeOperatorBody_mutation_witness :
  exists c n d',
    decodeOperatorBody updateOp
      (setNodeStack [c] (newDecoder [xe0; x01; x00; x00; x05] None None))
    = Ret ((n, None), d') /\
    children n = [Some c] /\ nodeStack d' = [] /\ buf d' = [x00; x00; x05].
Proof.
  pose (c := mkNode renderOp ∅ []).
  pose (d := setNodeStack [c] (newDecoder [xe0; x01; x00; x00; x05] None None)).
  destruct (decodeOperatorBody updateOp d) as [[[n e] d']|msg|] eqn:E;
    [|vm_compute in E; discriminate..].
  pose proof (proj2 (proj2 (proj2 (proj2 decodeOperatorBody_mutation)))
                updateOp d [] c n e d'
                ltac:(right; left; reflexivity) eq_refl E) as (Hc & Hs).
  exists c, n, d'.
  assert (e = None /\ buf d' = [x00; x00; x05]) as [-> Hb].
  { pose proof E as E'. vm_compute in E'. injection E' as _ <- <-.
    split; reflexivity. }
  split; [exact E|]. split; [exact Hc|]. split; [exact Hs|exact Hb].
Defined.

(** The claim C3 as the specification states it fails for update: on a
    buffer that holds a table id and nothing else the body decode of update
    returns, having read the table id only, while a body that went on to
    read integer-sets and an auto-commit boolean, however many sets, would
    fail on the end of the buffer. *)
Lemma decodeOperatorBody_mutation_counterexample :
  decodeOperatorBody updateOp (newDecoder [xe0; x01] None None)
  = Ret ((mkNode updateOp
            (<["table_id" := VInt64 112]> (<["table" := VString "?"]> ∅))
            [None], None),
         newDecoder [] None None) /\
  (forall k, mutationBody_spec k updateOp (newDecoder [xe0; x01] None None)
             = Panic "decode error: EOF").
Proof.
  split; [reflexivity|]. intros [|k]; reflexivity.
Qed.

(** *** The formatted scan node *)


Lemma noSpace_string_of_uint (d : Decimal.uint) :
  noSpace (NilEmpty.string_of_uint d).
Proof. induction d; simpl; auto. Qed.

Lemma Sprint_int_pos (k : Z) :
  0 < k -> noSpace (Sprint_int k) /\ Sprint_int k <> ""%string.
Proof.
  intros Hk. destruct k as [|p|p]; try lia.
  unfold Sprint_int, NilZero.string_of_int, NilZero.string_of_uint. simpl Z.to_int.
  destruct (Pos.to_uint p) as [|u|u|u|u|u|u|u|u|u|u];
    (split; [|discriminate]);
    first [ exact (conj eq_refl I) | apply (noSpace_string_of_uint (Decimal.D0 u))
          | apply (noSpace_string_of_uint (Decimal.D1 u))
          | apply (noSpace_string_of_uint (Decimal.D2 u))
          | apply (noSpace_string_of_uint (Decimal.D3 u))
          | apply (noSpace_string_of_uint (Decimal.D4 u))
          | apply (noSpace_string_of_uint (Decimal.D5 u))
          | apply (noSpace_string_of_uint (Decimal.D6 u))
          | apply (noSpace_string_of_uint (Decimal.D7 u))
          | apply (noSpace_string_of_uint (Decimal.D8 u))
          | apply (noSpace_string_of_uint (Decimal.D9 u)) ].
Qed.

Lemma strings_Contains_space (ds rest : string) :
  strings_Contains (ds +:+ String " " rest) " " = true.
Proof.
  induction ds as [|c ds IH]; simpl.
  - destruct rest; reflexivity.
  - rewrite IH. apply orb_true_r.
Qed.

Lemma strings_Fields_aux_word (ds : string) :
  noSpace ds -> strings_Fields_aux (ds +:+ " spans") = (ds, ["spans"%string]).
Proof.
  induction ds as [|c ds IH]; simpl.
  - reflexivity.
  - intros [Hc Hds]. rewrite (IH Hds), Hc. reflexivity.
Qed.

(** The attribute [spans] of a scan with spans has two tokens, the number
    first, and contains a space. *)
Lemma spansAttr_tokens (k : Z) :
  0 < k ->
  strings_Contains (spansAttr k) " " = true /\
  exists unit, strings_Fields (spansAttr k) = [Sprint_int k; unit].
Proof.
  intros Hk. unfold spansAttr.
  destruct (Z.eqb_spec k 1) as [->|Hne].
  - split; [reflexivity|]. exists "span"%string. reflexivity.
  - destruct (Sprint_int_pos k Hk) as [Hns Hne'].
    split; [apply strings_Contains_space|].
    exists "spans"%string. unfold strings_Fields.
    rewrite (strings_Fields_aux_word _ Hns).
    destruct (Sprint_int k); [contradiction|reflexivity].
Qed.

Lemma decodeScanParams_Ret d params d' :
  decodeScanParams d = Ret (params, d') ->
  exists numSpans numInvertedSpans hardLimit,
    params = scanParams numSpans numInvertedSpans hardLimit.
Proof.
  unfold decodeScanParams. intros H.
  apply bind_Ret_inv in H as (? & d1 & _ & H).
  apply bind_Ret_inv in H as (numSpans & d2 & _ & H).
  apply bind_Ret_inv in H as (numInvertedSpans & d3 & _ & H).
  apply bind_Ret_inv in H as (hardLimit & d4 & _ & H).
  injection H as <- <-. exists numSpans, numInvertedSpans, hardLimit. reflexivity.
Qed.

(** The scan node that the decoder builds. *)
Lemma decodeOperatorBody_scan_Ret d n e d' :
  decodeOperatorBody scanOp d = Ret ((n, e), d') ->
  exists tableID tableName indexID indexName numSpans numInvertedSpans hardLimit,
    n = mkNode scanOp
          (scanParams numSpans numInvertedSpans hardLimit ∪
           <["index_id" := VInt64 indexID]>
             (<["table_id" := VInt64 tableID]>
                (<["index" := VString indexName]>
                   (<["table" := VString tableName]> ∅))))
          [].
Proof.
  intros H.
  change (decodeOperatorBody scanOp d) with
    (('(tableID, tableName) ← decodeTable;
      '(indexID, indexName) ← decodeIndex tableID;
      params ← decodeScanParams;
      mret (mkNode scanOp
              (params ∪
               <["index_id" := VInt64 indexID]>
                 (<["table_id" := VInt64 tableID]>
                    (<["index" := VString indexName]>
                       (<["table" := VString tableName]> ∅))))
              [], @None error)) d) in H.
  apply bind_Ret_inv in H as ([tableID tableName] & d1 & _ & H).
  apply bind_Ret_inv in H as ([indexID indexName] & d2 & _ & H).
  apply bind_Ret_inv in H as (params & d3 & Hp & H).
  apply decodeScanParams_Ret in Hp as (ns & ni & hl & ->).
  injection H as <- <- <-.
  exists tableID, tableName, indexID, indexName, ns, ni, hl. reflexivity.
Qed.

Lemma scan_args_lookup tableID tableName indexID indexName ns ni hl :
  let a := scanParams ns ni hl ∪
           <["index_id" := VInt64 indexID]>
             (<["table_id" := VInt64 tableID]>
                (<["index" := VString indexName]>
                   (<["table" := VString tableName]> ∅))) in
  a !! "table"%string = Some (VString tableName) /\
  a !! "index"%string = Some (VString indexName) /\
  a !! "spans"%string = (if 0 <? ns then Some (VString (spansAttr ns)) else None) /\
  a !! "limit"%string
  = (if negb (hl =? 0) then Some (VString "limited") else None).
Proof.
  unfold scanParams, spansAttr. cbv zeta.
  destruct (0 <? ns), (ns =? 1), (0 <? ni), (negb (hl =? 0));
    repeat split; rewrite lookup_union;
    repeat first [ rewrite lookup_insert_eq | rewrite lookup_insert_ne by discriminate
                 | rewrite lookup_empty ];
    reflexivity.
Qed.










(** *** The example of the repository *)

(** The gist of the README and of the tests decodes to
    update, simple project, render, scan, and prints as the README shows. *)
Example DecodePlanGist_README :
  exists update project render scan,
    DecodePlanGist "AgHgAQIA/wMCAAAHFAUUIeABAAAFDAYM" None None
    = Ret (Some update, None) /\
    op update = updateOp /\ children update = [Some project] /\
    op project = simpleProjectOp /\ children project = [Some render] /\
    op render = renderOp /\ children render = [Some scan] /\
    op scan = scanOp /\ children scan = [] /\
    FormatPlan (Some update)
    = Ret ("  • update" +:+ nl +:+
           "  │ table: ?" +:+ nl +:+
           "  │ set" +:+ nl +:+
           "  │" +:+ nl +:+
           "  └── • render" +:+ nl +:+
           "      │" +:+ nl +:+
           "      └── • scan" +:+ nl +:+
           "            table: ?@?" +:+ nl +:+
           "            spans: 1+ spans" +:+ nl).
Proof.
  do 4 eexists. split; [vm_compute; reflexivity|].
  repeat (split; [reflexivity|]). vm_compute. reflexivity.
Qed.

(** ** Bytes after the end of a decode *)

Lemma ReadUvarint_loop_ext (todo : nat) (i x s : Z) (r r' ext : list byte) u :
  ReadUvarint_loop todo i x s r = ((u, None), r') ->
  ReadUvarint_loop todo i x s (r ++ ext) = ((u, None), r' ++ ext).
Proof.
  revert i x s r. induction todo as [|todo IH]; intros i x s r; simpl; [discriminate|].
  destruct r as [|b r]; simpl; [destruct (0 <? i); discriminate|].
  destruct (byteZ b <? 128).
  - destruct ((i =? MaxVarintLen64 - 1) && (1 <? byteZ b)); [discriminate|].
    intros H. injection H as <- <-. reflexivity.
  - apply IH.
Qed.

Lemma ReadUvarint_ext (r r' ext : list byte) u :
  ReadUvarint r = ((u, None), r') -> ReadUvarint (r ++ ext) = ((u, None), r' ++ ext).
Proof. apply ReadUvarint_loop_ext. Qed.

Lemma ReadVarint_ext (r r' ext : list byte) x :
  ReadVarint r = ((x, None), r') -> ReadVarint (r ++ ext) = ((x, None), r' ++ ext).
Proof.
  rewrite !ReadVarint_zigzag.
  destruct (ReadUvarint r) as [[u [err|]] r0] eqn:E; simpl; [discriminate|].
  intros H. injection H as <- <-.
  rewrite (ReadUvarint_ext _ _ ext _ E). reflexivity.
Qed.

Lemma stable_ret {A : Type} (a : A) : stable (mret a).
Proof. intros d a' d' ext H. injection H as <- <-. reflexivity. Qed.

Lemma stable_bind {A B : Type} (c : M A) (f : A -> M B) :
  stable c -> (forall a, stable (f a)) -> stable (c ≫= f).
Proof.
  intros Hc Hf d b d' ext H.
  apply bind_Ret_inv in H as (a & d1 & H1 & H2).
  rewrite (bind_Ret _ _ _ _ _ (Hc _ _ _ ext H1)). apply Hf. exact H2.
Qed.

(** A continuation of [getDecoder] that does not look at the buffer. *)
Lemma stable_getDecoder_bind {B : Type} (f : planGistDecoder -> M B) :
  (forall d ext, f (extend ext d) = f d) ->
  (forall d0, stable (f d0)) -> stable (getDecoder ≫= f).
Proof.
  intros Hf Hs d b d' ext H.
  change ((getDecoder ≫= f) d) with (f d d) in H.
  change ((getDecoder ≫= f) (extend ext d)) with (f (extend ext d) (extend ext d)).
  rewrite Hf. apply Hs. exact H.
Qed.

Lemma stable_decodeInt : stable decodeInt.
Proof.
  intros d a d' ext H. apply decodeInt_Ret in H as (r & E & ->).
  unfold decodeInt, extend. cbn [buf setBuf].
  rewrite (ReadVarint_ext _ _ ext _ E). reflexivity.
Qed.

Lemma stable_decodeUvarint : stable decodeUvarint.
Proof.
  intros d a d' ext H. apply decodeUvarint_Ret in H as (r & E & ->).
  unfold decodeUvarint, extend. cbn [buf setBuf].
  rewrite (ReadUvarint_ext _ _ ext _ E). reflexivity.
Qed.

Lemma stable_decodeByte : stable decodeByte.
Proof.
  intros d a d' ext H. apply decodeByte_Ret in H as [E ->].
  unfold decodeByte, extend. rewrite E. reflexivity.
Qed.

Lemma stable_panic {A : Type} (msg : string) : stable (@panic A msg).
Proof. intros d a d' ext H. discriminate H. Qed.

Create HintDb stable.
#[local] Hint Resolve stable_ret stable_panic stable_decodeInt stable_decodeUvarint
  stable_decodeByte : stable.

Ltac straight_stable :=
  repeat first
    [ solve [eauto with stable] | progress intros | progress cbv zeta
    | lazymatch goal with
      | |- stable (getDecoder ≫= _) =>
          apply stable_getDecoder_bind; [reflexivity|]
      | |- stable (_ ≫= _) => apply stable_bind
      | |- stable (if ?b then _ else _) => destruct b
      | |- stable (match ?x with (_, _) => _ end) => destruct x
      | |- stable (match ?x with Some _ => _ | None => _ end) => destruct x
      end ].

Lemma stable_decodeBool : stable decodeBool.
Proof. unfold decodeBool. straight_stable. Qed.

Lemma stable_decodeTable : stable decodeTable.
Proof. unfold decodeTable, decodeID. straight_stable. Qed.

Lemma stable_decodeIndex t : stable (decodeIndex t).
Proof. unfold decodeIndex, decodeID. straight_stable. Qed.

Lemma stable_decodeNodeColumnOrdinals : stable decodeNodeColumnOrdinals.
Proof. unfold decodeNodeColumnOrdinals, make_intSlice. straight_stable. Qed.

Lemma stable_decodeJoinType : stable decodeJoinType.
Proof. unfold decodeJoinType. straight_stable. Qed.

(** The loop of [decodeIntSet] returns the same with more fuel and with
    bytes added at the end of the buffer. *)
Lemma decodeIntSet_loop_ext (fuel fuel' : nat) (i len : Z) d u d' ext :
  decodeIntSet_loop fuel i len d = Ret (u, d') ->
  (fuel <= fuel')%nat ->
  decodeIntSet_loop fuel' i len (extend ext d) = Ret (u, extend ext d').
Proof.
  revert fuel' i d. induction fuel as [|fuel IH]; intros fuel' i d H Hle;
    [discriminate|].
  destruct fuel' as [|fuel']; [lia|]. simpl in *.
  destruct (i <? len).
  - apply bind_Ret_inv in H as (a & d1 & H1 & H).
    apply bind_Ret_inv in H as (b & d2 & H2 & H).
    rewrite (bind_Ret _ _ _ _ _ (stable_decodeUvarint _ _ _ ext H1)).
    rewrite (bind_Ret _ _ _ _ _ (stable_decodeUvarint _ _ _ ext H2)).
    apply IH; [exact H|lia].
  - injection H as <- <-. reflexivity.
Qed.

Lemma stable_decodeIntSet : stable decodeIntSet.
Proof.
  unfold decodeIntSet. apply stable_bind; [apply stable_decodeUvarint|].
  intros len. destruct (len =? 0); [straight_stable|].
  intros d u d' ext H.
  change ((getDecoder ≫= λ d0, decodeIntSet_loop (S (length (buf d0))) 0 len) d)
    with (decodeIntSet_loop (S (length (buf d))) 0 len d) in H.
  change ((getDecoder ≫= λ d0, decodeIntSet_loop (S (length (buf d0))) 0 len)
            (extend ext d))
    with (decodeIntSet_loop (S (length (buf (extend ext d)))) 0 len (extend ext d)).
  apply (decodeIntSet_loop_ext _ _ _ _ _ _ _ _ H).
  unfold extend. cbn [buf setBuf]. rewrite length_app. lia.
Qed.

#[local] Hint Resolve stable_decodeBool stable_decodeTable stable_decodeIndex
  stable_decodeNodeColumnOrdinals stable_decodeJoinType stable_decodeIntSet : stable.

Lemma stable_decodeScanParams : stable decodeScanParams.
Proof. unfold decodeScanParams. straight_stable. Qed.

Lemma stable_appendPopChild n : stable (appendPopChild n).
Proof.
  intros d a d' ext H. rewrite appendPopChild_eq in *.
  injection H as <- <-. reflexivity.
Qed.

Lemma stable_appendLeftRight n : stable (appendLeftRight n).
Proof.
  intros d a d' ext H. rewrite appendLeftRight_eq in *.
  injection H as <- <-. reflexivity.
Qed.

#[local] Hint Resolve stable_decodeScanParams stable_appendPopChild
  stable_appendLeftRight : stable.

Lemma stable_decodeOperatorBody o : stable (decodeOperatorBody o).
Proof.
  unfold decodeOperatorBody, decodeRows, decodeResultColumns. straight_stable.
Qed.

Lemma stable_popChild : stable popChild.
Proof.
  intros d a d' ext H. rewrite popChild_eq in *. injection H as <- <-. reflexivity.
Qed.

(** Away from the end of the buffer [decodeOp] is stable too. *)
Lemma decodeOp_ext d o d' ext :
  decodeOp d = Ret (o, d') -> buf d <> [] ->
  decodeOp (extend ext d) = Ret (o, extend ext d').
Proof.
  intros H Hne.
  apply decodeOp_Ret in H
    as [(_ & E & _)|[(-> & r & E & ->)|(b & r & n & d1 & E & Eo & Hnz & Hop & B & ->)]].
  - contradiction.
  - apply (decodeOp_terminator (extend ext d) (r ++ ext)).
    unfold extend. cbn [buf setBuf]. rewrite E. reflexivity.
  - assert (buf (extend ext d) = b :: (r ++ ext)) as E'
      by (unfold extend; cbn [buf setBuf]; rewrite E; reflexivity).
    rewrite (decodeOp_operator (extend ext d) b (r ++ ext) E')
      by (rewrite <- Eo; exact Hnz).
    rewrite <- Eo.
    change (setBuf (r ++ ext) (extend ext d)) with (extend ext (setBuf r d)).
    rewrite (stable_decodeOperatorBody o _ _ _ ext B). rewrite Hop. reflexivity.
Qed.

(** If the loop returns on a buffer, it returns the same checks and the same
    stack on that buffer followed by a terminator, with any fuel that is not
    less. *)
Lemma DecodePlanGist_loop_terminated (fuel fuel' : nat) checks d checks' d' ext :
  DecodePlanGist_loop fuel checks d = Ret (checks', d') ->
  (fuel <= fuel')%nat ->
  exists d'',
    DecodePlanGist_loop fuel' checks (extend (x00 :: ext) d) = Ret (checks', d'') /\
    nodeStack d'' = nodeStack d'.
Proof.
  revert fuel' checks d. induction fuel as [|fuel IH]; intros fuel' checks d H Hle;
    [discriminate|].
  destruct fuel' as [|fuel']; [lia|]. simpl in H. simpl DecodePlanGist_loop.
  apply bind_Ret_inv in H as (o & d1 & Hop & H).
  destruct (buf d) as [|b0 r0] eqn:E.
  - rewrite (decodeOp_eof d E) in Hop. injection Hop as <- <-.
    simpl in H. injection H as <- <-.
    assert (buf (extend (x00 :: ext) d) = x00 :: ext) as E'
      by (unfold extend; cbn [buf setBuf]; rewrite E; reflexivity).
    rewrite (bind_Ret _ _ _ _ _ (decodeOp_terminator _ _ E')).
    eexists. split; reflexivity.
  - assert (buf d <> []) as Hne by (rewrite E; discriminate).
    rewrite (bind_Ret _ _ _ _ _ (decodeOp_ext d o d1 (x00 :: ext) Hop Hne)).
    destruct (o =? unknownOp).
    + injection H as <- <-. eexists. split; reflexivity.
    + destruct (o =? errorIfRowsOp).
      * apply bind_Ret_inv in H as (c & d2 & Hpop & H).
        rewrite (bind_Ret _ _ _ _ _ (stable_popChild _ _ _ (x00 :: ext) Hpop)).
        apply IH; [exact H|lia].
      * apply IH; [exact H|lia].
Qed.

(** If the decode of a buffer returns, the decode of that buffer followed by
    a terminator returns the same. *)
Lemma decodeBuffer_terminated b tl il res d' ext :
  decodeBuffer (newDecoder b tl il) = Ret (res, d') ->
  exists d'',
    decodeBuffer (newDecoder (b ++ x00 :: ext) tl il) = Ret (res, d'').
Proof.
  rewrite !decodeBuffer_eq.
  change (buf (newDecoder b tl il)) with b.
  change (buf (newDecoder (b ++ x00 :: ext) tl il)) with (b ++ x00 :: ext).
  destruct (ReadVarint b) as [[ver [err|]] r] eqn:EV; [discriminate|].
  rewrite (ReadVarint_ext _ _ (x00 :: ext) _ EV).
  destruct (negb (ver =? gistVersion)).
  - intros H. injection H as <- <-. eexists. reflexivity.
  - change (setBuf r (newDecoder b tl il)) with (newDecoder r tl il).
    change (setBuf (r ++ x00 :: ext) (newDecoder (b ++ x00 :: ext) tl il))
      with (extend (x00 :: ext) (newDecoder r tl il)).
    destruct (DecodePlanGist_loop (S (length r)) [] (newDecoder r tl il))
      as [[checks d1]|msg|] eqn:EL; [|discriminate|discriminate].
    intros H. injection H as <- <-.
    destruct (DecodePlanGist_loop_terminated _ (S (length (r ++ x00 :: ext)))
                _ _ _ _ ext EL) as (d'' & EL' & Hs).
    { rewrite length_app. lia. }
    rewrite EL', Hs. eexists. reflexivity.
Qed.

(** *** The missing terminator *)



(** *** Stack underflow *)

Lemma stackBlind_ret {A : Type} (a : A) : stackBlind (mret a).
Proof. intros d s. reflexivity. Qed.

Lemma stackBlind_panic {A : Type} (msg : string) : stackBlind (@panic A msg).
Proof. intros d s. reflexivity. Qed.

Lemma stackBlind_bind {A B : Type} (c : M A) (f : A -> M B) :
  stackBlind c -> (forall a, stackBlind (f a)) -> stackBlind (c ≫= f).
Proof.
  intros Hc Hf d s. unfold mbind, M_bind. rewrite (Hc d s).
  destruct (c d) as [[a d1]|msg|]; [apply Hf|reflexivity|reflexivity].
Qed.

(** A continuation of [getDecoder] that does not look at the stack. *)
Lemma stackBlind_getDecoder_bind {B : Type} (f : planGistDecoder -> M B) :
  (forall d s, f (setNodeStack s d) = f d) ->
  (forall d0, stackBlind (f d0)) -> stackBlind (getDecoder ≫= f).
Proof.
  intros Hf Hs d s.
  change ((getDecoder ≫= f) (setNodeStack s d))
    with (f (setNodeStack s d) (setNodeStack s d)).
  change ((getDecoder ≫= f) d) with (f d d).
  rewrite Hf. apply Hs.
Qed.

Lemma stackBlind_decodeInt : stackBlind decodeInt.
Proof.
  intros d s. unfold decodeInt. cbn [buf setNodeStack].
  destruct (ReadVarint (buf d)) as [[v [e|]] r]; reflexivity.
Qed.

Lemma stackBlind_decodeUvarint : stackBlind decodeUvarint.
Proof.
  intros d s. unfold decodeUvarint. cbn [buf setNodeStack].
  destruct (ReadUvarint (buf d)) as [[v [e|]] r]; reflexivity.
Qed.

Lemma stackBlind_decodeByte : stackBlind decodeByte.
Proof.
  intros d s. unfold decodeByte. cbn [buf setNodeStack].
  destruct (Reader_ReadByte (buf d)) as [[v [e|]] r]; reflexivity.
Qed.

Create HintDb stackBlind.
#[local] Hint Resolve stackBlind_ret stackBlind_panic stackBlind_decodeInt
  stackBlind_decodeUvarint stackBlind_decodeByte : stackBlind.

Ltac straight_stackBlind :=
  repeat first
    [ solve [eauto with stackBlind] | progress intros | progress cbv zeta
    | lazymatch goal with
      | |- stackBlind (getDecoder ≫= _) =>
          apply stackBlind_getDecoder_bind; [reflexivity|]
      | |- stackBlind (_ ≫= _) => apply stackBlind_bind
      | |- stackBlind (if ?b then _ else _) => destruct b
      | |- stackBlind (match ?x with (_, _) => _ end) => destruct x
      | |- stackBlind (match ?x with Some _ => _ | None => _ end) => destruct x
      end ].

Lemma stackBlind_decodeBool : stackBlind decodeBool.
Proof. unfold decodeBool. straight_stackBlind. Qed.

Lemma stackBlind_decodeTable : stackBlind decodeTable.
Proof. unfold decodeTable, decodeID. straight_stackBlind. Qed.

Lemma stackBlind_decodeIndex t : stackBlind (decodeIndex t).
Proof. unfold decodeIndex, decodeID. straight_stackBlind. Qed.

Lemma stackBlind_decodeNodeColumnOrdinals : stackBlind decodeNodeColumnOrdinals.
Proof. unfold decodeNodeColumnOrdinals, make_intSlice. straight_stackBlind. Qed.

Lemma stackBlind_decodeJoinType : stackBlind decodeJoinType.
Proof. unfold decodeJoinType. straight_stackBlind. Qed.

Lemma stackBlind_decodeIntSet_loop fuel i len :
  stackBlind (decodeIntSet_loop fuel i len).
Proof.
  revert i. induction fuel as [|fuel IH]; intros i; simpl.
  - intros d s. reflexivity.
  - destruct (i <? len); [|apply stackBlind_ret].
    apply stackBlind_bind; [apply stackBlind_decodeUvarint|]. intros _.
    apply stackBlind_bind; [apply stackBlind_decodeUvarint|]. intros _. apply IH.
Qed.

Lemma stackBlind_decodeIntSet : stackBlind decodeIntSet.
Proof.
  unfold decodeIntSet. apply stackBlind_bind; [apply stackBlind_decodeUvarint|].
  intros len. destruct (len =? 0); [straight_stackBlind|].
  apply stackBlind_getDecoder_bind; [reflexivity|].
  intros d0. apply stackBlind_decodeIntSet_loop.
Qed.

#[local] Hint Resolve stackBlind_decodeBool stackBlind_decodeTable
  stackBlind_decodeIndex stackBlind_decodeNodeColumnOrdinals
  stackBlind_decodeJoinType stackBlind_decodeIntSet : stackBlind.

Lemma stackBlind_decodeScanParams : stackBlind decodeScanParams.
Proof. unfold decodeScanParams. straight_stackBlind. Qed.

#[local] Hint Resolve stackBlind_decodeScanParams : stackBlind.

Lemma pops_bind {A : Type} (c : M A) (f : A -> M (Node * option error)) k :
  stackBlind c -> (forall a, pops k (f a)) -> pops k (c ≫= f).
Proof.
  intros Hc Hf d s. unfold mbind, M_bind. rewrite (Hc d s).
  destruct (c d) as [[a d1]|msg|]; [apply Hf|reflexivity|reflexivity].
Qed.

Lemma pops_ret n e : children n = [] -> pops 0 (mret (n, e)).
Proof. intros Hc d s. destruct n as [o a cs]. simpl in Hc. subst cs. reflexivity. Qed.

Lemma pops_appendPopChild n e :
  children n = [] -> pops 1 (n' ← appendPopChild n; mret (n', e)).
Proof.
  intros Hc d s. unfold mbind, M_bind. rewrite !appendPopChild_eq.
  destruct n as [o a cs]. simpl in Hc. subst cs. reflexivity.
Qed.

Lemma pops_appendLeftRight n e :
  children n = [] -> pops 2 (n' ← appendLeftRight n; mret (n', e)).
Proof.
  intros Hc d s. unfold mbind, M_bind. rewrite !appendLeftRight_eq.
  destruct n as [o a cs]. simpl in Hc. subst cs. reflexivity.
Qed.

Ltac no_children :=
  repeat match goal with
         | |- context [if ?b then _ else _] => destruct b
         end;
  reflexivity.

Ltac straight_pops :=
  repeat first
    [ progress intros | progress cbv zeta
    | lazymatch goal with
      | |- pops _ (appendPopChild _ ≫= _) => apply pops_appendPopChild; no_children
      | |- pops _ (appendLeftRight _ ≫= _) => apply pops_appendLeftRight; no_children
      | |- pops _ (mret _) => apply pops_ret; no_children
      | |- pops _ (_ ≫= _) => apply pops_bind; [solve [eauto with stackBlind]|]
      | |- pops _ (match ?x with (_, _) => _ end) => destruct x
      end ].

(** The body decode of an operator that has a case pops the children it
    declares, whatever it has read. *)
Lemma pops_decodeOperatorBody o k :
  declaredChildren o = Some k -> pops k (decodeOperatorBody o).
Proof.
  unfold decodeOperatorBody, decodeRows, decodeResultColumns, declaredChildren.
  intros H.
  repeat match type of H with
         | context [o =? ?c] =>
             destruct (Z.eqb_spec o c); cbn [orb] in H |- *
         end.
  all: try discriminate H.
  all: injection H as <-.
  all: repeat match goal with E : _ <> _ |- _ => clear E end.
  all: subst o.
  all: repeat match goal with
         | |- context [?a =? ?b] =>
             let v := eval vm_compute in (a =? b) in change (a =? b) with v
         end.
  all: cbn [orb].
  all: straight_pops.
Qed.

(** The body decode on another stack: the same reads, the same panic if
    one fails, the same attributes; the children are those that the pops
    find on that stack. *)
Lemma decodeOperatorBody_stack o d s :
  decodeOperatorBody o (setNodeStack s d)
  = match decodeOperatorBody o d with
    | Ret ((n, _), d') =>
        Ret ((mkNode o (args n) (fst (popChildren (childrenPopped o s) s)), None),
             setNodeStack (snd (popChildren (childrenPopped o s) s)) d')
    | Panic msg => Panic msg
    | Diverge => Diverge
    end.
Proof.
  unfold childrenPopped. destruct (declaredChildren o) as [k|] eqn:Ek.
  - rewrite (pops_decodeOperatorBody o k Ek d s).
    destruct (decodeOperatorBody o d) as [[[n e] d']|msg|] eqn:E; try reflexivity.
    apply decodeOperatorBody_Ret in E as (-> & -> & _). reflexivity.
  - revert Ek. unfold decodeOperatorBody, declaredChildren. intros H.
    repeat match type of H with
           | context [o =? ?c] =>
               destruct (Z.eqb_spec o c); cbn [orb] in H |- *
           end.
    all: try discriminate H.
    change ((getDecoder ≫= ?f) ?x) with (f x x). cbv beta.
    cbn [nodeStack setNodeStack].
    destruct (0 <? length s)%nat, (0 <? length (nodeStack d))%nat;
      unfold mbind, M_bind; rewrite ?appendPopChild_eq; reflexivity.
Qed.

Lemma popChildren_short (k : nat) (s : list Node) :
  (k <= 2)%nat -> (length s < k)%nat ->
  popChildren k s = (replicate (k - length s) None ++ map Some s, []).
Proof.
  intros Hk Hs.
  destruct s as [|x [|y s]]; simpl in Hs; destruct k as [|[|[|k]]];
    try lia; reflexivity.
Qed.

Lemma declaredChildren_operator o k :
  declaredChildren o = Some k -> o <> unknownOp.
Proof. intros H ->. vm_compute in H. discriminate H. Qed.

(** [decodeOp] on another stack: the same operator or the same panic. *)
Lemma decodeOp_other_stack d s :
  match decodeOp d, decodeOp (setNodeStack s d) with
  | Ret (o, d1), Ret (o', d1') => o = o' /\ exists s', d1' = setNodeStack s' d1
  | Panic msg, Panic msg' => msg = msg'
  | Diverge, Diverge => True
  | _, _ => False
  end.
Proof.
  destruct (buf d) as [|b r] eqn:E.
  - rewrite (decodeOp_eof d E), (decodeOp_eof (setNodeStack s d) E).
    split; [reflexivity|]. exists s. reflexivity.
  - destruct (Z.eq_dec (byteZ b) 0) as [Hz|Hnz].
    + apply byteZ_0 in Hz. subst b.
      rewrite (decodeOp_terminator d r E),
        (decodeOp_terminator (setNodeStack s d) r E).
      split; [reflexivity|]. exists s. reflexivity.
    + rewrite (decodeOp_operator d b r E Hnz),
        (decodeOp_operator (setNodeStack s d) b r E Hnz).
      change (setBuf r (setNodeStack s d)) with (setNodeStack s (setBuf r d)).
      rewrite decodeOperatorBody_stack.
      destruct (decodeOperatorBody (byteZ b) (setBuf r d))
        as [[[n e] d']|msg|] eqn:B; [|reflexivity|exact I].
      apply decodeOperatorBody_Ret in B as (_ & -> & _).
      split; [reflexivity|]. eexists. reflexivity.
Qed.

(** Whether the loop of [DecodePlanGist] fails does not depend on the
    stack, nor on the checks collected. *)
Lemma DecodePlanGist_loop_other_stack (fuel : nat) checks1 checks2 d s msg :
  DecodePlanGist_loop fuel checks1 (setNodeStack s d) = Panic msg <->
  DecodePlanGist_loop fuel checks2 d = Panic msg.
Proof.
  revert checks1 checks2 d s.
  induction fuel as [|fuel IH]; intros checks1 checks2 d s; [reflexivity|].
  cbn [DecodePlanGist_loop]. unfold mbind at 1 3, M_bind at 1 3.
  pose proof (decodeOp_other_stack d s) as H.
  destruct (decodeOp d) as [[o d1]|m|], (decodeOp (setNodeStack s d))
    as [[o' d1']|m'|]; try contradiction.
  - destruct H as [<- [s' ->]].
    destruct (o =? unknownOp); [split; discriminate|].
    destruct (o =? errorIfRowsOp); [|apply IH].
    rewrite (bind_Ret _ _ _ _ _ (popChild_eq _)),
      (bind_Ret _ _ _ _ _ (popChild_eq d1)).
    apply (IH _ _ (setNodeStack (removelast (nodeStack d1)) d1)
             (removelast s')).
  - subst m'. reflexivity.
  - reflexivity.
Qed.

(** C1, as the code has it.  [popChild] on an empty stack returns nil and
    fails nothing.  Whether the body decode of an operator fails does not
    depend on the stack at all: it panics on one stack exactly when it
    panics on any other.  So when the body decode of an operator that
    declares [k] children runs on a stack [s] of fewer than [k] nodes, and
    its reads succeed, it returns: the node gets nil for each missing child,
    before the nodes that were there, no error is reported and the stack is
    left empty; [decodeOp] then pushes that node and returns the operator,
    and the loop goes on.  For every operator that declares children there
    is a gist on which [DecodePlanGist] underflows in this way and returns a
    tree whose node has only nil children, and no error.  And whether the
    loop of [DecodePlanGist] fails does not depend on the stack either: no
    underflow, at any operator of the plan, fails the decode. *)
Theorem decodeOperatorBody_underflow :
  (forall d, nodeStack d = [] -> popChild d = Ret (None, d)) /\
  (forall o d s msg,
      decodeOperatorBody o (setNodeStack s d) = Panic msg <->
      decodeOperatorBody o d = Panic msg) /\
  (forall o k d s n e d',
      declaredChildren o = Some k ->
      (length s < k)%nat ->
      decodeOperatorBody o d = Ret ((n, e), d') ->
      decodeOperatorBody o (setNodeStack s d)
      = Ret ((mkNode o (args n) (replicate (k - length s) None ++ map Some s),
              None),
             setNodeStack [] d')) /\
  (forall o k d b r s n e d',
      declaredChildren o = Some k ->
      (length (nodeStack d) < k)%nat ->
      buf d = b :: r -> byteZ b = o ->
      decodeOperatorBody o (setNodeStack s (setBuf r d)) = Ret ((n, e), d') ->
      decodeOp d
      = Ret (o, setNodeStack
                  [mkNode o (args n)
                     (replicate (k - length (nodeStack d)) None
                      ++ map Some (nodeStack d))] d')) /\
  (forall o k gist tl il,
      declaredChildren o = Some k -> (0 < k)%nat ->
      base64_DecodeString gist = inl (x02 :: zByte o :: replicate 16 x00) ->
      exists n res,
        DecodePlanGist gist tl il = Ret (Some res, None) /\
        op n = o /\ children n = replicate k None /\
        if o =? errorIfRowsOp then children res = [None; Some n] else res = n) /\
  (forall fuel checks checks' d s msg,
      DecodePlanGist_loop fuel checks (setNodeStack s d) = Panic msg <->
      DecodePlanGist_loop fuel checks' d = Panic msg).
Proof.
  split; [exact popChild_empty|]. split; [|split; [|split; [|split]]].
  5: exact DecodePlanGist_loop_other_stack.
  - intros o d s msg. rewrite decodeOperatorBody_stack.
    destruct (decodeOperatorBody o d) as [[[n e] d']|msg'|];
      split; intros H; try discriminate H; exact H.
  - intros o k d s n e d' Hk Hlen H. rewrite decodeOperatorBody_stack, H.
    unfold childrenPopped. rewrite Hk.
    rewrite (popChildren_short k s (declaredChildren_le o k Hk) Hlen).
    reflexivity.
  - intros o k d b r s n e d' Hk Hlen E Hb H.
    pose proof (declaredChildren_operator o k Hk) as Hne.
    rewrite (decodeOp_operator d b r E) by (rewrite Hb; exact Hne).
    rewrite Hb.
    change (setBuf r d)
      with (setNodeStack (nodeStack d) (setNodeStack s (setBuf r d))).
    rewrite decodeOperatorBody_stack, H.
    unfold childrenPopped. rewrite Hk.
    rewrite (popChildren_short k _ (declaredChildren_le o k Hk) Hlen).
    reflexivity.
  - intros o k gist tl il Hk Hpos Hb. unfold DecodePlanGist. rewrite Hb.
    clear Hb. revert Hk. unfold declaredChildren. intros H.
    repeat match type of H with
           | context [o =? ?c] => destruct (Z.eqb_spec o c); cbn [orb] in H
           end.
    all: try discriminate H.
    all: injection H as <-.
    all: repeat match goal with E : _ <> _ |- _ => clear E end.
    all: try (exfalso; clear -Hpos; lia).
    all: subst o; clear Hpos.
    all: destruct tl as [tl|], il as [il|].
    all: vm_compute.
    all: eexists; eexists; split; [reflexivity|].
    all: refine (conj _ (conj _ _)); [ | |reflexivity]; reflexivity.
Qed.

Lemma decodeOperatorBody_underflow_witness :
  (exists x n d',
      decodeOperatorBody hashJoinOp
        (setNodeStack [x] (newDecoder [x01; x02; x04; x00; x01] None None))
      = Ret ((n, None), d') /\
      children n = [None; Some x] /\ nodeStack d' = []) /\
  (exists n,
      DecodePlanGist "AgMAAAAAAAAAAAAAAAAAAAAA" None None = Ret (Some n, None) /\
      op n = filterOp /\ children n = [None]).
Proof.
  split.
  - pose (x := mkNode valuesOp ∅ []).
    pose (d := newDecoder [x01; x02; x04; x00; x01] None None).
    destruct (decodeOperatorBody hashJoinOp d) as [[[n e] d']|msg|] eqn:E;
      [|vm_compute in E; discriminate..].
    pose proof (proj1 (proj2 (proj2 decodeOperatorBody_underflow))
                  hashJoinOp 2%nat d [x] n e d' eq_refl ltac:(simpl; lia) E) as H.
    exists x. eexists. eexists. split; [exact H|]. split; reflexivity.
  - destruct (proj1 (proj2 (proj2 (proj2 (proj2 decodeOperatorBody_underflow))))
                filterOp 1%nat "AgMAAAAAAAAAAAAAAAAAAAAA"%string None None
                eq_refl ltac:(lia) eq_refl) as (n & res & H & Hop & Hc & Hres).
    change (filterOp =? errorIfRowsOp) with false in Hres. cbv iota in Hres.
    subst res.
    exists n. split; [exact H|]. split; [exact Hop|exact Hc].
Defined.

(** The claim C1 as the specification states it fails: a filter operator
    decoded on an empty stack does not fail the decode; [DecodePlanGist]
    returns a filter node whose child is nil, and no error. *)
Lemma decodeOperatorBody_underflow_counterexample :
  DecodePlanGist "AgM=" None None
  = Ret (Some (mkNode filterOp ∅ [None]), None) /\
  declaredChildren filterOp = Some 1%nat /\
  nodeStack (newDecoder [x03] None None) = [].
Proof. split; [|split]; reflexivity. Qed.

(** *** Failed reads *)

Lemma extend_nil d : extend [] d = d.
Proof. unfold extend. rewrite app_nil_r. apply setBuf_buf. Qed.

Lemma truncates_length {A : Type} (c : M A) d a d' :
  truncates c -> c d = Ret (a, d') -> (length (buf d') <= length (buf d))%nat.
Proof.
  intros Hc H. rewrite <- (extend_nil d) in H.
  apply Hc in H as [L _]. rewrite app_nil_r in L. exact L.
Qed.

Lemma truncates_ret {A : Type} (a : A) : truncates (mret a).
Proof.
  intros d q a' d' H. injection H as <- <-. split; [reflexivity|].
  left. exists d. split; reflexivity.
Qed.

Lemma truncates_panic {A : Type} (msg : string) : truncates (@panic A msg).
Proof. intros d q a d' H. discriminate H. Qed.

Lemma truncates_bind {A B : Type} (c : M A) (f : A -> M B) :
  truncates c -> (forall a, truncates (f a)) -> truncates (c ≫= f).
Proof.
  intros Hc Hf d q b d' H.
  apply bind_Ret_inv in H as (a & d1 & H1 & H2).
  pose proof (truncates_length _ _ _ _ (Hf a) H2) as L2.
  apply Hc in H1 as [L1 [(d1' & -> & E1)|(Lq & msg & Hm & E1)]].
  - apply Hf in H2 as [_ [(d2' & -> & E2)|(Lq & msg & Hm & E2)]].
    + split; [lia|]. left. exists d2'. split; [reflexivity|].
      rewrite (bind_Ret _ _ _ _ _ E1). exact E2.
    + split; [lia|]. right. split; [exact Lq|]. exists msg. split; [exact Hm|].
      rewrite (bind_Ret _ _ _ _ _ E1). exact E2.
  - split; [lia|]. right. split; [lia|]. exists msg. split; [exact Hm|].
    apply bind_Panic. exact E1.
Qed.

(** A continuation of [getDecoder] that does not look at the buffer. *)
Lemma truncates_getDecoder_bind {B : Type} (f : planGistDecoder -> M B) :
  (forall d q, f (extend q d) = f d) ->
  (forall d0, truncates (f d0)) -> truncates (getDecoder ≫= f).
Proof.
  intros Hf Hs d q b d' H.
  change ((getDecoder ≫= f) (extend q d)) with (f (extend q d) (extend q d)) in H.
  change ((getDecoder ≫= f) d) with (f d d).
  rewrite Hf in H. apply Hs. exact H.
Qed.

(** [binary.ReadUvarint] on a buffer followed by [q]. *)
Lemma ReadUvarint_loop_truncated (todo : nat) (i x s : Z) (r q r' : list byte) v :
  ReadUvarint_loop todo i x s (r ++ q) = ((v, None), r') ->
  (exists r'', r' = r'' ++ q /\ ReadUvarint_loop todo i x s r = ((v, None), r'')) \/
  ((length r' < length q)%nat /\
   exists v' err r0,
     (err = EOF \/ err = ErrUnexpectedEOF) /\
     ReadUvarint_loop todo i x s r = ((v', Some err), r0)).
Proof.
  revert i x s r. induction todo as [|todo IH]; intros i x s r H; [discriminate|].
  destruct r as [|b r].
  - right. split.
    + pose proof (ReadUvarint_loop_length (S todo) i x s q) as [_ L].
      cbn [app] in H. rewrite H in L. apply L. reflexivity.
    + simpl. exists x. eexists. exists []. split; [|reflexivity].
      destruct (0 <? i); auto.
  - simpl in H |- *. destruct (byteZ b <? 128).
    + destruct ((i =? MaxVarintLen64 - 1) && (1 <? byteZ b)); [discriminate|].
      injection H as <- <-. left. exists r. split; reflexivity.
    + apply IH. exact H.
Qed.

Lemma truncates_decodeUvarint : truncates decodeUvarint.
Proof.
  intros d q a d' H.
  pose proof (proj2 (reader_decodeUvarint _ _ _ H)) as L.
  split; [exact L|].
  apply decodeUvarint_Ret in H as (r' & E & ->). cbn [buf extend setBuf] in E.
  apply ReadUvarint_loop_truncated in E
    as [(r'' & -> & E)|(Lq & v' & err & r0 & He & E)].
  - left. exists (setBuf r'' d). split; [reflexivity|].
    unfold decodeUvarint, ReadUvarint. rewrite E. reflexivity.
  - right. split; [exact Lq|].
    exists ("decode error: " +:+ ioError_Error err)%string. split.
    + destruct He as [-> | ->]; [left|right]; reflexivity.
    + unfold decodeUvarint, ReadUvarint. rewrite E. reflexivity.
Qed.

Lemma truncates_decodeInt : truncates decodeInt.
Proof.
  intros d q a d' H.
  pose proof (proj2 (reader_decodeInt _ _ _ H)) as L.
  split; [exact L|].
  apply decodeInt_Ret in H as (r' & E & ->). cbn [buf extend setBuf] in E.
  unfold ReadVarint in E.
  destruct (ReadUvarint (buf d ++ q)) as [[ux [e|]] r1] eqn:EU;
    [injection E as _ E' _; discriminate E'|injection E as <- <-].
  apply ReadUvarint_loop_truncated in EU
    as [(r'' & -> & EU)|(Lq & v' & err & r0 & He & EU)].
  - left. exists (setBuf r'' d). split; [reflexivity|].
    unfold decodeInt, ReadVarint, ReadUvarint. rewrite EU. reflexivity.
  - right. split; [exact Lq|].
    exists ("decode error: " +:+ ioError_Error err)%string. split.
    + destruct He as [-> | ->]; [left|right]; reflexivity.
    + unfold decodeInt, ReadVarint, ReadUvarint. rewrite EU. reflexivity.
Qed.

Lemma truncates_decodeByte : truncates decodeByte.
Proof.
  intros d q a d' H.
  pose proof (proj2 (reader_decodeByte _ _ _ H)) as L.
  split; [exact L|].
  apply decodeByte_Ret in H as [E ->]. cbn [buf extend setBuf] in E |- *.
  destruct (buf d) as [|b r] eqn:Eb.
  - right. cbn [app] in E. split; [rewrite E; simpl; lia|].
    exists ("decode error: " +:+ ioError_Error EOF)%string.
    split; [left; reflexivity|]. unfold decodeByte. rewrite Eb. reflexivity.
  - left. injection E as <- E. exists (setBuf r d). split.
    + unfold extend. cbn [buf setBuf]. rewrite <- E. reflexivity.
    + unfold decodeByte. rewrite Eb. reflexivity.
Qed.

Lemma truncates_popChild : truncates popChild.
Proof.
  intros d q a d' H. rewrite popChild_eq in H. injection H as <- <-.
  split; [reflexivity|]. left.
  exists (setNodeStack (removelast (nodeStack d)) d). split; [reflexivity|].
  apply popChild_eq.
Qed.

Lemma truncates_appendPopChild n : truncates (appendPopChild n).
Proof.
  unfold appendPopChild. apply truncates_bind; [apply truncates_popChild|].
  intros c. apply truncates_ret.
Qed.

Lemma truncates_appendLeftRight n : truncates (appendLeftRight n).
Proof.
  unfold appendLeftRight. apply truncates_bind; [apply truncates_popChild|].
  intros r. apply truncates_bind; [apply truncates_popChild|].
  intros l. apply truncates_ret.
Qed.

Create HintDb truncates.
#[local] Hint Resolve truncates_ret truncates_panic truncates_decodeInt
  truncates_decodeUvarint truncates_decodeByte truncates_popChild
  truncates_appendPopChild truncates_appendLeftRight : truncates.

Ltac straight_truncates :=
  repeat first
    [ solve [eauto with truncates] | progress intros | progress cbv zeta
    | lazymatch goal with
      | |- truncates (getDecoder ≫= _) =>
          apply truncates_getDecoder_bind; [reflexivity|]
      | |- truncates (_ ≫= _) => apply truncates_bind
      | |- truncates (if ?b then _ else _) => destruct b
      | |- truncates (match ?x with (_, _) => _ end) => destruct x
      | |- truncates (match ?x with Some _ => _ | None => _ end) => destruct x
      end ].

Lemma truncates_decodeBool : truncates decodeBool.
Proof. unfold decodeBool. straight_truncates. Qed.

Lemma truncates_decodeTable : truncates decodeTable.
Proof. unfold decodeTable, decodeID. straight_truncates. Qed.

Lemma truncates_decodeIndex t : truncates (decodeIndex t).
Proof. unfold decodeIndex, decodeID. straight_truncates. Qed.

Lemma truncates_decodeNodeColumnOrdinals : truncates decodeNodeColumnOrdinals.
Proof. unfold decodeNodeColumnOrdinals, make_intSlice. straight_truncates. Qed.

Lemma truncates_decodeJoinType : truncates decodeJoinType.
Proof. unfold decodeJoinType. straight_truncates. Qed.

Lemma decodeIntSet_loop_length (fuel : nat) (i len : Z) d u d' :
  decodeIntSet_loop fuel i len d = Ret (u, d') ->
  (length (buf d') <= length (buf d))%nat.
Proof.
  revert i d. induction fuel as [|fuel IH]; intros i d H; [discriminate|].
  simpl in H. destruct (i <? len).
  - apply bind_Ret_inv in H as (a & d1 & H1 & H).
    apply bind_Ret_inv in H as (b & d2 & H2 & H).
    apply reader_decodeUvarint in H1 as [_ L1].
    apply reader_decodeUvarint in H2 as [_ L2].
    apply IH in H. lia.
  - injection H as <- <-. lia.
Qed.

(** The loop of [decodeIntSet] on a buffer followed by [q]: the fuel, which
    is taken from the length of the buffer, is enough without [q] too. *)
Lemma decodeIntSet_loop_truncated (fuel fuel' : nat) (i len : Z) d q u d' :
  (length (buf d) < fuel')%nat ->
  decodeIntSet_loop fuel i len (extend q d) = Ret (u, d') ->
  (length (buf d') <= length (buf d ++ q))%nat /\
  ((exists d'', d' = extend q d'' /\ decodeIntSet_loop fuel' i len d = Ret (u, d'')) \/
   ((length (buf d') < length q)%nat /\
    exists msg, eofError msg /\ decodeIntSet_loop fuel' i len d = Panic msg)).
Proof.
  revert fuel' i d. induction fuel as [|fuel IH]; intros fuel' i d Hfuel H;
    [discriminate|].
  pose proof (decodeIntSet_loop_length _ _ _ _ _ _ H) as L.
  split; [exact L|]. clear L.
  destruct fuel' as [|fuel']; [lia|]. simpl in H |- *.
  destruct (i <? len).
  - apply bind_Ret_inv in H as (a & d1 & H1 & H).
    apply bind_Ret_inv in H as (b & d2 & H2 & H).
    pose proof (decodeIntSet_loop_length _ _ _ _ _ _ H) as L3.
    pose proof (truncates_decodeUvarint _ _ _ _ H1)
      as [L1 [(d1' & -> & E1)|(Lq & msg & Hm & E1)]].
    + pose proof (consumes_decodeUvarint _ _ _ E1) as C1.
      pose proof (truncates_decodeUvarint _ _ _ _ H2)
        as [L2 [(d2' & -> & E2)|(Lq & msg & Hm & E2)]].
      * pose proof (consumes_decodeUvarint _ _ _ E2) as C2.
        apply (IH fuel') in H as [_ H]; [|lia].
        rewrite (bind_Ret _ _ _ _ _ E1), (bind_Ret _ _ _ _ _ E2). exact H.
      * right. split; [lia|]. exists msg. split; [exact Hm|].
        rewrite (bind_Ret _ _ _ _ _ E1). apply bind_Panic. exact E2.
    + apply reader_decodeUvarint in H2 as [_ L2].
      right. split; [lia|]. exists msg. split; [exact Hm|].
      apply bind_Panic. exact E1.
  - injection H as <- <-. left. exists d. split; reflexivity.
Qed.

Lemma truncates_decodeIntSet : truncates decodeIntSet.
Proof.
  unfold decodeIntSet. apply truncates_bind; [apply truncates_decodeUvarint|].
  intros len. destruct (len =? 0); [straight_truncates|].
  intros d q u d' H.
  change ((getDecoder ≫= ?f) ?x) with (f x x) in H |- *. cbv beta in H |- *.
  apply (decodeIntSet_loop_truncated _ (S (length (buf d)))) in H; [exact H|lia].
Qed.

#[local] Hint Resolve truncates_decodeBool truncates_decodeTable
  truncates_decodeIndex truncates_decodeNodeColumnOrdinals
  truncates_decodeJoinType truncates_decodeIntSet : truncates.

Lemma truncates_decodeScanParams : truncates decodeScanParams.
Proof. unfold decodeScanParams. straight_truncates. Qed.

#[local] Hint Resolve truncates_decodeScanParams : truncates.

Lemma truncates_decodeOperatorBody o : truncates (decodeOperatorBody o).
Proof.
  unfold decodeOperatorBody, decodeRows, decodeResultColumns. straight_truncates.
Qed.

(** [decodeOp] on a buffer that is not empty, followed by [q]. *)
Lemma decodeOp_truncated d q o d' :
  buf d <> [] ->
  decodeOp (extend q d) = Ret (o, d') ->
  (exists d'', d' = extend q d'' /\ decodeOp d = Ret (o, d'')) \/
  ((length (buf d') < length q)%nat /\
   exists msg, eofError msg /\ decodeOp d = Panic msg).
Proof.
  intros Hne H. destruct (buf d) as [|b r] eqn:E; [contradiction|].
  assert (buf (extend q d) = b :: (r ++ q)) as E'
    by (unfold extend; cbn [buf setBuf]; rewrite E; reflexivity).
  destruct (Z.eq_dec (byteZ b) 0) as [Hz|Hnz].
  - apply byteZ_0 in Hz. subst b.
    rewrite (decodeOp_terminator _ _ E') in H. injection H as <- <-.
    left. exists (setBuf r d). split; [reflexivity|].
    apply decodeOp_terminator. exact E.
  - rewrite (decodeOp_operator _ _ _ E' Hnz) in H.
    rewrite (decodeOp_operator _ _ _ E Hnz).
    change (setBuf (r ++ q) (extend q d)) with (extend q (setBuf r d)) in H.
    destruct (decodeOperatorBody (byteZ b) (extend q (setBuf r d)))
      as [[[n e] d1]|msg|] eqn:B; try discriminate H.
    injection H as <- <-.
    apply truncates_decodeOperatorBody in B
      as [_ [(d1' & -> & B)|(Lq & msg & Hm & B)]].
    + left. rewrite B.
      exists (setNodeStack (nodeStack d1' ++ [n]) d1'). split; reflexivity.
    + right. split; [exact Lq|]. exists msg. split; [exact Hm|].
      rewrite B. reflexivity.
Qed.

(** An operator consumes its byte. *)
Lemma decodeOp_consumes d o d' :
  decodeOp d = Ret (o, d') -> o <> unknownOp ->
  (length (buf d') < length (buf d))%nat.
Proof.
  intros H Hne.
  apply decodeOp_Ret in H
    as [(-> & _)|[(-> & _)|(b & r & n & d1 & E & _ & _ & _ & B & ->)]];
    try contradiction.
  apply decodeOperatorBody_Ret in B as (_ & _ & _ & L).
  rewrite E. cbn [buf setBuf setNodeStack length] in L |- *. lia.
Qed.

(** The loop gets to where [loopReaches] says, and has fuel left there. *)
Lemma loopReaches_loop checks d checks' d' :
  loopReaches checks d checks' d' ->
  exists k : nat,
    (k + length (buf d') <= length (buf d))%nat /\
    forall fuel,
      DecodePlanGist_loop (k + fuel) checks d
      = DecodePlanGist_loop fuel checks' d'.
Proof.
  induction 1 as [checks d
                 |checks d o d1 checks' d' Hop Hne Hnc _ (k & Hk & IH)
                 |checks d d1 c d2 checks' d' Hop Hpop _ (k & Hk & IH)].
  - exists 0%nat. split; [lia|]. reflexivity.
  - pose proof (decodeOp_consumes _ _ _ Hop Hne) as L.
    exists (S k). split; [lia|]. intros fuel.
    cbn [Nat.add DecodePlanGist_loop]. rewrite (bind_Ret _ _ _ _ _ Hop).
    destruct (Z.eqb_spec o unknownOp) as [?|_]; [contradiction|].
    destruct (Z.eqb_spec o errorIfRowsOp) as [?|_]; [contradiction|].
    apply IH.
  - pose proof (decodeOp_consumes _ _ _ Hop ltac:(discriminate)) as L.
    assert (buf d2 = buf d1) as Eb
      by (rewrite popChild_eq in Hpop; injection Hpop as _ <-; reflexivity).
    exists (S k). split; [rewrite Eb in Hk; lia|]. intros fuel.
    cbn [Nat.add DecodePlanGist_loop]. rewrite (bind_Ret _ _ _ _ _ Hop).
    change (errorIfRowsOp =? unknownOp) with false.
    change (errorIfRowsOp =? errorIfRowsOp) with true. cbv iota.
    rewrite (bind_Ret _ _ _ _ _ Hpop). apply IH.
Qed.

(** A panic of [decodeOp] at the head of an iteration that the loop of
    [DecodePlanGist] reaches is the outcome of [DecodePlanGist]. *)
Lemma DecodePlanGist_panic gist tl il b rest checks d msg :
  base64_DecodeString gist = inl b ->
  ReadVarint b = ((gistVersion, None), rest) ->
  loopReaches [] (newDecoder rest tl il) checks d ->
  decodeOp d = Panic msg ->
  DecodePlanGist gist tl il = Panic msg.
Proof.
  intros Hb Hv Hr Hop. unfold DecodePlanGist.
  rewrite Hb, decodeBuffer_eq. change (buf (newDecoder b tl il)) with b.
  rewrite Hv. change (negb (gistVersion =? gistVersion)) with false. cbv iota.
  change (setBuf rest (newDecoder b tl il)) with (newDecoder rest tl il).
  apply loopReaches_loop in Hr as (k & Hk & Hl).
  cbn [buf newDecoder] in Hk.
  replace (S (length rest)) with (k + S (length rest - k))%nat by lia.
  rewrite Hl. cbn [DecodePlanGist_loop]. rewrite (bind_Panic _ _ _ _ Hop).
  reflexivity.
Qed.

(** C2, as the code has it.  A read of the byte cursor that fails (the
    buffer exhausted inside a field, or an ill-formed varint) raises a Go
    panic with the message [decode error: <cause>], and nothing recovers
    it: it unwinds out of the body decode, out of [decodeOp], out of the
    loop and out of [DecodePlanGist], which then returns neither a tree nor
    an error value.  So [DecodePlanGist] panics on a gist whose version
    cannot be read; on a gist that ends inside an operator, after any number
    of operators that were decoded (a gist to which some bytes [q] have to
    be added for the operator to be decoded); and on a gist in which the
    body decode of an operator panics, for whatever reason.  Every panic of
    [DecodePlanGist] is the decode error of a failed read or the run-time
    error of [make] on a number of columns that is out of range; and the
    only error values it returns are the base64 error and the version
    error, with a nil tree. *)
Theorem DecodePlanGist_read_failure gist tl il :
  (forall d val err r,
      (ReadVarint (buf d) = ((val, Some err), r) ->
       decodeInt d = Panic ("decode error: " +:+ ioError_Error err)) /\
      (ReadUvarint (buf d) = ((val, Some err), r) ->
       decodeUvarint d = Panic ("decode error: " +:+ ioError_Error err)) /\
      (buf d = [] -> decodeByte d = Panic ("decode error: " +:+ ioError_Error EOF))) /\
  (forall b val err r,
      base64_DecodeString gist = inl b ->
      ReadVarint b = ((val, Some err), r) ->
      DecodePlanGist gist tl il = Panic ("decode error: " +:+ ioError_Error err)) /\
  (forall b rest checks d q o d',
      base64_DecodeString gist = inl b ->
      ReadVarint b = ((gistVersion, None), rest) ->
      loopReaches [] (newDecoder rest tl il) checks d ->
      buf d <> [] -> q <> [] ->
      decodeOp (extend q d) = Ret (o, d') -> buf d' = [] ->
      exists msg, eofError msg /\ DecodePlanGist gist tl il = Panic msg) /\
  (forall b rest checks d ob r msg,
      base64_DecodeString gist = inl b ->
      ReadVarint b = ((gistVersion, None), rest) ->
      loopReaches [] (newDecoder rest tl il) checks d ->
      buf d = ob :: r -> ob <> x00 ->
      decodeOperatorBody (byteZ ob) (setBuf r d) = Panic msg ->
      DecodePlanGist gist tl il = Panic msg) /\
  (forall msg,
      DecodePlanGist gist tl il = Panic msg ->
      decodeError msg \/ makesliceError msg) /\
  (forall n e,
      DecodePlanGist gist tl il = Ret (n, Some e) ->
      n = None /\
      ((exists be, base64_DecodeString gist = inr be /\ e = Base64DecodeError be) \/
       (exists b ver r,
           base64_DecodeString gist = inl b /\
           ReadVarint b = ((ver, None), r) /\
           e = UnsupportedVersion ver /\ ver <> gistVersion))).
Proof.
  split; [|split; [|split; [|split; [|split]]]].
  - intros d val err r. split; [|split].
    + intros E. unfold decodeInt. rewrite E. reflexivity.
    + intros E. unfold decodeUvarint. rewrite E. reflexivity.
    + intros E. unfold decodeByte. rewrite E. reflexivity.
  - intros b val err r Hb Hv. unfold DecodePlanGist.
    rewrite Hb, decodeBuffer_eq. change (buf (newDecoder b tl il)) with b.
    rewrite Hv. reflexivity.
  - intros b rest checks d q o d' Hb Hv Hr Hne Hq Hop Hd'.
    apply (decodeOp_truncated _ _ _ _ Hne) in Hop
      as [(d'' & -> & _)|(_ & msg & Hm & Hop)].
    + exfalso. cbn [buf extend setBuf] in Hd'.
      apply app_eq_nil in Hd' as [_ ?]. contradiction.
    + exists msg. split; [exact Hm|].
      exact (DecodePlanGist_panic gist tl il b rest checks d msg Hb Hv Hr Hop).
  - intros b rest checks d ob r msg Hb Hv Hr E Hob HB.
    apply (DecodePlanGist_panic gist tl il b rest checks d msg Hb Hv Hr).
    rewrite (decodeOp_operator d ob r E)
      by (intros Hz; apply byteZ_0 in Hz; contradiction).
    rewrite HB. reflexivity.
  - intros msg. unfold DecodePlanGist.
    destruct (base64_DecodeString gist) as [b|be]; [|discriminate].
    pose proof (checked_decodeBuffer b tl il) as S.
    destruct (decodeBuffer (newDecoder b tl il)) as [[r d']|msg'|];
      [discriminate| |discriminate].
    intros H. injection H as <-. exact S.
  - intros n e. unfold DecodePlanGist.
    destruct (base64_DecodeString gist) as [b|be].
    + rewrite decodeBuffer_eq. change (buf (newDecoder b tl il)) with b.
      destruct (ReadVarint b) as [[ver [err|]] r] eqn:EV; [discriminate|].
      destruct (Z.eqb_spec ver gistVersion) as [->|Hne]; cbn [negb].
      * destruct (DecodePlanGist_loop (S (length r)) []
                    (setBuf r (newDecoder b tl il))) as [[checks d']|msg|];
          discriminate.
      * intros H. injection H as <- <-. split; [reflexivity|].
        right. exists b, ver, r. auto.
    + intros H. injection H as <- <-. split; [reflexivity|].
      left. exists be. auto.
Qed.

(** One iteration of the loop on a closed decoder. *)
Ltac reach_op :=
  lazymatch goal with
  | |- loopReaches ?c ?d _ _ =>
      let r := eval vm_compute in (decodeOp d) in
      lazymatch r with
      | Ret (?o, ?d1) =>
          apply (loopReaches_op c d o d1);
          [vm_compute; reflexivity|discriminate|discriminate|]
      end
  end.

Lemma DecodePlanGist_read_failure_witness :
  (exists msg,
      eofError msg /\ DecodePlanGist "AgIAAAMB4A==" None None = Panic msg) /\
  DecodePlanGist "AgL/////////////" None None
  = Panic "decode error: binary: varint overflows a 64-bit integer" /\
  DecodePlanGist "AgX+//////////8B" None None
  = Panic "runtime error: makeslice: len out of range" /\
  DecodePlanGist "gA==" None None = Panic "decode error: unexpected EOF".
Proof.
  split; [|split; [|split]].
  - (* version 1, a values operator, a filter operator, and a scan operator
       that ends inside the table id *)
    refine (proj1 (proj2 (proj2 (DecodePlanGist_read_failure
                                   "AgIAAAMB4A==" None None)))
              [x02; x02; x00; x00; x03; x01; xe0] [x02; x00; x00; x03; x01; xe0]
              [] _ [x01; x02; x00; xff; x03; x02; x00; x00] scanOp _
              eq_refl eq_refl _ _ _ _ _).
    + reach_op. reach_op. apply loopReaches_here.
    + discriminate.
    + discriminate.
    + lazymatch goal with
      | |- ?run = Ret (_, ?e) =>
          let r := eval vm_compute in run in
          lazymatch r with Ret (_, ?d1) => unify e d1 end
      end.
      vm_compute. reflexivity.
    + reflexivity.
  - exact (proj1 (proj2 (proj2 (proj2 (DecodePlanGist_read_failure
                                         "AgL/////////////" None None))))
             [x02; x02; xff; xff; xff; xff; xff; xff; xff; xff; xff; xff]
             [x02; xff; xff; xff; xff; xff; xff; xff; xff; xff; xff] []
             _ x02 [xff; xff; xff; xff; xff; xff; xff; xff; xff; xff] _
             eq_refl eq_refl (loopReaches_here _ _) eq_refl
             ltac:(discriminate) eq_refl).
  - exact (proj1 (proj2 (proj2 (proj2 (DecodePlanGist_read_failure
                                         "AgX+//////////8B" None None))))
             [x02; x05; xfe; xff; xff; xff; xff; xff; xff; xff; xff; x01]
             [x05; xfe; xff; xff; xff; xff; xff; xff; xff; xff; x01] []
             _ x05 [xfe; xff; xff; xff; xff; xff; xff; xff; xff; x01] _
             eq_refl eq_refl (loopReaches_here _ _) eq_refl
             ltac:(discriminate) eq_refl).
  - exact (proj1 (proj2 (DecodePlanGist_read_failure "gA==" None None))
             [x80] 0 ErrUnexpectedEOF [] eq_refl eq_refl).
Defined.

(** The claim C2 as the specification states it fails: on an empty buffer,
    on a buffer that ends inside the body of a scan operator, and on a
    varint that overflows 64 bits, [DecodePlanGist] returns no error value;
    the panic of the failed read escapes it. *)
Lemma DecodePlanGist_read_failure_counterexample :
  DecodePlanGist "" None None = Panic "decode error: EOF" /\
  DecodePlanGist "AgE=" None None = Panic "decode error: EOF" /\
  DecodePlanGist "////////////Ag==" None None
  = Panic "decode error: binary: varint overflows a 64-bit integer" /\
  ~ (exists e, DecodePlanGist "" None None = Ret (None, Some e)).
Proof.
  split; [reflexivity|]. split; [reflexivity|]. split; [reflexivity|].
  intros [e H]. discriminate H.
Qed.

(** ** Further properties of the code *)

(** *** Trees *)

Lemma allNodes_eq (P : Node -> Prop) (n : Node) :
  allNodes P n <-> P n /\ forall c, In (Some c) (children n) -> allNodes P c.
Proof.
  destruct n as [o a cs]. simpl.
  assert ((fix below (cs : list (option Node)) : Prop :=
             match cs with
             | [] => True
             | Some c :: cs' => allNodes P c /\ below cs'
             | None :: cs' => below cs'
             end) cs <-> forall c, In (Some c) cs -> allNodes P c) as ->;
    [|reflexivity].
  induction cs as [|[c|] cs IH]; simpl.
  - split; [intros _ c []|auto].
  - rewrite IH. split.
    + intros [H1 H2] c' [E|Hin]; [injection E as <-; exact H1|auto].
    + intros H. split; [apply H; left; reflexivity|intros c' Hin; apply H; right; exact Hin].
  - rewrite IH. split.
    + intros H c' [E|Hin]; [discriminate|auto].
    + intros H c' Hin. apply H. right. exact Hin.
Qed.

(** Induction on a tree: a property that a node inherits from its children
    holds of every node. *)
Lemma Node_children_ind (Q : Node -> Prop) :
  (forall n, (forall c, In (Some c) (children n) -> Q c) -> Q n) ->
  forall n, Q n.
Proof.
  intros H. fix IH 1. intros [o a cs]. apply H. simpl.
  induction cs as [|[c|] cs IHcs]; intros c' Hin.
  - destruct Hin.
  - destruct Hin as [E|Hin]; [injection E as <-; apply IH|apply IHcs; exact Hin].
  - destruct Hin as [E|Hin]; [discriminate|apply IHcs; exact Hin].
Qed.

(** *** The formatter on the trees of the decoder *)

(** The loop over the children inside [formatNode_node] is
    [formatChildren]. *)
Lemma formatChildren_eq total rest i sb :
  (fix loop (rest : list (option Node)) (i : nat) (sb : string)
     {struct rest} : outcome string :=
     match rest with
     | [] => mret sb
     | child :: rest' =>
         let childIsLast := (i =? total - 1)%nat in
         let connector := if childIsLast then "└── "%string else "├── "%string in
         let childPrefix := if childIsLast then "    "%string else "│   "%string in
         let sb := sb +:+ connector in
         childStr ← match child with
                    | Some c => formatNode_node c childPrefix childIsLast
                    | None => mret ""%string
                    end;
         let lines := strings_Split (strings_TrimSuffix childStr newline) newline in
         loop rest' (S i) (sb +:+ formatChildLines lines 0 childPrefix)
     end) rest i sb
  = formatChildren formatNode_node total rest i sb.
Proof.
  revert i sb. induction rest as [|child rest IH]; intros i sb; [reflexivity|].
  cbn [formatChildren]. cbv zeta.
  destruct child as [c|].
  - unfold mbind, outcome_bind.
    destruct (formatNode_node c _ _); try reflexivity. apply IH.
  - apply IH.
Qed.

Lemma formatNode_node_unfold o a cs prefix isLast :
  formatNode_node (mkNode o a cs) prefix isLast =
  if (o =? simpleProjectOp) || (o =? serializingProjectOp) then
    match cs with
    | Some c :: _ => formatNode_node c prefix isLast
    | None :: _ => mret ""%string
    | [] => mret ""%string
    end
  else
    let opName := default ""%string (opNames !! o) in
    let opName := if String.eqb opName "" then "op_" +:+ Sprint_int o else opName in
    let attrPrefix := if (0 <? length cs)%nat then "│ "%string else "  "%string in
    attrs ← formatAttrs (mkNode o a cs) attrPrefix;
    (fix loop (rest : list (option Node)) (i : nat) (sb : string)
     {struct rest} : outcome string :=
     match rest with
     | [] => mret sb
     | child :: rest' =>
         let childIsLast := (i =? length cs - 1)%nat in
         let connector := if childIsLast then "└── "%string else "├── "%string in
         let childPrefix := if childIsLast then "    "%string else "│   "%string in
         let sb := sb +:+ connector in
         childStr ← match child with
                    | Some c => formatNode_node c childPrefix childIsLast
                    | None => mret ""%string
                    end;
         let lines := strings_Split (strings_TrimSuffix childStr newline) newline in
         loop rest' (S i) (sb +:+ formatChildLines lines 0 childPrefix)
     end) cs 0%nat
      (("• " +:+ opName +:+ nl) +:+ attrs).
Proof.
  reflexivity.
Qed.

Lemma formatNode_node_eq o a cs prefix isLast :
  formatNode_node (mkNode o a cs) prefix isLast =
  if (o =? simpleProjectOp) || (o =? serializingProjectOp) then
    match cs with
    | Some c :: _ => formatNode_node c prefix isLast
    | None :: _ => mret ""%string
    | [] => mret ""%string
    end
  else
    let opName := default ""%string (opNames !! o) in
    let opName := if String.eqb opName "" then "op_" +:+ Sprint_int o else opName in
    let attrPrefix := if (0 <? length cs)%nat then "│ "%string else "  "%string in
    attrs ← formatAttrs (mkNode o a cs) attrPrefix;
    formatChildren formatNode_node (length cs) cs 0%nat
      (("• " +:+ opName +:+ nl) +:+ attrs).
Proof.
  rewrite formatNode_node_unfold.
  destruct ((o =? simpleProjectOp) || (o =? serializingProjectOp)); [reflexivity|].
  cbv zeta. unfold mbind at 1 3, outcome_bind at 1 3.
  destruct (formatAttrs _ _) as [attrs| |]; try reflexivity.
  apply formatChildren_eq.
Qed.

(** [formatAttrs] fails on the attribute [spans] of a scan node only. *)
Lemma formatAttrs_Ret n attrPrefix :
  spansPrintable n -> exists s, formatAttrs n attrPrefix = Ret s.
Proof.
  intros Hp. unfold formatAttrs.
  destruct (Z.eqb_spec (op n) scanOp) as [Hscan|_].
  - cbv zeta. destruct (args n !! "spans"%string) as [v|] eqn:Ev.
    + destruct (strings_Contains (Sprint (Some v)) " ") eqn:Ec.
      * pose proof (Hp Hscan v Ev Ec) as Hf.
        destruct (strings_Fields (Sprint (Some v))) as [|p ps]; [contradiction|].
        destruct (args n !! "limit"%string); eexists; reflexivity.
      * destruct (args n !! "limit"%string); eexists; reflexivity.
    + destruct (args n !! "limit"%string); eexists; reflexivity.
  - repeat match goal with
           | |- context [if ?b then _ else _] => destruct b
           | |- context [match ?x with Some _ => _ | None => _ end] => destruct x
           end; eexists; reflexivity.
Qed.

Lemma formatChildren_Ret fmt total rest i sb :
  (forall c p l, In (Some c) rest -> exists s, fmt c p l = Ret s) ->
  exists s, formatChildren fmt total rest i sb = Ret s.
Proof.
  revert i sb. induction rest as [|child rest IH]; intros i sb H; simpl.
  - eexists. reflexivity.
  - assert (exists childStr,
               match child with
               | Some c => fmt c (if (i =? total - 1)%nat then "    " else "│   ")%string
                             (i =? total - 1)%nat
               | None => mret ""%string
               end = Ret childStr) as [childStr ->].
    { destruct child as [c|]; [apply H; left; reflexivity|eexists; reflexivity]. }
    simpl. apply IH. intros c p l Hin. apply H. right. exact Hin.
Qed.

(** On a tree whose scan nodes have a printable [spans], [formatNode]
    returns. *)
Lemma formatNode_node_Ret n :
  allNodes spansPrintable n ->
  forall prefix isLast, exists s, formatNode_node n prefix isLast = Ret s.
Proof.
  induction n as [n IH] using Node_children_ind. intros Hall prefix isLast.
  apply allNodes_eq in Hall as [Hn Hcs].
  destruct n as [o a cs]. simpl in IH, Hcs. rewrite formatNode_node_eq.
  destruct ((o =? simpleProjectOp) || (o =? serializingProjectOp)).
  - destruct cs as [|[c|] cs]; try (eexists; reflexivity).
    apply IH; [left; reflexivity|]. apply Hcs. left. reflexivity.
  - cbv zeta.
    destruct (formatAttrs_Ret (mkNode o a cs)
                (if (0 <? length cs)%nat then "│ " else "  ")%string Hn) as [attrs ->].
    unfold mbind, outcome_bind.
    apply formatChildren_Ret. intros c p l Hin. apply IH; auto.
Qed.

Section LoopInvariant.

(** A property of nodes that every node built by [decodeOperatorBody] has
    when the nodes on the stack have it. *)
Variable P : Node -> Prop.
Hypothesis P_body :
  forall o d n d',
    decodeOperatorBody o d = Ret ((n, None), d') ->
    Forall P (nodeStack d) -> P n.

Lemma DecodePlanGist_loop_invariant (fuel : nat) checks d checks' d' :
  DecodePlanGist_loop fuel checks d = Ret (checks', d') ->
  Forall P (nodeStack d) ->
  Forall (fun c => forall n, c = Some n -> P n) checks ->
  Forall P (nodeStack d') /\
  Forall (fun c => forall n, c = Some n -> P n) checks'.
Proof.
  revert checks d. induction fuel as [|fuel IH]; intros checks d H Hs Hc;
    [discriminate|].
  simpl in H. apply bind_Ret_inv in H as (o & d1 & Hop & H).
  apply decodeOp_Ret in Hop
    as [(-> & E & ->)|[(-> & r & E & ->)|(b & r & n & d2 & E & Eo & Hnz & Hop & B & ->)]].
  - injection H as <- <-. auto.
  - injection H as <- <-. auto.
  - destruct (Z.eqb_spec o unknownOp) as [?|_]; [contradiction|].
    assert (P n) as Hn by (apply (P_body _ _ _ _ B); exact Hs).
    apply decodeOperatorBody_Ret in B as (_ & _ & Hpop & _).
    pose proof (popChildren_In (childrenPopped o (nodeStack (setBuf r d)))
                  (nodeStack (setBuf r d))) as [_ Hin2].
    rewrite <- Hpop in Hin2. simpl in Hin2.
    assert (Forall P (nodeStack d2)) as Hs2.
    { rewrite Forall_forall in Hs. apply Forall_forall. intros m Hin. apply Hs.
      apply list_elem_of_In. apply Hin2. apply list_elem_of_In. exact Hin. }
    destruct (o =? errorIfRowsOp).
    + apply bind_Ret_inv in H as (c & d3 & Hp & H).
      rewrite (popChild_snoc (setNodeStack (nodeStack d2 ++ [n]) d2)
                 (nodeStack d2) n eq_refl) in Hp.
      injection Hp as <- <-.
      apply (IH _ _ H); [exact Hs2|].
      apply Forall_app. split; [exact Hc|].
      apply Forall_cons. split; [|apply List.Forall_nil].
      intros m Hm. injection Hm as <-. exact Hn.
    + apply (IH _ _ H); [|exact Hc].
      apply Forall_app. split; [exact Hs2|].
      apply Forall_cons. split; [exact Hn|apply List.Forall_nil].
Qed.

(** What [DecodePlanGist] returns without error is nil, or a node with
    the property, or the wrapper of such nodes. *)
Lemma DecodePlanGist_invariant gist tl il res :
  DecodePlanGist gist tl il = Ret (res, None) ->
  exists checks stack,
    res = assembleResult checks stack /\
    Forall P stack /\ Forall (fun c => forall n, c = Some n -> P n) checks.
Proof.
  unfold DecodePlanGist.
  destruct (base64_DecodeString gist) as [b|be]; [|discriminate].
  rewrite decodeBuffer_eq. change (buf (newDecoder b tl il)) with b.
  destruct (ReadVarint b) as [[ver [err|]] r]; [discriminate|].
  destruct (negb (ver =? gistVersion)); [discriminate|].
  destruct (DecodePlanGist_loop (S (length r)) [] (setBuf r (newDecoder b tl il)))
    as [[checks d1]|msg|] eqn:EL; [|discriminate|discriminate].
  intros H. injection H as <-.
  apply DecodePlanGist_loop_invariant in EL as [H1 H2];
    [|apply List.Forall_nil|apply List.Forall_nil].
  exists checks, (nodeStack d1). auto.
Qed.

End LoopInvariant.

Lemma strings_Split_cons (s : string) (sep : ascii) :
  exists l ls, strings_Split s sep = l :: ls.
Proof.
  induction s as [|c s IH]; simpl.
  - eexists. eexists. reflexivity.
  - destruct (Ascii.eqb c sep); [eexists; eexists; reflexivity|].
    destruct (strings_Split s sep); eexists; eexists; reflexivity.
Qed.

(** The scan nodes that the decoder builds have a printable [spans]. *)
Lemma decodeOperatorBody_spansPrintable o d n d' :
  decodeOperatorBody o d = Ret ((n, None), d') ->
  Forall (allNodes spansPrintable) (nodeStack d) ->
  allNodes spansPrintable n.
Proof.
  intros B Hs. apply allNodes_eq. split.
  - intros Hscan v Ev _.
    pose proof (decodeOperatorBody_Ret _ _ _ _ _ B) as (_ & Hop & _).
    rewrite Hscan in Hop. subst o.
    apply decodeOperatorBody_scan_Ret in B
      as (tableID & tableName & indexID & indexName & ns & ni & hl & ->).
    pose proof (scan_args_lookup tableID tableName indexID indexName ns ni hl)
      as (_ & _ & Hsp & _).
    cbv zeta in Hsp. cbn [args] in Ev. rewrite Hsp in Ev.
    destruct (Z.ltb_spec 0 ns) as [Hk|_]; [|discriminate].
    injection Ev as <-. destruct (spansAttr_tokens ns Hk) as [_ [unit Hf]].
    cbn [Sprint]. rewrite Hf. discriminate.
  - intros c Hin.
    apply decodeOperatorBody_Ret in B as (_ & _ & Hpop & _).
    pose proof (popChildren_In (childrenPopped o (nodeStack d)) (nodeStack d))
      as [Hin1 _].
    rewrite <- Hpop in Hin1. simpl in Hin1.
    rewrite Forall_forall in Hs. apply Hs. apply list_elem_of_In. apply Hin1. exact Hin.
Qed.

(** X1.  Decode, then format, never fails: for every gist that
    [DecodePlanGist] decodes without error, [FormatPlan] returns a string on
    the result, and the string is empty exactly when the result is nil. *)
Theorem FormatPlan_DecodePlanGist gist tl il res :
  DecodePlanGist gist tl il = Ret (res, None) ->
  exists s, FormatPlan res = Ret s /\ (s = ""%string <-> res = None).
Proof.
  intros H.
  apply (DecodePlanGist_invariant (allNodes spansPrintable)
           decodeOperatorBody_spansPrintable) in H
    as (checks & stack & -> & Hs & Hc).
  assert (forall n, assembleResult checks stack = Some n ->
                    allNodes spansPrintable n) as Hres.
  { unfold assembleResult. intros n.
    destruct (0 <? length checks)%nat.
    - intros E. injection E as <-. apply allNodes_eq. split.
      + intros Hscan. discriminate Hscan.
      + intros c Hin. cbn [children app] in Hin. destruct Hin as [E|Hin].
        * rewrite Forall_forall in Hs. apply Hs. apply list_elem_of_In.
          apply last_In. exact E.
        * rewrite Forall_forall in Hc. apply (Hc (Some c)); [|reflexivity].
          apply list_elem_of_In. exact Hin.
    - intros E. rewrite Forall_forall in Hs. apply Hs. apply list_elem_of_In.
      apply last_In. exact E. }
  destruct (assembleResult checks stack) as [n|].
  - destruct (formatNode_node_Ret n (Hres n eq_refl) "" true) as [out Hout].
    unfold FormatPlan, formatNode. rewrite Hout.
    destruct (strings_Split_cons (strings_TrimSuffix out newline) newline)
      as (l & ls & El).
    unfold mbind, outcome_bind, mret, outcome_ret. rewrite El.
    eexists. split; [reflexivity|]. split; discriminate.
  - exists ""%string. split; [reflexivity|]. split; reflexivity.
Qed.

Lemma FormatPlan_DecodePlanGist_witness :
  exists res s,
    DecodePlanGist "AgHgAQIA/wMCAAAHFAUUIeABAAAFDAYM" None None = Ret (res, None) /\
    FormatPlan res = Ret s /\ s <> ""%string.
Proof.
  destruct (DecodePlanGist "AgHgAQIA/wMCAAAHFAUUIeABAAAFDAYM" None None)
    as [[res [e|]]|msg|] eqn:E; try (vm_compute in E; discriminate).
  destruct (FormatPlan_DecodePlanGist _ None None res E) as (s & Hs & Hiff).
  exists res, s. split; [reflexivity|]. split; [exact Hs|].
  intros Hempty. apply Hiff in Hempty. subst res. vm_compute in E. discriminate.
Defined.

(** *** The shape of the decoded nodes and of the stack *)

Lemma removelast_take {A : Type} (s : list A) : removelast s = take (length s - 1) s.
Proof. rewrite removelast_firstn_len, Nat.sub_1_r. reflexivity. Qed.

Lemma popChildren_spec (k : nat) (s : list Node) :
  (k <= 2)%nat ->
  length (fst (popChildren k s)) = k /\
  snd (popChildren k s) = take (length s - k) s.
Proof.
  intros Hk. destruct k as [|[|[|k]]]; try lia; simpl.
  - split; [reflexivity|]. rewrite Nat.sub_0_r, firstn_all. reflexivity.
  - split; [reflexivity|]. apply removelast_take.
  - split; [reflexivity|]. rewrite !removelast_take, length_take, take_take.
    f_equal. lia.
Qed.

Lemma childrenPopped_le o s : (childrenPopped o s <= 2)%nat.
Proof.
  unfold childrenPopped. destruct (declaredChildren o) as [k|] eqn:E.
  - apply (declaredChildren_le o k E).
  - destruct (0 <? length s)%nat; lia.
Qed.

(** X2.  The number of children of a decoded node is fixed by its operator:
    none for scan and values, two for the five binary operators, one for
    the other operators that have a case, whatever the stack holds; for an
    operator without a case it is one when the stack is not empty, and none
    otherwise.  The node carries the operator code that was decoded, and no
    error is reported. *)
Theorem decodeOperatorBody_arity o d n e d' :
  decodeOperatorBody o d = Ret ((n, e), d') ->
  op n = o /\ e = None /\
  length (children n)
  = match declaredChildren o with
    | Some k => k
    | None => if (0 <? length (nodeStack d))%nat then 1%nat else 0%nat
    end /\
  (declaredChildren o = None -> ~ In None (children n)).
Proof.
  intros H. apply decodeOperatorBody_Ret in H as (-> & Hop & Hpop & _).
  split; [exact Hop|]. split; [reflexivity|].
  pose proof (popChildren_spec _ (nodeStack d) (childrenPopped_le o (nodeStack d)))
    as [Hlen _].
  rewrite <- Hpop in Hlen. simpl in Hlen. split; [exact Hlen|].
  intros Hnone. unfold childrenPopped in Hpop. rewrite Hnone in Hpop.
  destruct (nodeStack d) as [|x s] eqn:Es using rev_ind; simpl in Hpop.
  - injection Hpop as -> _. intros [].
  - rewrite length_app in Hpop. simpl in Hpop.
    replace (0 <? length s + 1)%nat with true in Hpop
      by (symmetry; apply Nat.ltb_lt; lia).
    simpl in Hpop. rewrite last_snoc in Hpop. injection Hpop as -> _.
    intros [E|[]]. discriminate.
Qed.

Lemma decodeOperatorBody_arity_witness :
  exists n d',
    decodeOperatorBody hashJoinOp (newDecoder [x01; x02; x04; x00; x01] None None)
    = Ret ((n, None), d') /\
    length (children n) = 2%nat.
Proof.
  pose (d := newDecoder [x01; x02; x04; x00; x01] None None).
  destruct (decodeOperatorBody hashJoinOp d) as [[[n e] d']|msg|] eqn:E;
    [|vm_compute in E; discriminate..].
  destruct (decodeOperatorBody_arity hashJoinOp d n e d' E) as (_ & -> & Hlen & _).
  exists n, d'. split; [exact E|exact Hlen].
Defined.

(** X3.  [decodeOp] on an operator touches the top of the stack only: the
    stack it leaves is a prefix of the stack it found, the nodes that the
    operator did not pop, with the new node pushed on top; and it has read
    at least the operator byte. *)
Theorem decodeOp_stack d o d' :
  decodeOp d = Ret (o, d') -> o <> unknownOp ->
  exists n,
    op n = o /\
    nodeStack d'
    = take (length (nodeStack d) - childrenPopped o (nodeStack d)) (nodeStack d)
      ++ [n] /\
    (length (buf d') < length (buf d))%nat.
Proof.
  intros H Hne.
  apply decodeOp_Ret in H
    as [(-> & _)|[(-> & _)|(b & r & n & d1 & E & Eo & _ & Hop & B & ->)]];
    try contradiction.
  apply decodeOperatorBody_Ret in B as (_ & _ & Hpop & Hlen).
  pose proof (popChildren_spec _ (nodeStack (setBuf r d))
                (childrenPopped_le o (nodeStack (setBuf r d)))) as [_ Hs].
  rewrite <- Hpop in Hs. simpl in Hs, Hlen.
  exists n. split; [exact Hop|]. split.
  - simpl. rewrite Hs. reflexivity.
  - rewrite E. simpl. lia.
Qed.

Lemma decodeOp_stack_witness :
  exists l r n d',
    decodeOp (setNodeStack [l; r] (newDecoder [x03; x00] None None))
    = Ret (filterOp, d') /\
    nodeStack d' = [l; n] /\ op n = filterOp.
Proof.
  pose (l := mkNode valuesOp ∅ []). pose (r := mkNode scanOp ∅ []).
  pose (d := setNodeStack [l; r] (newDecoder [x03; x00] None None)).
  destruct (decodeOp d) as [[o d']|msg|] eqn:E; [|vm_compute in E; discriminate..].
  assert (o = filterOp) as ->
    by (pose proof E as E'; vm_compute in E'; injection E' as Eo _;
        symmetry; exact Eo).
  destruct (decodeOp_stack d filterOp d' E ltac:(discriminate)) as (n & Hop & Hs & _).
  exists l, r, n, d'. split; [exact E|]. split; [exact Hs|exact Hop].
Defined.

(** *** A decode that saw an operator returns a node *)

Lemma DecodePlanGist_loop_nonempty (fuel : nat) checks d checks' d' :
  DecodePlanGist_loop fuel checks d = Ret (checks', d') ->
  nodeStack d <> [] \/ checks <> [] ->
  nodeStack d' <> [] \/ checks' <> [].
Proof.
  revert checks d. induction fuel as [|fuel IH]; intros checks d H Hne; [discriminate|].
  simpl in H. apply bind_Ret_inv in H as (o & d1 & Hop & H).
  apply decodeOp_Ret in Hop
    as [(-> & E & ->)|[(-> & r & E & ->)|(b & r & n & d2 & E & Eo & Hnz & Hop & B & ->)]].
  - injection H as <- <-. exact Hne.
  - injection H as <- <-. exact Hne.
  - destruct (Z.eqb_spec o unknownOp) as [?|_]; [contradiction|].
    destruct (o =? errorIfRowsOp).
    + apply bind_Ret_inv in H as (c & d3 & Hp & H).
      apply (IH _ _ H). right. intros E'. apply app_eq_nil in E' as [_ E']. discriminate.
    + apply (IH _ _ H). left. simpl.
      intros E'. apply app_eq_nil in E' as [_ E']. discriminate.
Qed.

(** X4.  When the byte after the version is an operator code, not the
    terminator, a decode that succeeds returns a node, never nil. *)
Theorem DecodePlanGist_not_nil gist tl il b o rest res :
  base64_DecodeString gist = inl b ->
  ReadVarint b = ((gistVersion, None), o :: rest) ->
  o <> x00 ->
  DecodePlanGist gist tl il = Ret (res, None) ->
  res <> None.
Proof.
  intros Hb Hv Ho. unfold DecodePlanGist. rewrite Hb, decodeBuffer_eq.
  change (buf (newDecoder b tl il)) with b. rewrite Hv.
  change (setBuf (o :: rest) (newDecoder b tl il)) with (newDecoder (o :: rest) tl il).
  change (negb (gistVersion =? gistVersion)) with false. cbv iota.
  destruct (DecodePlanGist_loop (S (length (o :: rest))) [] (newDecoder (o :: rest) tl il))
    as [[checks d1]|msg|] eqn:EL; [|discriminate|discriminate].
  intros H. injection H as <-.
  assert (nodeStack d1 <> [] \/ checks <> []) as Hne.
  { cbn [DecodePlanGist_loop] in EL.
    apply bind_Ret_inv in EL as (o' & d2 & Hop & H).
    apply decodeOp_Ret in Hop
      as [(_ & E & _)|[(_ & r & E & _)|(b0 & r & n & d3 & E & Eo & Hnz & Hop & B & ->)]].
    - discriminate E.
    - injection E as -> _. contradiction.
    - destruct (Z.eqb_spec o' unknownOp) as [?|_]; [contradiction|].
      destruct (o' =? errorIfRowsOp).
      + apply bind_Ret_inv in H as (c & d4 & Hp & H).
        apply (DecodePlanGist_loop_nonempty _ _ _ _ _ H). right.
        intros E'. apply app_eq_nil in E' as [_ E']. discriminate.
      + apply (DecodePlanGist_loop_nonempty _ _ _ _ _ H). left. simpl.
        intros E'. apply app_eq_nil in E' as [_ E']. discriminate. }
  unfold assembleResult. destruct checks as [|c checks]; simpl; [|discriminate].
  destruct Hne as [Hne|Hne]; [|contradiction].
  intros E'. apply last_None in E'. contradiction.
Qed.

Lemma DecodePlanGist_not_nil_witness :
  exists res, DecodePlanGist "AgM=" None None = Ret (res, None) /\ res <> None.
Proof.
  destruct (DecodePlanGist "AgM=" None None) as [[res [e|]]|msg|] eqn:E;
    try (vm_compute in E; discriminate).
  exists res. split; [reflexivity|].
  exact (DecodePlanGist_not_nil "AgM=" None None [x02; x03] x03 [] res
           eq_refl eq_refl ltac:(discriminate) E).
Defined.

(** *** Bytes after the terminator *)

(** X5.  Whatever follows the terminator is ignored: when the decode of a
    buffer returns, the decode of that buffer followed by the byte 0x00 and
    by any bytes at all returns the same. *)
Theorem DecodePlanGist_trailing_bytes gist gist' b ext tl il res :
  base64_DecodeString gist = inl b ->
  base64_DecodeString gist' = inl (b ++ x00 :: ext) ->
  DecodePlanGist gist tl il = Ret res ->
  DecodePlanGist gist' tl il = Ret res.
Proof.
  intros Hb Hb'. unfold DecodePlanGist. rewrite Hb, Hb'.
  destruct (decodeBuffer (newDecoder b tl il)) as [[r d']|msg|] eqn:E;
    [|discriminate|discriminate].
  intros H. injection H as <-.
  destruct (decodeBuffer_terminated b tl il r d' ext E) as (d'' & ->). reflexivity.
Qed.

Lemma DecodePlanGist_trailing_bytes_witness :
  DecodePlanGist "AgHgAQIA/wMCAAAHFAUUIeABAAAFDAYM" None None
  = DecodePlanGist "AgHgAQIA/wMCAAAHFAUUIeAB" None None.
Proof.
  destruct (DecodePlanGist "AgHgAQIA/wMCAAAHFAUUIeAB" None None) as [res|msg|] eqn:E;
    [|vm_compute in E; discriminate..].
  exact (DecodePlanGist_trailing_bytes
           "AgHgAQIA/wMCAAAHFAUUIeAB" "AgHgAQIA/wMCAAAHFAUUIeABAAAFDAYM"
           [x02; x01; xe0; x01; x02; x00; xff; x03; x02; x00; x00; x07; x14; x05;
            x14; x21; xe0; x01]
           [x00; x05; x0c; x06; x0c] None None res eq_refl eq_refl E).
Defined.

(** *** The varint reads *)

(** The bytes that a varint read consumes: a prefix of the buffer, of no
    more bytes than the loop has iterations. *)
Lemma ReadUvarint_loop_prefix (todo : nat) (i x s : Z) (r : list byte) :
  exists pre,
    r = pre ++ snd (ReadUvarint_loop todo i x s r) /\ (length pre <= todo)%nat.
Proof.
  revert i x s r. induction todo as [|todo IH]; intros i x s r; simpl.
  - exists []. split; [reflexivity|simpl; lia].
  - destruct r as [|b r]; simpl.
    + exists []. split; [reflexivity|simpl; lia].
    + destruct (byteZ b <? 128).
      * exists [b]. destruct ((i =? MaxVarintLen64 - 1) && (1 <? byteZ b));
          (split; [reflexivity|simpl; lia]).
      * destruct (IH (i + 1) (Z.lor x (u64 (Z.shiftl (Z.land (byteZ b) 127) s)))
                    (s + 7) r) as (pre & E & L).
        exists (b :: pre). split; [simpl; f_equal; exact E|simpl; lia].
Qed.

Lemma zigzag_range (u : Z) :
  0 <= u < 2 ^ 64 -> minInt64 <= zigzag u <= maxInt64.
Proof.
  intros Hu. unfold zigzag, minInt64, maxInt64.
  assert (0 <= u / 2 < 2 ^ 63)
    by (split; [apply Z.div_pos; lia|apply Z.div_lt_upper_bound; lia]).
  assert (0 <= (u + 1) / 2 <= 2 ^ 63)
    by (split; [apply Z.div_pos; lia|apply Z.div_le_upper_bound; lia]).
  destruct (Z.even u); lia.
Qed.

(** X6.  A signed varint that [decodeInt] returns is an [int64], and it was
    read from the first bytes of the buffer: at least one and at most ten,
    the rest being left unread. *)
Theorem decodeInt_bounds d v d' :
  decodeInt d = Ret (v, d') ->
  minInt64 <= v <= maxInt64 /\
  exists pre,
    buf d = pre ++ buf d' /\ (1 <= length pre <= 10)%nat /\
    d' = setBuf (buf d') d.
Proof.
  intros H. pose proof (consumes_decodeInt _ _ _ H) as Hc.
  apply decodeInt_Ret in H as (r & E & ->).
  rewrite ReadVarint_zigzag in E. injection E as Ev _ Er.
  split; [rewrite <- Ev; apply zigzag_range, ReadUvarint_range|].
  destruct (ReadUvarint_loop_prefix (Z.to_nat MaxVarintLen64) 0 0 0 (buf d))
    as (pre & Ep & L).
  fold (ReadUvarint (buf d)) in Ep. rewrite Er in Ep.
  exists pre. cbn [buf setBuf] in *. split; [exact Ep|]. split; [|reflexivity].
  split; [|exact L].
  apply (f_equal (@length byte)) in Ep. rewrite length_app in Ep. lia.
Qed.

Lemma decodeInt_bounds_witness :
  exists v d',
    decodeInt (newDecoder [xe0; x01; x02] None None) = Ret (v, d') /\
    minInt64 <= v <= maxInt64 /\ buf d' = [x02].
Proof.
  pose (d := newDecoder [xe0; x01; x02] None None).
  destruct (decodeInt d) as [[v d']|msg|] eqn:E; [|vm_compute in E; discriminate..].
  destruct (decodeInt_bounds d v d' E) as (Hv & _).
  exists v, d'. split; [exact E|]. split; [exact Hv|].
  vm_compute in E. injection E as _ <-. reflexivity.
Defined.

Lemma PutUvarint_loop_length (todo : nat) (x : Z) :
  (length (PutUvarint_loop todo x) <= todo)%nat.
Proof.
  revert x. induction todo as [|todo IH]; intros x; simpl; [lia|].
  destruct (128 <=? x); simpl; [specialize (IH (Z.shiftr x 7))|]; lia.
Qed.

(** X7.  [decodeUvarint] undoes the base-128 encoding: on the encoding of an
    unsigned 64-bit [x], of ten bytes at most, followed by any bytes, it
    returns [x] and leaves the bytes that follow unread. *)
Theorem decodeUvarint_roundtrip x rest d :
  0 <= x < 2 ^ 64 ->
  decodeUvarint (setBuf (PutUvarint x ++ rest) d) = Ret (x, setBuf rest d) /\
  (length (PutUvarint x) <= 10)%nat.
Proof.
  intros Hx. split; [|apply PutUvarint_loop_length].
  unfold decodeUvarint.
  change (buf (setBuf (PutUvarint x ++ rest) d)) with (PutUvarint x ++ rest).
  rewrite ReadUvarint_PutUvarint by exact Hx. reflexivity.
Qed.

Lemma decodeUvarint_roundtrip_witness :
  decodeUvarint (setBuf (PutUvarint 300 ++ [x07]) (newDecoder [] None None))
  = Ret (300, newDecoder [x07] None None).
Proof.
  apply (decodeUvarint_roundtrip 300 [x07] (newDecoder [] None None)). lia.
Defined.

(** *** Integer sets *)

Lemma decodeIntSet_loop_consumes (fuel : nat) (i len : Z) d u d' :
  decodeIntSet_loop fuel i len d = Ret (u, d') ->
  0 <= i <= len -> len < 2 ^ 64 ->
  2 * (len - i) + Z.of_nat (length (buf d')) <= Z.of_nat (length (buf d)).
Proof.
  revert i d. induction fuel as [|fuel IH]; intros i d H Hi Hlen; [discriminate|].
  simpl in H. destruct (Z.ltb_spec i len) as [Hlt|Hge].
  - apply bind_Ret_inv in H as (a & d1 & H1 & H).
    apply bind_Ret_inv in H as (b & d2 & H2 & H).
    apply consumes_decodeUvarint in H1, H2.
    rewrite u64_small in H by lia.
    apply IH in H; lia.
  - injection H as <- <-. lia.
Qed.

(** X8.  [decodeIntSet] does not trust the length it reads: a set that
    declares [len] pairs is accepted only when at least [2 * len] bytes
    follow the length (one byte when [len] is 0), and is refused with a
    decode error, not read at length, when fewer bytes are left. *)
Theorem decodeIntSet_length d len d1 :
  decodeUvarint d = Ret (len, d1) ->
  (forall u d',
      decodeIntSet d = Ret (u, d') ->
      (if len =? 0 then 1 else 2 * len) + Z.of_nat (length (buf d'))
      <= Z.of_nat (length (buf d1))) /\
  (Z.of_nat (length (buf d1)) < (if len =? 0 then 1 else 2 * len) ->
   exists msg, decodeIntSet d = Panic msg /\ decodeError msg).
Proof.
  intros H1.
  assert (forall u d',
             decodeIntSet d = Ret (u, d') ->
             (if len =? 0 then 1 else 2 * len) + Z.of_nat (length (buf d'))
             <= Z.of_nat (length (buf d1))) as Hret.
  { intros u d' H. unfold decodeIntSet in H.
    rewrite (bind_Ret _ _ _ _ _ H1) in H.
    apply decodeUvarint_Ret in H1 as (r & E & ->).
    pose proof (ReadUvarint_range (buf d)) as Hr. rewrite E in Hr. simpl in Hr.
    destruct (Z.eqb_spec len 0) as [->|Hne].
    - apply bind_Ret_inv in H as (a & d2 & H2 & H). injection H as _ <-.
      apply consumes_decodeUvarint in H2. lia.
    - change ((getDecoder ≫= λ d0, decodeIntSet_loop (S (length (buf d0))) 0 len)
                (setBuf r d))
        with (decodeIntSet_loop (S (length (buf (setBuf r d)))) 0 len (setBuf r d)) in H.
      apply decodeIntSet_loop_consumes in H; lia. }
  split; [exact Hret|].
  intros Hshort. pose proof (safe_decodeIntSet d) as S.
  destruct (decodeIntSet d) as [[u d']|msg|] eqn:E.
  - specialize (Hret u d' eq_refl). lia.
  - exists msg. split; [reflexivity|exact S].
  - contradiction.
Qed.

Lemma decodeIntSet_length_witness :
  exists msg,
    decodeIntSet (newDecoder [x05; x0c; x06; x0c] None None) = Panic msg /\
    decodeError msg.
Proof.
  apply (proj2 (decodeIntSet_length (newDecoder [x05; x0c; x06; x0c] None None) 5
                  (newDecoder [x0c; x06; x0c] None None) eq_refl)).
  simpl. lia.
Defined.

(** *** The lookup functions *)

Lemma related_ret {A : Type} (a1 a2 : A) : a1 = a2 -> related (mret a1) (mret a2).
Proof. intros -> d1 d2 Hs. split; [reflexivity|exact Hs]. Qed.

Lemma related_bind {A B : Type} (c1 c2 : M A) (f1 f2 : A -> M B) :
  related c1 c2 -> (forall a, related (f1 a) (f2 a)) ->
  related (c1 ≫= f1) (c2 ≫= f2).
Proof.
  intros Hc Hf d1 d2 Hs. specialize (Hc d1 d2 Hs). unfold mbind, M_bind.
  destruct (c1 d1) as [[a1 d1']|m1|], (c2 d2) as [[a2 d2']|m2|]; try contradiction.
  - destruct Hc as [-> Hs']. apply Hf. exact Hs'.
  - exact Hc.
  - exact I.
Qed.

Lemma related_getDecoder_bind {B : Type} (f1 f2 : planGistDecoder -> M B) :
  (forall d1 d2, sameNames d1 d2 -> related (f1 d1) (f2 d2)) ->
  related (getDecoder ≫= f1) (getDecoder ≫= f2).
Proof. intros H d1 d2 Hs. apply (H d1 d2 Hs d1 d2 Hs). Qed.

Lemma sameNames_setBuf r d1 d2 :
  sameNames d1 d2 -> sameNames (setBuf r d1) (setBuf r d2).
Proof. intros (_ & Hs & Ht & Hi). split; [reflexivity|]. auto. Qed.

Lemma sameNames_setNodeStack s d1 d2 :
  sameNames d1 d2 -> sameNames (setNodeStack s d1) (setNodeStack s d2).
Proof. intros (Hb & _ & Ht & Hi). split; [exact Hb|]. split; [reflexivity|]. auto. Qed.

Lemma related_decodeInt : related decodeInt decodeInt.
Proof.
  intros d1 d2 Hs. unfold decodeInt. destruct Hs as (Hb & Hs). rewrite Hb.
  destruct (ReadVarint (buf d2)) as [[v [e|]] r]; [reflexivity|].
  split; [reflexivity|]. apply sameNames_setBuf. split; auto.
Qed.

Lemma related_decodeUvarint : related decodeUvarint decodeUvarint.
Proof.
  intros d1 d2 Hs. unfold decodeUvarint. destruct Hs as (Hb & Hs). rewrite Hb.
  destruct (ReadUvarint (buf d2)) as [[v [e|]] r]; [reflexivity|].
  split; [reflexivity|]. apply sameNames_setBuf. split; auto.
Qed.

Lemma related_decodeByte : related decodeByte decodeByte.
Proof.
  intros d1 d2 Hs. unfold decodeByte. destruct Hs as (Hb & Hs). rewrite Hb.
  destruct (Reader_ReadByte (buf d2)) as [[v [e|]] r]; [reflexivity|].
  split; [reflexivity|]. apply sameNames_setBuf. split; auto.
Qed.

Lemma related_popChild : related popChild popChild.
Proof.
  intros d1 d2 Hs. rewrite !popChild_eq. destruct Hs as (Hb & Hst & Hn).
  rewrite Hst. split; [reflexivity|]. apply sameNames_setNodeStack. split; auto.
Qed.

Lemma related_panic {A : Type} (msg : string) : related (@panic A msg) (panic msg).
Proof. intros d1 d2 Hs. reflexivity. Qed.

Create HintDb related.
#[local] Hint Resolve related_decodeInt related_decodeUvarint related_decodeByte
  related_popChild related_panic : related.

Ltac straight_related :=
  repeat first
    [ solve [eauto with related] | solve [apply related_ret; reflexivity]
    | progress cbv zeta
    | lazymatch goal with
      | |- forall _, _ => intro
      | |- related (getDecoder ≫= _) (getDecoder ≫= _) =>
          let Hst := fresh "Hst" in
          apply related_getDecoder_bind; intros ? ? (_ & Hst & _); rewrite Hst
      | |- related (_ ≫= _) (_ ≫= _) => apply related_bind
      | |- related (if ?b then _ else _) _ => destruct b
      | |- related (match ?x with (_, _) => _ end) _ => destruct x
      end ].

Lemma related_decodeBool : related decodeBool decodeBool.
Proof. unfold decodeBool. straight_related. Qed.

Lemma related_decodeTable : related decodeTable decodeTable.
Proof.
  unfold decodeTable, decodeID. apply related_bind; [apply related_decodeInt|].
  intros id. apply related_getDecoder_bind. intros d1 d2 (_ & _ & Ht & _).
  cbv zeta. apply related_ret. f_equal. apply (Ht id).
Qed.

Lemma related_decodeIndex t : related (decodeIndex t) (decodeIndex t).
Proof.
  unfold decodeIndex, decodeID. apply related_bind; [apply related_decodeInt|].
  intros id. apply related_getDecoder_bind. intros d1 d2 (_ & _ & _ & Hi).
  cbv zeta. apply related_ret. f_equal. apply (Hi t id).
Qed.

Lemma related_decodeNodeColumnOrdinals :
  related decodeNodeColumnOrdinals decodeNodeColumnOrdinals.
Proof. unfold decodeNodeColumnOrdinals, make_intSlice. straight_related. Qed.

Lemma related_decodeJoinType : related decodeJoinType decodeJoinType.
Proof. unfold decodeJoinType. straight_related. Qed.

Lemma related_decodeIntSet_loop fuel i len :
  related (decodeIntSet_loop fuel i len) (decodeIntSet_loop fuel i len).
Proof.
  revert i. induction fuel as [|fuel IH]; intros i; simpl.
  - intros d1 d2 _. exact I.
  - destruct (i <? len); [|apply related_ret; reflexivity].
    apply related_bind; [apply related_decodeUvarint|]. intros _.
    apply related_bind; [apply related_decodeUvarint|]. intros _. apply IH.
Qed.

Lemma related_decodeIntSet : related decodeIntSet decodeIntSet.
Proof.
  unfold decodeIntSet. apply related_bind; [apply related_decodeUvarint|].
  intros len. destruct (len =? 0); [straight_related|].
  apply related_getDecoder_bind. intros d1 d2 (Hb & _). rewrite Hb.
  apply related_decodeIntSet_loop.
Qed.

#[local] Hint Resolve related_decodeBool related_decodeTable related_decodeIndex
  related_decodeNodeColumnOrdinals related_decodeJoinType related_decodeIntSet
  : related.

Lemma related_decodeScanParams : related decodeScanParams decodeScanParams.
Proof. unfold decodeScanParams. straight_related. Qed.

Lemma related_appendPopChild n : related (appendPopChild n) (appendPopChild n).
Proof. unfold appendPopChild. straight_related. Qed.

Lemma related_appendLeftRight n : related (appendLeftRight n) (appendLeftRight n).
Proof. unfold appendLeftRight. straight_related. Qed.

#[local] Hint Resolve related_decodeScanParams related_appendPopChild
  related_appendLeftRight : related.

Lemma related_decodeOperatorBody o :
  related (decodeOperatorBody o) (decodeOperatorBody o).
Proof.
  unfold decodeOperatorBody, decodeRows, decodeResultColumns. straight_related.
Qed.

Lemma related_decodeOp : related decodeOp decodeOp.
Proof.
  intros d1 d2 Hs. pose proof Hs as (Hb & Hst & Hn).
  destruct (buf d2) as [|b r] eqn:E.
  - rewrite (decodeOp_eof d1 Hb), (decodeOp_eof d2 E). split; [reflexivity|exact Hs].
  - destruct (Z.eq_dec (byteZ b) 0) as [Hz|Hnz].
    + apply byteZ_0 in Hz. subst b.
      rewrite (decodeOp_terminator d1 r Hb), (decodeOp_terminator d2 r E).
      split; [reflexivity|]. apply sameNames_setBuf. exact Hs.
    + rewrite (decodeOp_operator d1 b r Hb Hnz), (decodeOp_operator d2 b r E Hnz).
      pose proof (related_decodeOperatorBody (byteZ b) (setBuf r d1) (setBuf r d2)
                    (sameNames_setBuf r d1 d2 Hs)) as H.
      destruct (decodeOperatorBody (byteZ b) (setBuf r d1)) as [[[n1 e1] d1']|m1|],
               (decodeOperatorBody (byteZ b) (setBuf r d2)) as [[[n2 e2] d2']|m2|];
        try contradiction; try exact H.
      destruct H as [H Hs']. injection H as <- <-. split; [reflexivity|].
      destruct Hs' as (Hb' & Hst' & Hn'). rewrite Hst'.
      apply sameNames_setNodeStack. split; auto.
Qed.

Lemma related_DecodePlanGist_loop fuel checks :
  related (DecodePlanGist_loop fuel checks) (DecodePlanGist_loop fuel checks).
Proof.
  revert checks. induction fuel as [|fuel IH]; intros checks; simpl.
  - intros d1 d2 _. exact I.
  - apply related_bind; [apply related_decodeOp|]. intros o.
    destruct (o =? unknownOp); [apply related_ret; reflexivity|].
    destruct (o =? errorIfRowsOp); [|apply IH].
    apply related_bind; [apply related_popChild|]. intros c. apply IH.
Qed.

Lemma related_decodeBuffer : related decodeBuffer decodeBuffer.
Proof.
  unfold decodeBuffer. apply related_bind; [apply related_decodeInt|]. intros ver.
  destruct (negb (ver =? gistVersion)); [apply related_ret; reflexivity|].
  apply related_getDecoder_bind. intros d1 d2 (Hb & _). rewrite Hb.
  apply related_bind; [apply related_DecodePlanGist_loop|]. intros checks.
  apply related_bind; [apply related_popChild|]. intros root.
  destruct (0 <? length checks)%nat; apply related_ret; reflexivity.
Qed.

(** X9.  [DecodePlanGist] uses the lookup functions for the display names
    only: two pairs of lookup functions that give every table and every
    index the same display name (an empty answer, like no function at all,
    standing for [?]) give the same result, tree, error or panic. *)
Theorem DecodePlanGist_lookup_names gist tl1 il1 tl2 il2 :
  (forall id, tableName tl1 id = tableName tl2 id) ->
  (forall t id, indexName il1 t id = indexName il2 t id) ->
  DecodePlanGist gist tl1 il1 = DecodePlanGist gist tl2 il2.
Proof.
  intros Ht Hi. unfold DecodePlanGist.
  destruct (base64_DecodeString gist) as [b|be]; [|reflexivity].
  assert (sameNames (newDecoder b tl1 il1) (newDecoder b tl2 il2)) as Hs
    by (split; [reflexivity|]; split; [reflexivity|]; split; assumption).
  pose proof (related_decodeBuffer _ _ Hs) as H.
  destruct (decodeBuffer (newDecoder b tl1 il1)) as [[r1 d1]|m1|],
           (decodeBuffer (newDecoder b tl2 il2)) as [[r2 d2]|m2|];
    try contradiction.
  - destruct H as [-> _]. reflexivity.
  - rewrite H. reflexivity.
  - reflexivity.
Qed.

Lemma DecodePlanGist_lookup_names_witness :
  DecodePlanGist "AgHgAQIA/wMCAAAHFAUUIeABAAAFDAYM"
    (Some (fun _ => ""%string)) (Some (fun _ _ => ""%string))
  = DecodePlanGist "AgHgAQIA/wMCAAAHFAUUIeABAAAFDAYM" None None.
Proof.
  apply DecodePlanGist_lookup_names.
  - intros id. reflexivity.
  - intros t id. reflexivity.
Defined.

(** *** The attributes of the decoded nodes *)

(** Take [H : c d = Ret r] of a straight-line [c] apart, keeping the
    equation of every call. *)
Ltac body_calls H :=
  repeat lazymatch type of H with
    | appendPopChild _ _ = Ret _ => rewrite appendPopChild_eq in H
    | appendLeftRight _ _ = Ret _ => rewrite appendLeftRight_eq in H
    | (_ ≫= _) _ = Ret _ =>
        let Hc := fresh "Hc" in
        apply bind_Ret_inv in H as (? & ? & Hc & H);
        try (rewrite appendPopChild_eq in Hc; injection Hc as <- <-);
        try (rewrite appendLeftRight_eq in Hc; injection Hc as <- <-)
    | (let '(_, _) := ?x in _) _ = Ret _ => destruct x
    | (if ?b then _ else _) _ = Ret _ => destruct b
    | mret _ _ = Ret _ => injection H as <- <- <-
    | Ret _ = Ret _ => injection H as <- <- <-
    end.

(** Decide which keys a map built from [insert], union and the empty map
    holds. *)
Ltac keys_of_map :=
  repeat first
    [ rewrite lookup_insert_is_Some' | rewrite lookup_union_is_Some
    | rewrite lookup_empty ].

(** X10.  The attributes of a decoded node are fixed by its operator: it
    has every attribute that the case of the operator always sets, and none
    but these and the ones the case sets on a condition (for a scan:
    [spans], [inverted_constraint], [limit]; for a hash join: [left_key],
    [right_key]). *)
Theorem decodeOperatorBody_attrs o d n e d' :
  decodeOperatorBody o d = Ret ((n, e), d') ->
  forall k,
    (In k (requiredAttrs o) -> is_Some (args n !! k)) /\
    (is_Some (args n !! k) -> In k (requiredAttrs o ++ optionalAttrs o)).
Proof.
  unfold decodeOperatorBody, decodeRows, decodeResultColumns, requiredAttrs,
    optionalAttrs.
  intros H k.
  repeat match type of H with
         | context [o =? ?c] => destruct (Z.eqb_spec o c); cbn [orb] in H
         end.
  all: try subst o.
  all: repeat match goal with E : _ <> _ |- _ =>
                apply Z.eqb_neq in E; try rewrite E; clear E end.
  all: body_calls H.
  all: try match goal with
           | Hp : decodeScanParams _ = Ret _ |- _ =>
               apply decodeScanParams_Ret in Hp as (ns & ni & hl & ->);
               unfold scanParams; cbv zeta;
               destruct (0 <? ns), (ns =? 1), (0 <? ni), (negb (hl =? 0))
           end.
  all: repeat match goal with
         | |- context [if ?b then _ else _] => is_var b; destruct b
         end.
  all: repeat match goal with
         | |- context [?a =? ?b] =>
             tryif is_var a then fail else
               let v := eval vm_compute in (a =? b) in change (a =? b) with v
         end.
  all: cbn [args Node_setArg Node_appendChildren orb app In].
  all: keys_of_map.
  all: pose proof (@is_Some_None value) as Hnone.
  all: intuition (subst; auto).
Qed.

Lemma decodeOperatorBody_attrs_witness :
  exists n d',
    decodeOperatorBody valuesOp (newDecoder [x04; x06] None None) = Ret ((n, None), d') /\
    is_Some (args n !! "rows"%string) /\ is_Some (args n !! "columns"%string).
Proof.
  pose (d := newDecoder [x04; x06] None None).
  destruct (decodeOperatorBody valuesOp d) as [[[n e] d']|msg|] eqn:E;
    [|vm_compute in E; discriminate..].
  pose proof (decodeOperatorBody_attrs valuesOp d n e d' E) as H.
  assert (e = None) as ->
    by (pose proof E as E'; vm_compute in E'; injection E' as _ <- _; reflexivity).
  exists n, d'. split; [exact E|]. split.
  - apply (proj1 (H "rows"%string)). left. reflexivity.
  - apply (proj1 (H "columns"%string)). right. left. reflexivity.
Defined.

Lemma tableName_nonempty lookup id : tableName lookup id <> ""%string.
Proof.
  unfold tableName. destruct lookup as [f|]; [|discriminate].
  destruct (String.eqb_spec (f id) ""); simpl; [discriminate|assumption].
Qed.

Lemma indexName_nonempty lookup t id : indexName lookup t id <> ""%string.
Proof.
  unfold indexName. destruct lookup as [f|]; [|discriminate].
  destruct (String.eqb_spec (f t id) ""); simpl; [discriminate|assumption].
Qed.

Lemma decodeTable_Ret d id name d' :
  decodeTable d = Ret ((id, name), d') -> name = tableName (TableLookupFn d) id.
Proof.
  unfold decodeTable, decodeID. intros H.
  apply bind_Ret_inv in H as (id0 & d1 & H1 & H).
  apply decodeInt_Ret in H1 as (r & _ & ->).
  injection H as <- <- _. reflexivity.
Qed.

Lemma decodeIndex_Ret t d id name d' :
  decodeIndex t d = Ret ((id, name), d') -> name = indexName (IndexLookupFn d) t id.
Proof.
  unfold decodeIndex, decodeID. intros H.
  apply bind_Ret_inv in H as (id0 & d1 & H1 & H).
  apply decodeInt_Ret in H1 as (r & _ & ->).
  injection H as <- <- _. reflexivity.
Qed.

Lemma decodeJoinType_Ret d name d' :
  decodeJoinType d = Ret (name, d') -> name <> ""%string.
Proof.
  unfold decodeJoinType. intros H.
  apply bind_Ret_inv in H as (jt & d1 & _ & H).
  destruct (Z.ltb_spec (byteZ jt) (Z.of_nat (length joinTypes))) as [Hlt|_].
  - injection H as <- _. pose proof (byteZ_range jt) as Hr. simpl in Hlt.
    destruct (Z.to_nat (byteZ jt)) as [|[|[|[|[|[|[|[|k]]]]]]]] eqn:E;
      simpl; try discriminate. lia.
  - injection H as <- _. discriminate.
Qed.

(** X11.  The names that the formatter prints with [%s] are there to print:
    in a decoded node the attributes [table], [index] and [type], when
    present, hold a string that is not empty ([?] for a table or an index
    that the lookup functions do not name). *)
Theorem decodeOperatorBody_names o d n e d' k v :
  decodeOperatorBody o d = Ret ((n, e), d') ->
  In k ["table"; "index"; "type"]%string ->
  args n !! k = Some v ->
  exists s, v = VString s /\ s <> ""%string.
Proof.
  unfold decodeOperatorBody, decodeRows, decodeResultColumns.
  intros H Hk.
  repeat match type of H with
         | context [o =? ?c] => destruct (Z.eqb_spec o c); cbn [orb] in H
         end.
  all: repeat match goal with E : _ <> _ |- _ => clear E end.
  all: body_calls H.
  all: repeat match goal with
         | Hc : decodeTable _ = Ret _ |- _ =>
             apply decodeTable_Ret in Hc;
             let N := fresh "N" in
             match type of Hc with ?s = tableName ?l ?i =>
               pose proof (tableName_nonempty l i) as N; rewrite <- Hc in N; clear Hc
             end
         | Hc : decodeIndex _ _ = Ret _ |- _ =>
             apply decodeIndex_Ret in Hc;
             let N := fresh "N" in
             match type of Hc with ?s = indexName ?l ?t ?i =>
               pose proof (indexName_nonempty l t i) as N; rewrite <- Hc in N; clear Hc
             end
         | Hc : decodeJoinType _ = Ret _ |- _ => apply decodeJoinType_Ret in Hc
         | Hp : decodeScanParams _ = Ret _ |- _ =>
             apply decodeScanParams_Ret in Hp as (ns & ni & hl & ->);
             unfold scanParams; cbv zeta;
             destruct (0 <? ns), (ns =? 1), (0 <? ni), (negb (hl =? 0))
         | Hc : _ _ = Ret _ |- _ => clear Hc
         end.
  all: repeat match goal with
         | |- context [if ?b then _ else _] => is_var b; destruct b
         end.
  all: cbn [args Node_setArg Node_appendChildren].
  all: destruct Hk as [<-|[<-|[<-|[]]]].
  all: intros Hv; vm_compute in Hv; try discriminate Hv.
  all: injection Hv as <-; eexists; split; [reflexivity|assumption].
Qed.

Lemma decodeOperatorBody_names_witness :
  exists n d' s,
    decodeOperatorBody updateOp (newDecoder [xe0; x01] None None)
    = Ret ((n, None), d') /\
    args n !! "table"%string = Some (VString s) /\ s <> ""%string.
Proof.
  pose (d := newDecoder [xe0; x01] None None).
  destruct (decodeOperatorBody updateOp d) as [[[n e] d']|msg|] eqn:E;
    [|vm_compute in E; discriminate..].
  destruct (args n !! "table"%string) as [v|] eqn:Ev;
    [|pose proof E as E'; vm_compute in E'; injection E' as <- _ _;
      vm_compute in Ev; discriminate].
  destruct (decodeOperatorBody_names updateOp d n e d' "table"%string v E
              ltac:(left; reflexivity) Ev) as (s & -> & Hs).
  assert (e = None) as ->
    by (pose proof E as E'; vm_compute in E'; injection E' as _ <- _; reflexivity).
  exists n, d', s. split; [exact E|]. split; [exact Ev|exact Hs].
Defined.
